(** * Verification of the novel-processor orchestration core

    Shallow embedding of
      - [packages/novel-processor/src/libs/chunker.ts]     (TokenChunker)
      - [packages/novel-processor/src/analyzer.ts]         (sliding-window reader)
      - [packages/novel-processor/src/modules/analyzer.ts] (map/resolve pipeline)
    and the properties of the bounded scheduler, the merge stage, the
    entity aggregation and the chunker. *)

From Stdlib Require Import String Ascii List Arith ZArith Lia Bool.
From Stdlib Require Import Decimal DecimalString DecimalNat.
From stdpp Require Import base option list gmap strings sorting.

Local Open Scope string_scope.
Local Open Scope nat_scope.
Local Open Scope list_scope.

(* ===================================================================== *)
(** * JavaScript runtime helpers used by the sources *)
(* ===================================================================== *)

Module JS.

(** [String(n)] for a non-negative integer counter: its decimal digits. *)
Definition String_ (n : nat) : string :=
    NilEmpty.string_of_uint (Nat.to_uint n).

(** The first [n] characters of [fill] repeated for ever ([fill] non-empty). *)
Definition fillTo (fill : string) (n : nat) : string :=
    string_of_list_ascii
      (take n (concat (replicate n (list_ascii_of_string fill)))).

(** [s.padStart(target, fill)]. *)
Definition padStart (target : nat) (fill : string) (s : string) : string :=
    let len := String.length s in
    if (target <=? len) || (String.length fill =? 0) then s
    else fillTo fill (target - len) +:+ s.

(** [xs.join(sep)]. *)
Fixpoint join (sep : string) (xs : list string) : string :=
    match xs with
    | [] => ""
    | [x] => x
    | x :: rest => x +:+ sep +:+ join sep rest
    end.

(** Truthiness of the result of [Map.prototype.get] on a string-valued
      map: [undefined] and the empty string are falsy. *)
Definition truthy (v : option string) : bool :=
    match v with
    | Some s => negb (String.length s =? 0)
    | None => false
    end.

End JS.

(* ===================================================================== *)
(** * Data model ([types.ts]) *)
(* ===================================================================== *)

Module Event.
Record t := mk {
    id : string;
    summary : string;
    description : string;
    chapter : string;
    location : option string;
    time : option string;
    characters : list string;
    emotionalTone : string
  }.
(** [{ ...event, id: newId }] *)
Definition with_id (e : t) (newId : string) : t :=
    mk newId (summary e) (description e) (chapter e) (location e) (time e)
       (characters e) (emotionalTone e).
End Event.

Module CausalRelation.
Record t := mk {
    fromEventId : string;
    toEventId : string;
    strength : string;
    description : string
  }.
(** [{ ...relation, fromEventId: f, toEventId: g }] *)
Definition with_ends (r : t) (f g : string) : t :=
    mk f g (strength r) (description r).
End CausalRelation.

(** A raw discovered mention [{ name, description }]. *)
Module Mention.
Record t := mk { name : string; description : string }.
End Mention.

Module SceneBreak.
Record t := mk { position : string; reason : string }.
End SceneBreak.

Inductive Importance := major | minor | extra.

(** [Character] of the current [types.ts] (global profile with an id). *)
Module Character.
Record t := mk {
    id : string;
    name : string;
    aliases : list string;
    description : string;
    firstAppearance : option string;
    importance : Importance;
    visualTraits : option string
  }.
End Character.

Module CharacterInChunk.
Record t := mk { id : string; name : string; role : string }.
End CharacterInChunk.

(** [ChunkAnalysis] of the current [types.ts]. *)
Module ChunkAnalysis.
Record t := mk {
    summary : string;
    events : list Event.t;
    causalRelations : list CausalRelation.t;
    characters : list CharacterInChunk.t;
    discoveredCharacters : list Mention.t;
    sceneBreaks : list SceneBreak.t
  }.
End ChunkAnalysis.

(** An insertion-ordered JavaScript [Map] whose iteration order is
    observable: [set] on a present key replaces the value in place. *)
Module OrderedMap.
Section OrderedMap.
Context {V : Type}.
Definition t := list (string * V).

Fixpoint get (m : t) (k : string) : option V :=
      match m with
      | [] => None
      | (k', v) :: rest => if String.eqb k' k then Some v else get rest k
      end.

Definition has (m : t) (k : string) : bool :=
      match get m k with Some _ => true | None => false end.

Fixpoint set (m : t) (k : string) (v : V) : t :=
      match m with
      | [] => [(k, v)]
      | (k', v') :: rest =>
          if String.eqb k' k then (k, v) :: rest else (k', v') :: set rest k v
      end.
End OrderedMap.
Arguments t : clear implicits.
End OrderedMap.

(* ===================================================================== *)
(** * The merge stage *)
(* ===================================================================== *)

(** The part of [mergeAnalyses] shared verbatim by both analyzer files:
    the global event counter and the per-chunk id map. *)
Module MergeCore.

(** [`E${String(eventCounter).padStart(3, "0")}`] *)
Definition globalId (eventCounter : nat) : string :=
    "E" +:+ JS.padStart 3 "0" (JS.String_ eventCounter).

(** State of the inner [for (const event of analysis.events)] loop. *)
Record EventLoop := mkEventLoop {
    eventCounter : nat;
    chunkEventIdMap : gmap string string;
    allEvents : list Event.t
  }.

(** One iteration of the event loop: allocate the id (post-increment),
      record local -> global, push the renamed event. *)
Definition eventStep (st : EventLoop) (event : Event.t) : EventLoop :=
    let newId := globalId (eventCounter st) in
    {| eventCounter := S (eventCounter st);
       chunkEventIdMap := <[Event.id event := newId]> (chunkEventIdMap st);
       allEvents := allEvents st ++ [Event.with_id event newId] |}.

(** The event loop of one chunk; the id map starts empty for each chunk
      ([new Map()] inside the outer loop). *)
Definition eventLoop (counter : nat) (out : list Event.t)
      (events : list Event.t) : EventLoop :=
    foldl eventStep
      {| eventCounter := counter; chunkEventIdMap := ∅; allEvents := out |}
      events.

End MergeCore.

(** [packages/novel-processor/src/modules/analyzer.ts] *)
Module Pipeline.
Import MergeCore.

Record Merged := mkMerged {
    fullSummary : string;
    mAllEvents : list Event.t;
    allCharacters : OrderedMap.t Character.t;
    allRelations : list CausalRelation.t
  }.

(** One iteration of [for (const relation of analysis.causalRelations)]. *)
Definition relationStep (idMap : gmap string string)
      (out : list CausalRelation.t) (relation : CausalRelation.t)
      : list CausalRelation.t :=
    let fromGlobal := idMap !! CausalRelation.fromEventId relation in
    let toGlobal := idMap !! CausalRelation.toEventId relation in
    if JS.truthy fromGlobal && JS.truthy toGlobal then
      match fromGlobal, toGlobal with
      | Some f, Some g => out ++ [CausalRelation.with_ends relation f g]
      | _, _ => out
      end
    else out.

(** Accumulator of the outer [for (const analysis of analyses)] loop. *)
Record MergeLoop := mkMergeLoop {
    counter : nat;
    events_acc : list Event.t;
    relations_acc : list CausalRelation.t
  }.

Definition analysisStep (st : MergeLoop) (analysis : ChunkAnalysis.t)
      : MergeLoop :=
    let ev := eventLoop (counter st) (events_acc st)
                (ChunkAnalysis.events analysis) in
    {| counter := eventCounter ev;
       events_acc := allEvents ev;
       relations_acc :=
         foldl (relationStep (chunkEventIdMap ev)) (relations_acc st)
           (ChunkAnalysis.causalRelations analysis) |}.

Definition mergeLoop (analyses : list ChunkAnalysis.t) : MergeLoop :=
    foldl analysisStep
      {| counter := 1; events_acc := []; relations_acc := [] |} analyses.

Definition mergeAnalyses (analyses : list ChunkAnalysis.t)
      (globalCharacters : list Character.t) : Merged :=
    let st := mergeLoop analyses in
    {| fullSummary := JS.join (String "010" (String "010" ""))
                        (map ChunkAnalysis.summary analyses);
       mAllEvents := events_acc st;
       allCharacters :=
         foldl (fun m char => OrderedMap.set m (Character.id char) char)
           [] globalCharacters;
       allRelations := relations_acc st |}.

End Pipeline.

(** [packages/novel-processor/src/analyzer.ts], with the [types.ts] it was
    written against (characters are keyed by name and carry no id). *)
Module Reader.
Import MergeCore.

Module Character.
Record t := mk {
      name : string;
      aliases : list string;
      description : string;
      firstAppearance : option string
    }.
(** [{ ...existing, aliases: a }] *)
Definition with_aliases (c : t) (a : list string) : t :=
      mk (name c) a (description c) (firstAppearance c).
End Character.

Module ChunkAnalysis.
Record t := mk {
      summary : string;
      events : list Event.t;
      characters : list Character.t;
      causalRelations : list CausalRelation.t;
      sceneBreaks : list SceneBreak.t
    }.
End ChunkAnalysis.

(** [Array.from(new Set(xs))]: first occurrences, in order. *)
Definition arrayFromSet (xs : list string) : list string :=
    foldl (fun acc x => if bool_decide (x ∈ acc) then acc else acc ++ [x])
      [] xs.

(** One iteration of [for (const char of analysis.characters)]. *)
Definition characterStep (allCharacters : OrderedMap.t Character.t)
      (char : Character.t) : OrderedMap.t Character.t :=
    match OrderedMap.get allCharacters (Character.name char) with
    | None => OrderedMap.set allCharacters (Character.name char) char
    | Some existing =>
        let mergedAliases :=
          arrayFromSet (Character.aliases existing ++ Character.aliases char) in
        OrderedMap.set allCharacters (Character.name char)
          (Character.with_aliases existing mergedAliases)
    end.

Record MergeLoop := mkMergeLoop {
    counter : nat;
    events_acc : list Event.t;
    characters_acc : OrderedMap.t Character.t
  }.

(** The body of the outer loop: the id map [idMap] is filled by the event
      loop and then goes out of scope; nothing reads it. *)
Definition analysisStep (st : MergeLoop) (analysis : ChunkAnalysis.t)
      : MergeLoop :=
    let ev := eventLoop (counter st) (events_acc st)
                (ChunkAnalysis.events analysis) in
    {| counter := eventCounter ev;
       events_acc := allEvents ev;
       characters_acc :=
         foldl characterStep (characters_acc st)
           (ChunkAnalysis.characters analysis) |}.

Definition mergeLoop (analyses : list ChunkAnalysis.t) : MergeLoop :=
    foldl analysisStep
      {| counter := 1; events_acc := []; characters_acc := [] |} analyses.

Record Merged := mkMerged {
    fullSummary : string;
    mAllEvents : list Event.t;
    allCharacters : OrderedMap.t Character.t;
    allRelations : list CausalRelation.t
  }.

Definition mergeAnalyses (analyses : list ChunkAnalysis.t) : Merged :=
    let st := mergeLoop analyses in
    {| fullSummary := JS.join (String "010" (String "010" ""))
                        (map ChunkAnalysis.summary analyses);
       mAllEvents := events_acc st;
       allCharacters := characters_acc st;
       (* analyses.flatMap((a) => a.causalRelations) *)
       allRelations := concat (map ChunkAnalysis.causalRelations analyses) |}.

End Reader.

(* ===================================================================== *)
(** * The bounded scheduler [runInParallel] *)
(* ===================================================================== *)

(** [NovelAnalyzer.runInParallel] is the same text in both analyzer files.
    JavaScript runs one continuation at a time, so a run is a sequence of
    atomic turns: the promise of an invoked task settles, or a worker whose
    awaited promise has settled continues up to its next [await]. Which
    in-flight promise settles next is not under the scheduler's control. *)
Module Scheduler.

(** How the promise returned by [tasks[index]()] settles. *)
Inductive Outcome (T : Type) :=
| Resolved (value : T)
| Rejected.
Arguments Resolved {T} value.
Arguments Rejected {T}.

(** Where one [worker()] coroutine stands. *)
Inductive Worker :=
| Awaiting (index : nat)   (* suspended at [await tasks[index]()] *)
| Resuming (index : nat)   (* its promise has settled, continuation queued *)
| Returned                 (* left the [while] loop *)
| Thrown.                  (* the awaited promise rejected *)

Inductive Event :=
| Invoked (index : nat)    (* [tasks[index]()] was called *)
| Settled (index : nat).   (* the body of task [index] ran to its end *)

#[global] Instance Worker_eq_dec : EqDecision Worker.
Proof. solve_decision. Defined.
#[global] Instance Event_eq_dec : EqDecision Event.
Proof. solve_decision. Defined.

Definition invokedOf (trace : list Event) : list nat :=
  omap (fun e => match e with Invoked i => Some i | _ => None end) trace.

Definition settledOf (trace : list Event) : list nat :=
  omap (fun e => match e with Settled i => Some i | _ => None end) trace.

Definition inflightOf (workers : list Worker) : list nat :=
  omap (fun w => match w with
                 | Awaiting i | Resuming i => Some i
                 | _ => None
                 end) workers.

Definition awaitingOf (workers : list Worker) : list nat :=
  omap (fun w => match w with Awaiting i => Some i | _ => None end) workers.

Definition runnable (w : Worker) : bool :=
  match w with Awaiting _ | Resuming _ => true | _ => false end.

Section Scheduler.
Context {T : Type}.
Variable tasks : list (Outcome T).

Record State := mkState {
  currentIndex : nat;               (* [let currentIndex = 0] *)
  results : list (option T);        (* [new Array(tasks.length)], holes as None *)
  workers : list Worker;
  trace : list Event
}.

(** The head of [while (currentIndex < tasks.length)] followed by
    [const index = currentIndex++] and the call [tasks[index]()]: the worker
    is left suspended on the new promise, or leaves the loop. *)
Definition enterLoop (st : State) : State * Worker :=
  if currentIndex st <? length tasks then
    (mkState (S (currentIndex st)) (results st) (workers st)
       (trace st ++ [Invoked (currentIndex st)]),
     Awaiting (currentIndex st))
  else (st, Returned).

(** One call [worker()] made by [Array.from({ length }, () => worker())]. *)
Definition spawn (st : State) : State :=
  let '(st', w) := enterLoop st in
  mkState (currentIndex st') (results st') (workers st' ++ [w]) (trace st').

(** [Math.min(concurrency, tasks.length)] workers; a length below one makes
    none. *)
Definition poolSize (concurrency : Z) : nat :=
  Z.to_nat (Z.min concurrency (Z.of_nat (length tasks))).

Definition start (concurrency : Z) : State :=
  Nat.iter (poolSize concurrency) spawn
    (mkState 0 (replicate (length tasks) None) [] []).

(** One turn of worker [w]. [results[index] = value] always has
    [index < tasks.length] here, so the array is never extended. *)
Definition advance (st : State) (w : nat) : State :=
  match workers st !! w with
  | Some (Awaiting i) =>
      mkState (currentIndex st) (results st) (<[w := Resuming i]> (workers st))
        (trace st ++ [Settled i])
  | Some (Resuming i) =>
      match tasks !! i with
      | Some (Resolved value) =>
          let '(st', next) :=
            enterLoop (mkState (currentIndex st) (<[i := Some value]> (results st))
                         (workers st) (trace st)) in
          mkState (currentIndex st') (results st')
            (<[w := next]> (workers st')) (trace st')
      | _ =>
          mkState (currentIndex st) (results st) (<[w := Thrown]> (workers st))
            (trace st)
      end
  | _ => st
  end.

Definition canRun (st : State) (w : nat) : bool :=
  match workers st !! w with
  | Some wk => runnable wk
  | None => false
  end.

(** The possible turns. *)
Definition step (st st' : State) : Prop :=
  exists w, canRun st w = true /\ st' = advance st w.

(** What the promise returned by [runInParallel] has done in state [st]:
    [Promise.all] rejects as soon as one worker has thrown and resolves, with
    [results], when every worker has returned. *)
Definition settlement (st : State) : option (Outcome (list (option T))) :=
  if bool_decide (Thrown ∈ workers st) then Some Rejected
  else if forallb (fun w => bool_decide (w = Returned)) (workers st)
       then Some (Resolved (results st))
       else None.

(** The workers that can take a turn, by position. *)
Definition runnableWorkers (st : State) : list nat :=
  filter (fun w => canRun st w = true) (seq 0 (length (workers st))).

(** A run under a schedule: each entry picks, among the workers that can take
    a turn, the one that takes it. *)
Fixpoint drive (schedule : list nat) (st : State) : State :=
  match schedule with
  | [] => st
  | pick :: rest =>
      match runnableWorkers st with
      | [] => st
      | w0 :: ws =>
          drive rest
            (advance st (nth (pick mod length (w0 :: ws)) (w0 :: ws) w0))
      end
  end.

Definition runInParallel (concurrency : Z) (schedule : list nat)
    : option (Outcome (list (option T))) :=
  settlement (drive schedule (start concurrency)).

End Scheduler.

End Scheduler.

(* ===================================================================== *)
(** * The analyzer stages *)
(* ===================================================================== *)

(** A JavaScript string as its UTF-16 code units ([length], [trim] and the
    regular expressions of the chunker work on these). *)
Abbreviation utf16 := (list N).

Module TextChunk.
Record t := mk {
  index : nat;
  content : utf16;
  tokenCount : nat;
  startChar : Z;
  endChar : nat
}.
End TextChunk.

(** One call [onProgress(stage, current, total)]. *)
Module Progress.
Record t := mk { stage : string; current : nat; total : nat }.
End Progress.

(** The progress calls made by the task bodies of a stage run through
    [runInParallel]: task [i] calls [onProgress(stage, i + 1, total)] as the
    last thing before it returns, i.e. when it settles. *)
Definition taskProgress (stage : string) (total : nat)
    (trace : list Scheduler.Event) : list Progress.t :=
  (fun i => Progress.mk stage (i + 1) total) <$> Scheduler.settledOf trace.

(** [class NovelAnalyzer] of [modules/analyzer.ts]. The generation capability
    [llm.structured] is a parameter, one function per prompt and schema; a
    request is represented by the data interpolated into its prompt. *)
Module PipelineAnalyzer.

(** [{ name, descriptions }], an element of [aggregatedInputs]. *)
Module Aggregated.
Record t := mk { name : string; descriptions : list string }.
End Aggregated.

(** [set.add(x)] on an insertion-ordered [Set]. *)
Definition setAdd (set : list string) (x : string) : list string :=
  if bool_decide (x ∈ set) then set else set ++ [x].

(** One iteration of [for (const item of rawDiscovered)]. *)
Definition addMention (nameMap : OrderedMap.t (list string))
    (item : Mention.t) : OrderedMap.t (list string) :=
  let nameMap1 :=
    if negb (OrderedMap.has nameMap (Mention.name item))
    then OrderedMap.set nameMap (Mention.name item) []
    else nameMap in
  match OrderedMap.get nameMap1 (Mention.name item) with
  | Some descSet =>
      OrderedMap.set nameMap1 (Mention.name item)
        (setAdd descSet (Mention.description item))
  | None => nameMap1
  end.

(** [Array.from(nameMap.entries()).map(...)] with
    [Array.from(descSet).slice(0, 5)]. *)
Definition aggregate (rawDiscovered : list Mention.t) : list Aggregated.t :=
  (fun '(name, descSet) => Aggregated.mk name (take 5 descSet))
    <$> foldl addMention [] rawDiscovered.

Section NovelAnalyzer.
Variable extractLLM : option string -> utf16 -> ChunkAnalysis.t.
Variable refineLLM : utf16 -> ChunkAnalysis.t -> ChunkAnalysis.t.
Variable resolveLLM : list Aggregated.t -> list Character.t.

Definition extractChunkParallel (chunk : TextChunk.t)
    (previousSummary : option string) : ChunkAnalysis.t :=
  let analysis :=
    extractLLM (if JS.truthy previousSummary then previousSummary else None)
      (TextChunk.content chunk) in
  refineLLM (TextChunk.content chunk) analysis.

(** [resolveEntities]: the characters returned, and the requests it sent to
    the generation capability. *)
Definition resolveEntities (rawDiscovered : list Mention.t)
    : list Character.t * list (list Aggregated.t) :=
  if length rawDiscovered =? 0 then ([], [])
  else
    let aggregatedInputs := aggregate rawDiscovered in
    (resolveLLM aggregatedInputs, [aggregatedInputs]).

Record RunResult := mkRunResult {
  analyses : list (option ChunkAnalysis.t);
  globalCharacters : list Character.t;
  progress : list Progress.t;
  resolutionRequests : list (list Aggregated.t)
}.

Definition mapTasks (chunksToAnalyze : list TextChunk.t)
    : list (Scheduler.Outcome (nat * ChunkAnalysis.t)) :=
  imap (fun i chunk => Scheduler.Resolved (i, extractChunkParallel chunk None))
    chunksToAnalyze.

(** The loop [for (const res of mapResultsRaw)]; reading [res.index] of a
    hole throws. *)
Definition collect (n : nat) (mapResultsRaw : list (option (nat * ChunkAnalysis.t)))
    : option (list (option ChunkAnalysis.t) * list Mention.t) :=
  foldl (fun acc res =>
           match acc, res with
           | Some (analyses, allDiscoveredRaw), Some (index, analysis) =>
               Some (<[index := Some analysis]> analyses,
                     allDiscoveredRaw
                       ++ ((fun c => Mention.mk (Mention.name c)
                                       (Mention.description c))
                             <$> ChunkAnalysis.discoveredCharacters analysis))
           | _, _ => None
           end)
    (Some (replicate n None, [])) mapResultsRaw.

(** [run]; [None] while the returned promise is pending under [schedule]. *)
Definition run (allChunks : list TextChunk.t) (limit : option nat)
    (concurrency : Z) (schedule : list nat)
    : option (Scheduler.Outcome RunResult) :=
  let chunksToAnalyze :=
    take (default (length allChunks) limit) allChunks in
  let n := length chunksToAnalyze in
  let tasks := mapTasks chunksToAnalyze in
  let st := Scheduler.drive tasks schedule (Scheduler.start tasks concurrency) in
  let progress1 :=
    Progress.mk "Parallel Mapping" 0 n
      :: taskProgress "Parallel Mapping" n (Scheduler.trace st) in
  match Scheduler.settlement st with
  | None => None
  | Some Scheduler.Rejected => Some Scheduler.Rejected
  | Some (Scheduler.Resolved mapResultsRaw) =>
      match collect n mapResultsRaw with
      | None => Some Scheduler.Rejected
      | Some (analyses, allDiscoveredRaw) =>
          let '(characters, requests) := resolveEntities allDiscoveredRaw in
          Some (Scheduler.Resolved
                  (mkRunResult analyses characters
                     (progress1 ++ [Progress.mk "Entity Resolution" 0 1;
                                    Progress.mk "Entity Resolution" 1 1])
                     requests))
      end
  end.

End NovelAnalyzer.
End PipelineAnalyzer.

(** [class NovelAnalyzer] of [src/analyzer.ts]. *)
Module ReaderAnalyzer.

(** What the extraction stage does, in order: the call of task [index] with
    the [previousSummary] argument it passes to [extractCharacterEvents], and
    the assignment [results[index] = analysis]. *)
Inductive BatchEvent :=
| Called (index : nat) (previousSummary : option string)
| Stored (index : nat).

(** [i > 0 ? results[i - 1]?.summary : undefined] *)
Definition previousSummaryAt (results : list (option Reader.ChunkAnalysis.t))
    (i : nat) : option string :=
  if 0 <? i then
    match results !! (i - 1) with
    | Some (Some analysis) => Some (Reader.ChunkAnalysis.summary analysis)
    | _ => None
    end
  else None.

(** [results[index] = analysis] on an array that starts empty: an index past
    the end extends the array, leaving holes. *)
Definition store (results : list (option Reader.ChunkAnalysis.t)) (index : nat)
    (analysis : Reader.ChunkAnalysis.t) : list (option Reader.ChunkAnalysis.t) :=
  if index <? length results then <[index := Some analysis]> results
  else results ++ replicate (index - length results) None ++ [Some analysis].

Section NovelAnalyzer.
Variable discoverLLM : utf16 -> list Mention.t.
Variable extractLLM :
  list string -> option string -> utf16 -> Reader.ChunkAnalysis.t.
Variable refineLLM : utf16 -> Reader.ChunkAnalysis.t -> Reader.ChunkAnalysis.t.

Definition extractCharacterEvents (chunk : TextChunk.t)
    (globalCharacters : list string) (previousSummary : option string)
    : Reader.ChunkAnalysis.t :=
  let initialAnalysis :=
    extractLLM globalCharacters
      (if JS.truthy previousSummary then previousSummary else None)
      (TextChunk.content chunk) in
  refineLLM (TextChunk.content chunk) initialAnalysis.

(** ** Discovery *)

Definition discoveryTasks (allChunks : list TextChunk.t)
    : list (Scheduler.Outcome (list Mention.t)) :=
  (fun chunk => Scheduler.Resolved (discoverLLM (TextChunk.content chunk)))
    <$> allChunks.

(** The two nested [for ... of] loops filling [uniqueNames]; iterating over a
    hole throws. *)
Definition uniqueNames (allDiscovered : list (option (list Mention.t)))
    : option (list string) :=
  foldl (fun acc list =>
           match acc, list with
           | Some names, Some chars =>
               Some (foldl (fun names char =>
                              PipelineAnalyzer.setAdd names (Mention.name char))
                       names chars)
           | _, _ => None
           end) (Some []) allDiscovered.

(** The discovery stage of [analyzeChunks]: the names found, [None] while
    pending, and the progress calls made so far. *)
Definition discoveryStage (allChunks : list TextChunk.t) (concurrency : Z)
    (schedule : list nat)
    : option (Scheduler.Outcome (list string)) * list Progress.t :=
  let n := length allChunks in
  let tasks := discoveryTasks allChunks in
  let st := Scheduler.drive tasks schedule (Scheduler.start tasks concurrency) in
  let progress :=
    Progress.mk "Discovery" 0 n
      :: taskProgress "Discovery" n (Scheduler.trace st) in
  match Scheduler.settlement st with
  | None => (None, progress)
  | Some Scheduler.Rejected => (Some Scheduler.Rejected, progress)
  | Some (Scheduler.Resolved allDiscovered) =>
      match uniqueNames allDiscovered with
      | None => (Some Scheduler.Rejected, progress)
      | Some names =>
          (Some (Scheduler.Resolved names),
           progress ++ [Progress.mk "Discovery" n n])
      end
  end.

(** ** Extraction in batches *)

(** [Promise.all(batch.map((t) => t()))] followed by the loop storing the
    batch results: every task of the batch is called, and reads
    [results[i - 1]], before any result of the batch is stored. *)
Definition runBatch (globalCharacters : list string)
    (results : list (option Reader.ChunkAnalysis.t))
    (batch : list (nat * TextChunk.t))
    : list (option Reader.ChunkAnalysis.t) * list BatchEvent :=
  let batchResults :=
    (fun '(i, chunk) =>
       (i, extractCharacterEvents chunk globalCharacters
             (previousSummaryAt results i))) <$> batch in
  (foldl (fun results '(index, analysis) => store results index analysis)
     results batchResults,
   ((fun '(i, _) => Called i (previousSummaryAt results i)) <$> batch)
     ++ ((fun '(i, _) => Stored i) <$> batchResults)).

(** [for (let i = 0; i < extractionTasks.length; i += concurrency)]; the fuel
    bounds the number of iterations. *)
Fixpoint batchLoop (fuel : nat) (globalCharacters : list string)
    (extractionTasks : list (nat * TextChunk.t)) (concurrency i : nat)
    (results : list (option Reader.ChunkAnalysis.t)) (log : list BatchEvent)
    : option (list (option Reader.ChunkAnalysis.t) * list BatchEvent) :=
  match fuel with
  | 0 => None
  | S fuel =>
      if i <? length extractionTasks then
        let batch := take concurrency (drop i extractionTasks) in
        let '(results', events) := runBatch globalCharacters results batch in
        batchLoop fuel globalCharacters extractionTasks concurrency
          (i + concurrency) results' (log ++ events)
      else Some (results, log)
  end.

(** The extraction stage of [analyzeChunks]. *)
Definition extractionStage (globalCharacters : list string)
    (allChunks : list TextChunk.t) (limit : option nat) (concurrency : nat)
    : option (list (option Reader.ChunkAnalysis.t) * list BatchEvent) :=
  let chunksToAnalyze := take (default (length allChunks) limit) allChunks in
  let extractionTasks := imap pair chunksToAnalyze in
  batchLoop (S (length extractionTasks)) globalCharacters extractionTasks
    concurrency 0 [] [].

End NovelAnalyzer.
End ReaderAnalyzer.

(* ===================================================================== *)
(** * The token chunker ([libs/chunker.ts]) *)
(* ===================================================================== *)

Module Chunker.

Definition LF : N := 10.
Definition CR : N := 13.

(** The code units [String.prototype.trim] strips: WhiteSpace and
    LineTerminator of ECMAScript. *)
Definition isWhiteSpace (u : N) : bool :=
  bool_decide (u ∈ [9; 10; 11; 12; 13; 32; 160; 5760; 8232; 8233; 8239; 8287;
                    12288; 65279]%N)
  || ((8192 <=? u) && (u <=? 8202))%N.

Fixpoint trimStart (s : utf16) : utf16 :=
  match s with
  | [] => []
  | u :: rest => if isWhiteSpace u then trimStart rest else s
  end.

(** [s.trim()] *)
Definition trim (s : utf16) : utf16 :=
  reverse (trimStart (reverse (trimStart s))).

(** [text.replace(/\r\n/g, "\n")] *)
Fixpoint replaceCRLF (s : utf16) : utf16 :=
  match s with
  | [] => []
  | u :: rest =>
      match rest with
      | v :: rest' =>
          if ((u =? CR) && (v =? LF))%N then LF :: replaceCRLF rest'
          else u :: replaceCRLF rest
      | [] => [u]
      end
  end.

(** [s.split(/\n\n+/)], scanning with the piece under construction [piece];
    [inBreak] holds while the line feeds of a matched break are consumed. *)
Fixpoint splitBlankLines (s : utf16) (piece : utf16) (inBreak : bool)
    : list utf16 :=
  match s with
  | [] => [piece]
  | u :: rest =>
      if inBreak && (u =? LF)%N then splitBlankLines rest piece true
      else
        match rest with
        | v :: rest' =>
            if ((u =? LF) && (v =? LF))%N
            then piece :: splitBlankLines rest' [] true
            else splitBlankLines rest (piece ++ [u]) false
        | [] => [piece ++ [u]]
        end
  end.

Definition splitParagraphs (s : utf16) : list utf16 :=
  splitBlankLines s [] false.

(** The class [。！？；] and the alternative [\n] of the sentence pattern. *)
Definition isSentenceEnd (u : N) : bool :=
  bool_decide (u ∈ [12290; 65281; 65311; 65307; 10]%N).

(** [para.split(/([。！？；]|\n)/g)]: the pieces with the captured
    delimiters between them. *)
Fixpoint splitSentences (s : utf16) (piece : utf16) : list utf16 :=
  match s with
  | [] => [piece]
  | u :: rest =>
      if isSentenceEnd u then piece :: [u] :: splitSentences rest []
      else splitSentences rest (piece ++ [u])
  end.

(** [tokens.slice(start)] *)
Definition sliceFrom {A} (start : Z) (l : list A) : list A :=
  let len := Z.of_nat (length l) in
  let k := if (start <? 0)%Z then Z.max (len + start) 0 else Z.min start len in
  drop (Z.to_nat k) l.

Section TokenChunker.
(** The [js-tiktoken] encoder of the constructor. *)
Variable encode : utf16 -> list nat.
Variable decode : list nat -> utf16.
Variable maxTokens : Z.
Variable overlapTokens : Z.

Definition countTokens (text : utf16) : nat := length (encode text).

Definition getOverlapText (text : utf16) : utf16 :=
  let tokens := encode text in
  if (Z.of_nat (length tokens) <=? overlapTokens)%Z then text
  else decode (sliceFrom (- overlapTokens) tokens).

(** The local variables of [chunk]. *)
Record State := mkState {
  chunks : list TextChunk.t;
  currentContent : utf16;
  currentTokens : nat;
  startChar : Z;
  charOffset : nat
}.

Definition pushChunk (st : State) : list TextChunk.t :=
  chunks st
    ++ [TextChunk.mk (length (chunks st)) (trim (currentContent st))
          (currentTokens st) (startChar st) (charOffset st)].

Definition flushChunk (st : State) : State :=
  match trim (currentContent st) with
  | [] => st
  | _ :: _ =>
      let overlap := getOverlapText (currentContent st) in
      mkState (pushChunk st) overlap (countTokens overlap)
        (Z.of_nat (charOffset st) - Z.of_nat (length overlap))
        (charOffset st)
  end.

(** [currentContent += s; currentTokens += tokens; charOffset += s.length] *)
Definition append (st : State) (s : utf16) (tokens : nat) : State :=
  mkState (chunks st) (currentContent st ++ s) (currentTokens st + tokens)
    (startChar st) (charOffset st + length s).

(** The body of the sentence loop for the unit [s]. *)
Definition sentenceStep (st : State) (s : utf16) : State :=
  let sTokens := countTokens s in
  let st1 :=
    if (maxTokens <? Z.of_nat (currentTokens st + sTokens))%Z
    then flushChunk st else st in
  append st1 s sTokens.

(** [for (let i = 0; i < sentences.length; i += 2)] with
    [s = sentences[i] + (sentences[i + 1] || "")]. *)
Fixpoint sentenceLoop (st : State) (sentences : list utf16) : State :=
  match sentences with
  | [] => st
  | [piece] => sentenceStep st piece
  | piece :: delimiter :: rest =>
      sentenceLoop (sentenceStep st (piece ++ delimiter)) rest
  end.

(** The body of [for (const para of paragraphs)]. *)
Definition paragraphStep (st : State) (para : utf16) : State :=
  let paraWithBreak := para ++ [LF; LF] in
  let paraTokens := countTokens paraWithBreak in
  let st1 :=
    if (maxTokens <? Z.of_nat (currentTokens st + paraTokens))%Z
       && (overlapTokens + 10 <? Z.of_nat (length (currentContent st)))%Z
    then flushChunk st else st in
  if (maxTokens <? Z.of_nat paraTokens)%Z then
    let st2 :=
      if countTokens (getOverlapText (currentContent st1)) + 10
           <? currentTokens st1
      then flushChunk st1 else st1 in
    let st3 := sentenceLoop st2 (splitSentences para []) in
    append st3 [LF; LF] (countTokens [LF; LF])
  else append st1 paraWithBreak paraTokens.

Definition chunk (text : utf16) : list TextChunk.t :=
  let normalizedText := replaceCRLF text in
  let paragraphs := splitParagraphs normalizedText in
  let st := foldl paragraphStep (mkState [] [] 0 0 0) paragraphs in
  match trim (currentContent st) with
  | [] => chunks st
  | _ :: _ =>
      if 20 <? length (currentContent st) then pushChunk st else chunks st
  end.

End TokenChunker.

(** Text given by its ASCII characters. *)
Definition ascii (s : string) : utf16 :=
  N_of_ascii <$> list_ascii_of_string s.

(** A stand-in encoder with one token per code unit. *)
Definition unitEncode (text : utf16) : list nat := N.to_nat <$> text.
Definition unitDecode (tokens : list nat) : utf16 := N.of_nat <$> tokens.

End Chunker.

(* ===================================================================== *)
(** * Consolidation of the merged plot graph *)
(* ===================================================================== *)

(** [NovelAnalyzer.consolidatePlotGraph] of [modules/analyzer.ts] and the
    code of [demo-interactive.ts] (step 5) that applies its result. *)
Module Consolidation.

(** An element of [eventMappings] ([PlotGraphConsolidationSchema]). *)
Module EventMapping.
Record t := mk {
  originalId : string;
  canonicalId : string;
  reason : option string
}.
End EventMapping.

Module PlotGraphConsolidation.
Record t := mk {
  globalSummary : string;
  eventMappings : list EventMapping.t
}.
End PlotGraphConsolidation.

(** [data.allEvents.map((e) => `[${e.id}] ${e.summary}`).join("\n")] *)
Definition eventContext (allEvents : list Event.t) : string :=
  JS.join (String "010" "")
    ((fun e => "[" +:+ Event.id e +:+ "] " +:+ Event.summary e) <$> allEvents).

(** The loop [eventIdMap.set(mapping.originalId, mapping.canonicalId)]. *)
Definition eventIdMapOf (eventMappings : list EventMapping.t)
    : gmap string string :=
  foldl (fun eventIdMap mapping =>
           <[EventMapping.originalId mapping :=
               EventMapping.canonicalId mapping]> eventIdMap)
    ∅ eventMappings.

Section Consolidate.
(** [llm.structured] with [PlotGraphConsolidationSchema], as a function of
    the event list interpolated into the prompt. *)
Variable consolidateLLM : string -> PlotGraphConsolidation.t.

Definition consolidatePlotGraph (fullSummary : string)
    (allEvents : list Event.t) (characters : list Character.t)
    : string * gmap string string :=
  let consolidation := consolidateLLM (eventContext allEvents) in
  (PlotGraphConsolidation.globalSummary consolidation,
   eventIdMapOf (PlotGraphConsolidation.eventMappings consolidation)).

(** [!canonical || canonical === e.id] *)
Definition keepsEvent (eventIdMap : gmap string string) (e : Event.t) : bool :=
  let canonical := eventIdMap !! Event.id e in
  negb (JS.truthy canonical) || bool_decide (canonical = Some (Event.id e)).

Definition deduplicatedEvents (eventIdMap : gmap string string)
    (allEvents : list Event.t) : list Event.t :=
  filter (fun e => keepsEvent eventIdMap e = true) allEvents.

(** [eventIdMap.get(id) || id] *)
Definition canonicalOf (eventIdMap : gmap string string) (id : string)
    : string :=
  match eventIdMap !! id with
  | Some canonical => if JS.truthy (Some canonical) then canonical else id
  | None => id
  end.

Definition refinedRelations (eventIdMap : gmap string string)
    (allRelations : list CausalRelation.t) : list CausalRelation.t :=
  (fun rel =>
     CausalRelation.with_ends rel
       (canonicalOf eventIdMap (CausalRelation.fromEventId rel))
       (canonicalOf eventIdMap (CausalRelation.toEventId rel)))
    <$> allRelations.

(** Step 5 of the interactive demo: merge, consolidate, apply. *)
Definition mergeAndConsolidate (analyses : list ChunkAnalysis.t)
    (globalCharacters : list Character.t) : Pipeline.Merged :=
  let rawMerged := Pipeline.mergeAnalyses analyses globalCharacters in
  let '(globalSummary, eventIdMap) :=
    consolidatePlotGraph (Pipeline.fullSummary rawMerged)
      (Pipeline.mAllEvents rawMerged)
      (snd <$> Pipeline.allCharacters rawMerged) in
  Pipeline.mkMerged globalSummary
    (deduplicatedEvents eventIdMap (Pipeline.mAllEvents rawMerged))
    (Pipeline.allCharacters rawMerged)
    (refinedRelations eventIdMap (Pipeline.allRelations rawMerged)).

End Consolidate.
End Consolidation.

(* ===================================================================== *)
(** * The first token chunker ([src/chunker.ts]) *)
(* ===================================================================== *)

(** The chunker the reader pipeline ([demo.ts]) uses. Normalisation,
    paragraph splitting and [getOverlapText] are the same text as in
    [libs/chunker.ts]. *)
Module LegacyChunker.
Import Chunker.

Section TokenChunker.
Variable encode : utf16 -> list nat.
Variable decode : list nat -> utf16.
Variable maxTokens : Z.
Variable overlapTokens : Z.

Record State := mkState {
  chunks : list TextChunk.t;
  currentContent : utf16;
  currentTokens : nat;
  startChar : Z;
  charOffset : nat
}.

(** The body of [for (const para of paragraphs)]. *)
Definition paragraphStep (st : State) (para : utf16) : State :=
  let paraWithBreak := para ++ [LF; LF] in
  let paraTokens := countTokens encode paraWithBreak in
  let st1 :=
    if (maxTokens <? Z.of_nat (currentTokens st + paraTokens))%Z
       && negb (length (currentContent st) =? 0)
    then
      let overlap :=
        getOverlapText encode decode overlapTokens (currentContent st) in
      mkState
        (chunks st
           ++ [TextChunk.mk (length (chunks st)) (trim (currentContent st))
                 (currentTokens st) (startChar st) (charOffset st)])
        (overlap ++ paraWithBreak)
        (countTokens encode (overlap ++ paraWithBreak))
        (Z.of_nat (charOffset st) - Z.of_nat (length overlap))
        (charOffset st)
    else
      mkState (chunks st) (currentContent st ++ paraWithBreak)
        (currentTokens st + paraTokens) (startChar st) (charOffset st) in
  mkState (chunks st1) (currentContent st1) (currentTokens st1) (startChar st1)
    (charOffset st1 + length paraWithBreak).

Definition chunk (text : utf16) : list TextChunk.t :=
  let normalizedText := replaceCRLF text in
  let paragraphs := splitParagraphs normalizedText in
  let st := foldl paragraphStep (mkState [] [] 0 0 0) paragraphs in
  match trim (currentContent st) with
  | [] => chunks st
  | _ :: _ =>
      chunks st
        ++ [TextChunk.mk (length (chunks st)) (trim (currentContent st))
              (currentTokens st) (startChar st) (charOffset st)]
  end.

End TokenChunker.
End LegacyChunker.

(* ===================================================================== *)
(** * The logger ([libs/logger.ts]) *)
(* ===================================================================== *)

Module Logger.

Inductive LogLevel := DEBUG | INFO | WARN | ERROR.

(** The numeric values of the enum. *)
Definition rank (level : LogLevel) : nat :=
  match level with DEBUG => 0 | INFO => 1 | WARN => 2 | ERROR => 3 end.

Inductive ConsoleCall :=
| console_error (text : string)
| console_warn (text : string)
| console_log (text : string).

(** What one call of [log] does: the text handed to [appendFileSync] (whose
    failure is ignored) and the console call, if any. *)
Record Effect := mkEffect {
  appended : string;
  printed : option ConsoleCall
}.

(** [formatMessage], with the time stamp [new Date().toISOString()] given. *)
Definition formatMessage (ts level message : string) : string :=
  "[" +:+ ts +:+ "] [" +:+ level +:+ "] " +:+ message +:+ String "010" "".

Definition log (currentLevel : LogLevel) (ts : string) (level : LogLevel)
    (levelName message : string) : Effect :=
  mkEffect (formatMessage ts levelName message)
    (if (rank level <? rank currentLevel)
        || (rank level =? rank DEBUG) then None
     else
       match level with
       | ERROR => Some (console_error ("[ERROR] " +:+ message))
       | WARN => Some (console_warn ("[WARN] " +:+ message))
       | _ => Some (console_log message)
       end).

Definition debug (currentLevel : LogLevel) (ts message : string) : Effect :=
  log currentLevel ts DEBUG "DEBUG" message.

Definition info (currentLevel : LogLevel) (ts message : string) : Effect :=
  log currentLevel ts INFO "INFO" message.

Definition warn (currentLevel : LogLevel) (ts message : string) : Effect :=
  log currentLevel ts WARN "WARN" message.

(** The second argument of [error] when it is given: an object with an
    optional [message] and [stack], and its rendering by [String]. *)
Module ErrorLike.
Record t := mk {
  message : option string;
  asString : string;
  stack : option string
}.
End ErrorLike.

(** [error]: the call of [log], and the text of the further, unguarded
    [appendFileSync] made when the error carries a stack. *)
Definition error (currentLevel : LogLevel) (ts message : string)
    (err : option ErrorLike.t) : Effect * option string :=
  let msg :=
    match err with
    | Some e =>
        message +:+ " | Error: "
          +:+ (if JS.truthy (ErrorLike.message e)
               then default "" (ErrorLike.message e)
               else ErrorLike.asString e)
    | None => message
    end in
  (log currentLevel ts ERROR "ERROR" msg,
   match err with
   | Some e =>
       if JS.truthy (ErrorLike.stack e)
       then Some ("[STACK] " +:+ default "" (ErrorLike.stack e)
                    +:+ String "010" "")
       else None
   | None => None
   end).

End Logger.

(* ===================================================================== *)
(** * The rewriter ([modules/rewriter.ts]) *)
(* ===================================================================== *)

Module Rewriter.

Module EpisodePlan.
Record t := mk {
  episodeNumber : Z;
  title : string;
  coreEvents : list string;
  synopsis : string;
  estimatedDuration : string;
  reasoning : string
}.
End EpisodePlan.

Module SeriesPlan.
Record t := mk {
  totalEpisodes : Z;
  overallArc : string;
  episodes : list EpisodePlan.t
}.
End SeriesPlan.

Module Setting.
Record t := mk { location : string; time : string; atmosphere : string }.
End Setting.

Module SceneWritingPlan.
Record t := mk {
  title : string;
  events : list string;
  setting : Setting.t;
  goal : string;
  characters : list string;
  keyPlotPoints : list string
}.
End SceneWritingPlan.

Module ScreenplayOutline.
Record t := mk {
  coreElements : string;
  structure : string;
  scenePlans : list SceneWritingPlan.t
}.
End ScreenplayOutline.

Module NovelAnalysisData.
Record t := mk {
  totalSummary : string;
  events : list Event.t;
  characters : list Character.t;
  relations : list CausalRelation.t
}.
End NovelAnalysisData.

Section NovelRewriter.
(** A scene is produced by the generation capability and only passed on. *)
Variable Scene : Type.

(** The continuity block of the scene prompt. *)
Inductive Continuity :=
| NoContext
| ActualScene (previousScene : Scene)
| IntendedPlan (previousPlan : SceneWritingPlan.t).

Variable seriesLLM : NovelAnalysisData.t -> SeriesPlan.t.
Variable outlineLLM : EpisodePlan.t -> list Event.t -> ScreenplayOutline.t.
Variable sceneLLM : option SceneWritingPlan.t -> Continuity -> Scene.

Record Episode := mkEpisode {
  number : Z;
  title : string;
  synopsis : string;
  scenes : list (option Scene)
}.

Definition planSeries (data : NovelAnalysisData.t) : SeriesPlan.t :=
  seriesLLM data.

(** [data.events.filter((e) => episodePlan.coreEvents.includes(e.id))] *)
Definition relevantEvents (episodePlan : EpisodePlan.t)
    (data : NovelAnalysisData.t) : list Event.t :=
  filter (fun e => Event.id e ∈ EpisodePlan.coreEvents episodePlan)
    (NovelAnalysisData.events data).

Definition generateEpisodeOutline (episodePlan : EpisodePlan.t)
    (data : NovelAnalysisData.t) : ScreenplayOutline.t :=
  outlineLLM episodePlan (relevantEvents episodePlan data).

Definition generateScene (sceneIndex : nat) (outline : ScreenplayOutline.t)
    (previousScene : option Scene)
    (previousPlan : option SceneWritingPlan.t) : Scene :=
  let plan := ScreenplayOutline.scenePlans outline !! sceneIndex in
  let continuityContext :=
    match previousScene, previousPlan with
    | Some scene, _ => ActualScene scene
    | None, Some prev => IntendedPlan prev
    | None, None => NoContext
    end in
  sceneLLM plan continuityContext.

(** The calls [fn(items[curIndex], curIndex)] made by the rewriter's own
    [runInParallel]: the same worker loop as the analyzers', over the items
    [outline.scenePlans] with the callback given by [run]. *)
Definition sceneTasks (outline : ScreenplayOutline.t)
    : list (Scheduler.Outcome Scene) :=
  imap (fun i _ =>
          let prevPlan :=
            if 0 <? i then ScreenplayOutline.scenePlans outline !! (i - 1)
            else None in
          Scheduler.Resolved (generateScene i outline None prevPlan))
    (ScreenplayOutline.scenePlans outline).

(** [options.concurrency || 5] *)
Definition concurrencyOf (option_concurrency : option Z) : Z :=
  match option_concurrency with
  | Some c => if (c =? 0)%Z then 5%Z else c
  | None => 5%Z
  end.

(** The loop [for (const plan of seriesPlan.episodes)]; the scenes of the
    k-th episode complete in the order given by the k-th schedule. [None]
    while some episode is still pending. *)
Fixpoint runEpisodes (data : NovelAnalysisData.t) (concurrency : Z)
    (plans : list EpisodePlan.t) (schedules : list (list nat))
    : option (list Episode) :=
  match plans with
  | [] => Some []
  | plan :: rest =>
      let outline := generateEpisodeOutline plan data in
      match Scheduler.runInParallel (sceneTasks outline) concurrency
              (hd [] schedules) with
      | Some (Scheduler.Resolved scenes) =>
          match runEpisodes data concurrency rest (tl schedules) with
          | Some episodes =>
              Some (mkEpisode (EpisodePlan.episodeNumber plan)
                      (EpisodePlan.title plan) (EpisodePlan.synopsis plan)
                      scenes :: episodes)
          | None => None
          end
      | _ => None
      end
  end.

Definition run (analysisData : NovelAnalysisData.t)
    (option_concurrency : option Z) (schedules : list (list nat))
    : option (list Episode) :=
  let concurrency := concurrencyOf option_concurrency in
  let seriesPlan := planSeries analysisData in
  runEpisodes analysisData concurrency (SeriesPlan.episodes seriesPlan)
    schedules.

End NovelRewriter.
End Rewriter.

(* ===================================================================== *)
(** * Properties *)
(* ===================================================================== *)

(* ===================================================================== *)
(** * Properties of the merge stage *)
(* ===================================================================== *)

(** The form of a global event id as the specification words it: the letter
    E followed by the 1-based counter in decimal, padded with zeros on the
    left to three digits. Written with digit arithmetic only, to be compared
    with what [globalId] computes. *)
Module IdSpec.

Definition digit (d : nat) : ascii := ascii_of_nat (48 + d).

(** The decimal numeral of [n], by repeated division by ten. *)
Fixpoint numeral (fuel n : nat) : string :=
  match fuel with
  | 0 => ""
  | S fuel =>
      (if n <? 10 then "" else numeral fuel (n / 10))
        +:+ String (digit (n mod 10)) ""
  end.

Definition decimal (n : nat) : string := numeral (S n) n.

Definition zeros (k : nat) : string :=
  string_of_list_ascii (replicate k "0"%char).

Definition zeroPadded (width n : nat) : string :=
  zeros (width - String.length (decimal n)) +:+ decimal n.

Definition eventId (n : nat) : string := "E" +:+ zeroPadded 3 n.

(** The three digits of an id below one thousand. *)
Definition threeDigitId (n : nat) : string :=
  String "E"
    (String (digit (n / 100))
       (String (digit (n / 10 mod 10)) (String (digit (n mod 10)) ""))).

(** The event [e] under the id [newId], every other field kept. *)
Definition renamed (e : Event.t) (newId : string) : Event.t :=
  Event.mk newId (Event.summary e) (Event.description e) (Event.chapter e)
    (Event.location e) (Event.time e) (Event.characters e)
    (Event.emotionalTone e).

End IdSpec.

Module MergeFacts.
Import MergeCore.

(** ** [String(n)] and [padStart] against the digit arithmetic *)

Definition consDigit (r : nat) (d : uint) : uint :=
  match r with
  | 0 => D0 d | 1 => D1 d | 2 => D2 d | 3 => D3 d | 4 => D4 d
  | 5 => D5 d | 6 => D6 d | 7 => D7 d | 8 => D8 d | _ => D9 d
  end.

Lemma to_lu_small r : r < 10 -> Unsigned.to_lu r = consDigit r Nil.
Proof.
  intros H. do 10 (destruct r as [|r]; [reflexivity|]). lia.
Qed.

Lemma succ_consDigit r d :
  r < 9 -> Little.succ (consDigit r d) = consDigit (S r) d.
Proof.
  intros H. do 9 (destruct r as [|r]; [reflexivity|]). lia.
Qed.

Lemma to_lu_digit q r :
  q <> 0 -> r < 10 ->
  Unsigned.to_lu (r + 10 * q) = consDigit r (Unsigned.to_lu q).
Proof.
  intros Hq. induction r as [|r IH]; intros Hr.
  - cbn [Nat.add]. by rewrite Unsigned.to_lu_tenfold.
  - change (S r + 10 * q) with (S (r + 10 * q)).
    rewrite Unsigned.to_lu_succ, IH by lia. apply succ_consDigit. lia.
Qed.

Lemma string_app_assoc (s1 s2 s3 : string) :
  (s1 +:+ s2) +:+ s3 = s1 +:+ (s2 +:+ s3).
Proof.
  induction s1 as [|a s1 IH]; [done|].
  change (String a ((s1 +:+ s2) +:+ s3) = String a (s1 +:+ (s2 +:+ s3))).
  by rewrite IH.
Qed.

Lemma string_of_revapp d d' :
  NilEmpty.string_of_uint (revapp d d')
  = NilEmpty.string_of_uint (revapp d Nil) +:+ NilEmpty.string_of_uint d'.
Proof.
  revert d'. induction d; intros d'; cbn [revapp]; [done|..];
    rewrite IHd; symmetry; rewrite IHd; cbn [NilEmpty.string_of_uint];
    rewrite string_app_assoc; reflexivity.
Qed.

Lemma string_of_consDigit r d :
  r < 10 ->
  NilEmpty.string_of_uint (Decimal.rev (consDigit r d))
  = NilEmpty.string_of_uint (Decimal.rev d) +:+ String (IdSpec.digit r) "".
Proof.
  intros H. unfold Decimal.rev.
  do 10 (destruct r as [|r];
         [cbn [consDigit revapp]; by rewrite string_of_revapp|]).
  lia.
Qed.

Lemma String_numeral fuel n :
  n < fuel -> JS.String_ n = IdSpec.numeral fuel n.
Proof.
  unfold JS.String_. revert n.
  induction fuel as [|fuel IH]; intros n Hn; [lia|].
  rewrite Unsigned.to_uint_alt. cbn [IdSpec.numeral].
  destruct (Nat.ltb_spec n 10) as [Hs|Hl].
  - rewrite Nat.mod_small by done. rewrite to_lu_small by done.
    by rewrite string_of_consDigit.
  - pose proof (Nat.div_mod_eq n 10) as Hdm.
    pose proof (Nat.mod_upper_bound n 10 ltac:(lia)) as Hr.
    assert (n / 10 <> 0) as Hq.
    { intros H0. rewrite H0 in Hdm. lia. }
    assert (n / 10 < fuel) as Hlt.
    { pose proof (Nat.div_lt n 10). lia. }
    replace (Unsigned.to_lu n)
      with (Unsigned.to_lu (n mod 10 + 10 * (n / 10))) by (f_equal; lia).
    rewrite to_lu_digit, string_of_consDigit by done.
    by rewrite <- Unsigned.to_uint_alt, IH.
Qed.

Lemma String_decimal n : JS.String_ n = IdSpec.decimal n.
Proof. apply String_numeral. lia. Qed.

Lemma padStart_zeros s :
  JS.padStart 3 "0" s = IdSpec.zeros (3 - String.length s) +:+ s.
Proof. by destruct s as [|a [|b [|c s]]]. Qed.

(** The id computed by the code is the id of the specification. *)
Lemma globalId_eventId n : globalId n = IdSpec.eventId n.
Proof.
  unfold globalId, IdSpec.eventId, IdSpec.zeroPadded.
  by rewrite padStart_zeros, String_decimal.
Qed.

Lemma eventId_threeDigits n :
  n < 1000 -> IdSpec.eventId n = IdSpec.threeDigitId n.
Proof.
  intros Hn.
  assert (forallb (fun k => String.eqb (IdSpec.eventId k)
                              (IdSpec.threeDigitId k))
            (seq 0 1000) = true) as Hall by (vm_compute; reflexivity).
  rewrite forallb_forall in Hall. apply String.eqb_eq, Hall.
  apply in_seq. lia.
Qed.

(** ** Global ids can be read back, hence are pairwise distinct *)

Definition readGlobalId (s : string) : option nat :=
    match s with
    | String _ digits => Nat.of_uint <$> NilEmpty.uint_of_string digits
    | EmptyString => None
    end.

Lemma of_uint_String_ n :
    Nat.of_uint <$> NilEmpty.uint_of_string (JS.String_ n) = Some n.
Proof.
    unfold JS.String_. rewrite NilEmpty.usu. simpl.
    f_equal. apply DecimalNat.Unsigned.of_to.
Qed.

Lemma of_uint_lead0 s :
    Nat.of_uint <$> NilEmpty.uint_of_string (String "0" s)
    = Nat.of_uint <$> NilEmpty.uint_of_string s.
Proof.
    cbn [NilEmpty.uint_of_string].
    destruct (NilEmpty.uint_of_string s) as [d|]; reflexivity.
Qed.

Lemma of_uint_padStart s :
    Nat.of_uint <$> NilEmpty.uint_of_string (JS.padStart 3 "0" s)
    = Nat.of_uint <$> NilEmpty.uint_of_string s.
Proof.
    destruct s as [|a [|b [|c s]]]; try reflexivity.
    - change (JS.padStart 3 "0" (String a "")) with (String "0" (String "0" (String a ""))).
      by rewrite !of_uint_lead0.
    - change (JS.padStart 3 "0" (String a (String b "")))
        with (String "0" (String a (String b ""))).
      by rewrite of_uint_lead0.
Qed.

Lemma readGlobalId_globalId n : readGlobalId (globalId n) = Some n.
Proof.
    change (readGlobalId (globalId n))
      with (Nat.of_uint <$>
              NilEmpty.uint_of_string (JS.padStart 3 "0" (JS.String_ n))).
    rewrite of_uint_padStart. apply of_uint_String_.
Qed.

Lemma globalId_inj n m : globalId n = globalId m -> n = m.
Proof.
    intros H. apply (f_equal readGlobalId) in H.
    rewrite !readGlobalId_globalId in H. congruence.
Qed.

Lemma globalId_nonempty n : (String.length (globalId n) =? 0) = false.
Proof. reflexivity. Qed.

Lemma NoDup_globalIds start len : NoDup (globalId <$> seq start len).
Proof.
    apply NoDup_fmap_2; [intros ?? H; by apply globalId_inj | apply NoDup_seq].
Qed.

(** ** The event loop of one chunk *)

Definition renumber (start : nat) (events : list Event.t) : list Event.t :=
    imap (fun k e => Event.with_id e (globalId (start + k))) events.

Lemma renumber_app start es1 es2 :
    renumber start (es1 ++ es2)
    = renumber start es1 ++ renumber (start + length es1) es2.
Proof.
    unfold renumber. rewrite imap_app. f_equal.
    apply imap_ext. intros k e _. simpl. do 2 f_equal. lia.
Qed.

Lemma renumber_ids start es :
    Event.id <$> renumber start es = globalId <$> seq start (length es).
Proof.
    revert start. induction es as [|e es IH]; intros start; [done|].
    change (e :: es) with ([e] ++ es). rewrite renumber_app.
    cbn [length app]. rewrite fmap_app, IH. cbn. rewrite Nat.add_0_r.
    by rewrite Nat.add_1_r.
Qed.

Lemma renumber_length start es : length (renumber start es) = length es.
Proof. unfold renumber. apply length_imap. Qed.

Lemma foldl_eventStep st es :
    eventCounter (foldl eventStep st es) = eventCounter st + length es /\
    allEvents (foldl eventStep st es)
      = allEvents st ++ renumber (eventCounter st) es.
Proof.
    revert st. induction es as [|e es IH]; intros st; cbn [foldl length].
    - split; [lia | by rewrite app_nil_r].
    - destruct (IH (eventStep st e)) as [-> ->].
      cbn [eventStep eventCounter allEvents]. split; [lia|].
      rewrite <- app_assoc. f_equal.
      change (e :: es) with ([e] ++ es). rewrite renumber_app.
      cbn [length]. rewrite Nat.add_1_r. f_equal.
      cbn. by rewrite Nat.add_0_r.
Qed.

(** Every value stored in the per-chunk map is the global id given to one
      of that chunk's events. *)
Lemma foldl_eventStep_map st es local global :
    chunkEventIdMap (foldl eventStep st es) !! local = Some global ->
    chunkEventIdMap st !! local = Some global \/
    exists k e, es !! k = Some e /\ Event.id e = local /\
                global = globalId (eventCounter st + k).
Proof.
    revert st. induction es as [|e es IH]; intros st H; cbn [foldl] in H.
    - by left.
    - apply IH in H as [H | (k & e' & Hk & Hid & ->)].
      + cbn in H. destruct (decide (Event.id e = local)) as [Heq|Hne].
        * rewrite Heq, lookup_insert_eq in H. right. exists 0, e.
          rewrite Nat.add_0_r. split; [done|]. split; [done|congruence].
        * rewrite lookup_insert_ne in H by done. by left.
      + right. exists (S k), e'. cbn. split; [done|]. split; [done|].
        f_equal. lia.
Qed.

Lemma eventLoop_spec counter out es :
    eventCounter (eventLoop counter out es) = counter + length es /\
    allEvents (eventLoop counter out es) = out ++ renumber counter es.
Proof. apply (foldl_eventStep (mkEventLoop counter ∅ out)). Qed.

Lemma eventLoop_map counter out es local global :
    chunkEventIdMap (eventLoop counter out es) !! local = Some global ->
    exists k e, es !! k = Some e /\ Event.id e = local /\
                global = globalId (counter + k).
Proof.
    intros H. apply foldl_eventStep_map in H as [H|H]; [|done].
    cbn in H. by rewrite lookup_empty in H.
Qed.

End MergeFacts.

Module MergeProps.
Import MergeCore MergeFacts.

(** ** The outer loop of both [mergeAnalyses] *)

Lemma pipeline_foldl_events st analyses :
    let input := concat (ChunkAnalysis.events <$> analyses) in
    let st' := foldl Pipeline.analysisStep st analyses in
    Pipeline.counter st' = Pipeline.counter st + length input /\
    Pipeline.events_acc st'
      = Pipeline.events_acc st ++ renumber (Pipeline.counter st) input.
Proof.
    revert st. induction analyses as [|a rest IH]; intros st; cbn zeta.
    - cbn. split; [lia | by rewrite app_nil_r].
    - cbn [foldl fmap list_fmap concat]. destruct (IH (Pipeline.analysisStep st a)) as [-> ->].
      cbn [Pipeline.analysisStep Pipeline.counter Pipeline.events_acc].
      destruct (eventLoop_spec (Pipeline.counter st) (Pipeline.events_acc st)
                  (ChunkAnalysis.events a)) as [-> ->].
      rewrite length_app, renumber_app, <- app_assoc. split; [lia | done].
Qed.

Lemma reader_foldl_events st analyses :
    let input := concat (Reader.ChunkAnalysis.events <$> analyses) in
    let st' := foldl Reader.analysisStep st analyses in
    Reader.counter st' = Reader.counter st + length input /\
    Reader.events_acc st'
      = Reader.events_acc st ++ renumber (Reader.counter st) input.
Proof.
    revert st. induction analyses as [|a rest IH]; intros st; cbn zeta.
    - cbn. split; [lia | by rewrite app_nil_r].
    - cbn [foldl fmap list_fmap concat]. destruct (IH (Reader.analysisStep st a)) as [-> ->].
      cbn [Reader.analysisStep Reader.counter Reader.events_acc].
      destruct (eventLoop_spec (Reader.counter st) (Reader.events_acc st)
                  (Reader.ChunkAnalysis.events a)) as [-> ->].
      rewrite length_app, renumber_app, <- app_assoc. split; [lia | done].
Qed.

Lemma pipeline_events analyses globalCharacters :
    Pipeline.mAllEvents (Pipeline.mergeAnalyses analyses globalCharacters)
    = renumber 1 (concat (ChunkAnalysis.events <$> analyses)).
Proof.
    cbn. unfold Pipeline.mergeLoop.
    by destruct (pipeline_foldl_events (Pipeline.mkMergeLoop 1 [] []) analyses)
      as [_ ->].
Qed.

Lemma reader_events analyses :
    Reader.mAllEvents (Reader.mergeAnalyses analyses)
    = renumber 1 (concat (Reader.ChunkAnalysis.events <$> analyses)).
Proof.
    cbn. unfold Reader.mergeLoop.
    by destruct (reader_foldl_events (Reader.mkMergeLoop 1 [] []) analyses)
      as [_ ->].
Qed.

Example globalId_format :
    globalId 1 = "E001" /\ globalId 2 = "E002" /\ globalId 37 = "E037" /\
    globalId 999 = "E999" /\ globalId 1000 = "E1000".
Proof. repeat split; reflexivity. Qed.

(** C2. Both [mergeAnalyses] number the events of all chunks, taken in
      chunk order, with one counter that starts at 1: the k-th input event
      (0-based) comes out k-th, unchanged but for its id, and its id is the
      letter E followed by k+1 in decimal, padded with zeros to three
      digits. So the output ids are exactly E001, E002, ..., one per input
      event, with no gap and no repetition; below one thousand an id is E
      and the three digits of its number. *)
Theorem merge_event_ids_gap_free
      (analyses : list ChunkAnalysis.t) (globalCharacters : list Character.t)
      (readerAnalyses : list Reader.ChunkAnalysis.t) :
    let input := concat (ChunkAnalysis.events <$> analyses) in
    let out := Pipeline.mAllEvents
                 (Pipeline.mergeAnalyses analyses globalCharacters) in
    let input' := concat (Reader.ChunkAnalysis.events <$> readerAnalyses) in
    let out' := Reader.mAllEvents (Reader.mergeAnalyses readerAnalyses) in
    (out = imap (fun k e => IdSpec.renamed e (IdSpec.eventId (1 + k))) input /\
     Event.id <$> out = IdSpec.eventId <$> seq 1 (length input) /\
     NoDup (Event.id <$> out) /\
     (forall k e, out !! k = Some e -> 1 + k < 1000 ->
        Event.id e = IdSpec.threeDigitId (1 + k))) /\
    (out' = imap (fun k e => IdSpec.renamed e (IdSpec.eventId (1 + k))) input' /\
     Event.id <$> out' = IdSpec.eventId <$> seq 1 (length input') /\
     NoDup (Event.id <$> out') /\
     (forall k e, out' !! k = Some e -> 1 + k < 1000 ->
        Event.id e = IdSpec.threeDigitId (1 + k))) /\
    (IdSpec.eventId 1 = "E001" /\ IdSpec.eventId 2 = "E002" /\
     IdSpec.eventId 37 = "E037" /\ IdSpec.eventId 999 = "E999" /\
     IdSpec.eventId 1000 = "E1000").
Proof.
    cbn zeta. rewrite pipeline_events, reader_events.
    assert (forall input,
              renumber 1 input
              = imap (fun k e => IdSpec.renamed e (IdSpec.eventId (1 + k)))
                  input) as Hren.
    { intros input. unfold renumber. apply imap_ext. intros k e _. cbn.
      by rewrite globalId_eventId. }
    assert (forall input,
              Event.id <$> renumber 1 input
              = IdSpec.eventId <$> seq 1 (length input)) as Hids.
    { intros input. rewrite renumber_ids. apply list_fmap_ext.
      intros _ n _. apply globalId_eventId. }
    assert (forall input k e,
              renumber 1 input !! k = Some e -> 1 + k < 1000 ->
              Event.id e = IdSpec.threeDigitId (1 + k)) as Hthree.
    { intros input k e Hk Hlt. rewrite <- eventId_threeDigits by done.
      apply (f_equal (fmap Event.id)) in Hk.
      rewrite <- list_lookup_fmap, Hids, list_lookup_fmap in Hk.
      destruct (seq 1 (length input) !! k) as [n|] eqn:Hn; [|done].
      apply lookup_seq in Hn as [-> _]. by injection Hk as <-. }
    split; [|split].
    - split; [apply Hren|]. split; [apply Hids|].
      split; [rewrite renumber_ids; apply NoDup_globalIds | apply Hthree].
    - split; [apply Hren|]. split; [apply Hids|].
      split; [rewrite renumber_ids; apply NoDup_globalIds | apply Hthree].
    - repeat split; reflexivity.
Qed.

Definition oneEvent (localId summary : string) : ChunkAnalysis.t :=
    ChunkAnalysis.mk "summary"
      [Event.mk localId summary "" "ch1" None None [] "calm"] [] [] [] [].

Lemma merge_event_ids_gap_free_witness :
    Event.id <$> Pipeline.mAllEvents
                   (Pipeline.mergeAnalyses
                      [oneEvent "E001" "a"; oneEvent "E001" "b";
                       oneEvent "E007" "c"] [])
    = ["E001"; "E002"; "E003"] /\
    forall k e,
      Pipeline.mAllEvents
        (Pipeline.mergeAnalyses
           [oneEvent "E001" "a"; oneEvent "E001" "b"; oneEvent "E007" "c"] [])
        !! k = Some e ->
      1 + k < 1000 -> Event.id e = IdSpec.threeDigitId (1 + k).
Proof.
    pose proof (merge_event_ids_gap_free
                  [oneEvent "E001" "a"; oneEvent "E001" "b";
                   oneEvent "E007" "c"] [] [])
      as ((_ & Hids & _ & Hthree) & _).
    split; [exact Hids | exact Hthree].
Defined.

(** ** Relations of the pipeline merge *)

Definition resolved (events : list Event.t) (r : CausalRelation.t) : Prop :=
    CausalRelation.fromEventId r ∈ (Event.id <$> events) /\
    CausalRelation.toEventId r ∈ (Event.id <$> events).

Lemma resolved_mono events more r :
    resolved events r -> resolved (events ++ more) r.
Proof.
    intros [Hf Ht]. split; rewrite fmap_app; apply elem_of_app; by left.
Qed.

Lemma eventLoop_map_resolved counter out es local global :
    chunkEventIdMap (eventLoop counter out es) !! local = Some global ->
    global ∈ (Event.id <$> allEvents (eventLoop counter out es)).
Proof.
    intros (k & e & Hk & _ & ->)%eventLoop_map.
    destruct (eventLoop_spec counter out es) as [_ ->].
    rewrite fmap_app, renumber_ids. apply elem_of_app. right.
    apply list_elem_of_fmap. exists (counter + k). split; [done|].
    apply elem_of_seq. apply lookup_lt_Some in Hk. lia.
Qed.

(** A relation with an endpoint missing from the chunk's own map is not
      pushed. *)
Lemma relationStep_drops idMap out r :
    idMap !! CausalRelation.fromEventId r = None \/
    idMap !! CausalRelation.toEventId r = None ->
    Pipeline.relationStep idMap out r = out.
Proof.
    unfold Pipeline.relationStep. intros [-> | ->]; cbn.
    - done.
    - by rewrite andb_false_r.
Qed.

Lemma relationStep_resolved idMap events out r :
    (forall l g, idMap !! l = Some g -> g ∈ (Event.id <$> events)) ->
    Forall (resolved events) out ->
    Forall (resolved events) (Pipeline.relationStep idMap out r).
Proof.
    intros Hmap Hout. unfold Pipeline.relationStep.
    destruct (idMap !! CausalRelation.fromEventId r) as [f|] eqn:Hf;
      destruct (idMap !! CausalRelation.toEventId r) as [g|] eqn:Hg;
      cbn; try done; try (by destruct (negb _)).
    destruct (negb _ && negb _); [|done].
    apply Forall_app. split; [done|]. apply Forall_singleton.
    split; cbn; eauto.
Qed.

Lemma pipeline_foldl_resolved st analyses :
    Forall (resolved (Pipeline.events_acc st)) (Pipeline.relations_acc st) ->
    let st' := foldl Pipeline.analysisStep st analyses in
    Forall (resolved (Pipeline.events_acc st')) (Pipeline.relations_acc st').
Proof.
    revert st. induction analyses as [|a rest IH]; intros st Hst; [done|].
    cbn [foldl]. apply IH. clear IH.
    cbn [Pipeline.analysisStep Pipeline.events_acc Pipeline.relations_acc].
    set (loop := eventLoop _ _ _).
    assert (Forall (resolved (allEvents loop)) (Pipeline.relations_acc st))
      as Hst'.
    { subst loop. destruct (eventLoop_spec (Pipeline.counter st)
        (Pipeline.events_acc st) (ChunkAnalysis.events a)) as [_ ->].
      eapply Forall_impl; [exact Hst|]. intros r. apply resolved_mono. }
    assert (forall l g, chunkEventIdMap loop !! l = Some g ->
              g ∈ (Event.id <$> allEvents loop)) as Hmap.
    { intros l g. apply eventLoop_map_resolved. }
    revert Hst'. generalize (Pipeline.relations_acc st).
    induction (ChunkAnalysis.causalRelations a) as [|r rs IHr];
      intros acc Hacc; [done|].
    cbn [foldl]. apply IHr. by apply relationStep_resolved.
Qed.

(** Every relation the pipeline merge emits has both endpoints among the
      ids of the emitted events; a relation with an endpoint outside its own
      chunk's map is dropped. *)
Theorem pipeline_relations_resolve
      (analyses : list ChunkAnalysis.t) (globalCharacters : list Character.t) :
    let m := Pipeline.mergeAnalyses analyses globalCharacters in
    Forall (resolved (Pipeline.mAllEvents m)) (Pipeline.allRelations m) /\
    (forall idMap out r,
        idMap !! CausalRelation.fromEventId r = None \/
        idMap !! CausalRelation.toEventId r = None ->
        Pipeline.relationStep idMap out r = out).
Proof.
    split; [|apply relationStep_drops].
    apply (pipeline_foldl_resolved (Pipeline.mkMergeLoop 1 [] [])).
    constructor.
Qed.

End MergeProps.

Module MergeScenarios.
Import MergeCore MergeFacts MergeProps.

(** A relation between events that both carry the local id [local]. *)
Definition within (local : string) (r : CausalRelation.t) : Prop :=
    CausalRelation.fromEventId r = local /\ CausalRelation.toEventId r = local.

#[local] Instance within_dec local r : Decision (within local r).
Proof. unfold within. apply _. Defined.

Lemma relationStep_singleton local global out r :
    (String.length global =? 0) = false ->
    Pipeline.relationStep {[local := global]} out r
    = out ++ (if decide (within local r)
              then [CausalRelation.with_ends r global global] else []).
Proof.
    intros Hne. unfold Pipeline.relationStep.
    destruct (decide (within local r)) as [[Hf Ht]|Hn].
    - rewrite Hf, Ht, lookup_singleton_eq. cbn. by rewrite Hne.
    - rewrite app_nil_r.
      destruct (decide (local = CausalRelation.fromEventId r)) as [Hf|Hf];
        [destruct (decide (local = CausalRelation.toEventId r)) as [Ht|Ht]|].
      + destruct Hn. by split.
      + rewrite (lookup_singleton_ne local (CausalRelation.toEventId r))
          by done.
        cbn. by rewrite andb_false_r.
      + by rewrite (lookup_singleton_ne local (CausalRelation.fromEventId r))
          by done.
Qed.

Lemma foldl_relationStep_singleton local global out rs :
    (String.length global =? 0) = false ->
    foldl (Pipeline.relationStep {[local := global]}) out rs
    = out ++ ((fun r => CausalRelation.with_ends r global global)
                <$> filter (within local) rs).
Proof.
    intros Hne. revert out. induction rs as [|r rs IH]; intros out.
    - by rewrite app_nil_r.
    - cbn [foldl]. rewrite IH, relationStep_singleton by done.
      rewrite filter_cons. destruct (decide (within local r)).
      + by rewrite <- app_assoc.
      + by rewrite app_nil_r.
Qed.

Definition sampleEvent (localId summary : string) : Event.t :=
    Event.mk localId summary "" "ch1" None None [] "calm".

Definition sampleChunk (events : list Event.t)
      (relations : list CausalRelation.t) : ChunkAnalysis.t :=
    ChunkAnalysis.mk "summary" events relations [] [] [].

(** ** The reader's merge leaves relations on local ids *)

Definition readerChunk (events : list Event.t)
      (relations : list CausalRelation.t) : Reader.ChunkAnalysis.t :=
    Reader.ChunkAnalysis.mk "summary" events [] relations [].

(** C4 on [src/analyzer.ts]: one chunk with the event "E001" and a relation
      E001 -> E002 whose target the chunk never produced. The reader's merge
      emits the relation unchanged, so the output graph has an endpoint
      ("E002") that is the id of no output event; the pipeline's merge drops
      the same relation. *)
Theorem reader_merge_keeps_dangling_relation :
    let r := CausalRelation.mk "E001" "E002" "strong" "causes" in
    let e := sampleEvent "E001" "arrival" in
    let m := Reader.mergeAnalyses [readerChunk [e] [r]] in
    Event.id <$> Reader.mAllEvents m = ["E001"] /\
    Reader.allRelations m = [r] /\
    ~ Forall (resolved (Reader.mAllEvents m)) (Reader.allRelations m) /\
    Pipeline.allRelations (Pipeline.mergeAnalyses [sampleChunk [e] [r]] [])
      = [].
Proof.
    cbn zeta. split; [reflexivity|]. split; [reflexivity|]. split.
    - intros H. apply Forall_inv in H as [_ Hto].
      cbn in Hto. apply list_elem_of_singleton in Hto. discriminate.
    - reflexivity.
Qed.

End MergeScenarios.

(** ** Runs in which every task resolves *)

Module SchedulerFacts.
Import Scheduler.

Lemma inflightOf_app ws1 ws2 :
  inflightOf (ws1 ++ ws2) = inflightOf ws1 ++ inflightOf ws2.
Proof. apply omap_app. Qed.

Lemma awaitingOf_app ws1 ws2 :
  awaitingOf (ws1 ++ ws2) = awaitingOf ws1 ++ awaitingOf ws2.
Proof. apply omap_app. Qed.

Lemma settledOf_app t1 t2 : settledOf (t1 ++ t2) = settledOf t1 ++ settledOf t2.
Proof. apply omap_app. Qed.

Lemma invokedOf_app t1 t2 : invokedOf (t1 ++ t2) = invokedOf t1 ++ invokedOf t2.
Proof. apply omap_app. Qed.

Lemma inflightOf_cons w ws :
  inflightOf (w :: ws)
  = match w with Awaiting i | Resuming i => [i] | _ => [] end ++ inflightOf ws.
Proof. by destruct w. Qed.

Lemma awaitingOf_cons w ws :
  awaitingOf (w :: ws)
  = match w with Awaiting i => [i] | _ => [] end ++ awaitingOf ws.
Proof. by destruct w. Qed.

Lemma settledOf_one e :
  settledOf [e] = match e with Settled i => [i] | _ => [] end.
Proof. by destruct e. Qed.

Lemma invokedOf_one e :
  invokedOf [e] = match e with Invoked i => [i] | _ => [] end.
Proof. by destruct e. Qed.

Lemma awaiting_inflight ws i : i ∈ awaitingOf ws -> i ∈ inflightOf ws.
Proof.
  unfold awaitingOf, inflightOf. rewrite !list_elem_of_omap.
  intros (w & Hw & Hi). exists w. split; [done|]. by destruct w.
Qed.

(** A worker list seen around position [w]. *)
Lemma split_at {A} (l : list A) w x :
  l !! w = Some x ->
  exists l1 l2, l = l1 ++ x :: l2 /\ length l1 = w /\
                forall y, <[w := y]> l = l1 ++ y :: l2.
Proof.
  intros H. exists (take w l), (drop (S w) l).
  pose proof (lookup_lt_Some _ _ _ H) as Hlt.
  split; [by rewrite take_drop_middle|].
  split; [rewrite length_take; lia|].
  intros y. apply insert_take_drop. done.
Qed.

Definition weight (w : Worker) : nat :=
  match w with Awaiting _ => 2 | Resuming _ => 1 | _ => 0 end.

Lemma sum_weight_app ws1 ws2 :
  sum_list_with weight (ws1 ++ ws2)
  = sum_list_with weight ws1 + sum_list_with weight ws2.
Proof. apply sum_list_with_app. Qed.

Lemma weight_zero_all ws :
  sum_list_with weight ws = 0 -> Forall (fun w => runnable w = false) ws.
Proof.
  induction ws as [|w ws IH]; cbn; [constructor|].
  intros H. constructor; [destruct w; cbn in *; done || lia | apply IH; lia].
Qed.

Section AllResolve.
Context {T : Type}.
Variable values : list T.

Definition tasksOf : list (Outcome T) := Resolved <$> values.

Local Abbreviation tasks := tasksOf.
Local Abbreviation N := (length values).

Lemma tasks_length : length tasks = N.
Proof. apply length_fmap. Qed.

Lemma tasks_lookup i : i < N -> exists v, values !! i = Some v /\
                                         tasks !! i = Some (Resolved v).
Proof.
  intros Hi. destruct (lookup_lt_is_Some_2 values i Hi) as [v Hv].
  exists v. split; [done|]. unfold tasksOf. by rewrite list_lookup_fmap, Hv.
Qed.

(** Turns still to be taken: two per task not yet invoked, two for an
    awaited task, one for a queued continuation. *)
Definition turnsLeft (st : State (T:=T)) : nat :=
  2 * (N - currentIndex st) + sum_list_with weight (workers st).

Record Inv (st : State (T:=T)) : Prop := mkInv {
  inv_bound : currentIndex st <= N;
  inv_len : length (results st) = N;
  inv_invoked : invokedOf (trace st) = seq 0 (currentIndex st);
  inv_nodup : NoDup (inflightOf (workers st));
  inv_lt : forall i, i ∈ inflightOf (workers st) -> i < currentIndex st;
  inv_results : forall i, i < currentIndex st ->
      i ∉ inflightOf (workers st) -> results st !! i = Some (values !! i);
  inv_settled_nodup : NoDup (settledOf (trace st));
  inv_settled : forall i, i ∈ settledOf (trace st) <->
      i < currentIndex st /\ i ∉ awaitingOf (workers st);
  inv_returned : Returned ∈ workers st -> currentIndex st = N;
  inv_no_throw : Thrown ∉ workers st
}.

(** The three shapes of a turn. *)
Inductive Turn (st st' : State (T:=T)) : Prop :=
| turn_settle l1 l2 i :
    workers st = l1 ++ Awaiting i :: l2 ->
    st' = mkState (currentIndex st) (results st) (l1 ++ Resuming i :: l2)
            (trace st ++ [Settled i]) ->
    Turn st st'
| turn_next l1 l2 i v :
    workers st = l1 ++ Resuming i :: l2 ->
    values !! i = Some v ->
    currentIndex st < N ->
    st' = mkState (S (currentIndex st)) (<[i := Some v]> (results st))
            (l1 ++ Awaiting (currentIndex st) :: l2)
            (trace st ++ [Invoked (currentIndex st)]) ->
    Turn st st'
| turn_return l1 l2 i v :
    workers st = l1 ++ Resuming i :: l2 ->
    values !! i = Some v ->
    N <= currentIndex st ->
    st' = mkState (currentIndex st) (<[i := Some v]> (results st))
            (l1 ++ Returned :: l2) (trace st) ->
    Turn st st'.

Lemma step_turn st st' : Inv st -> step tasks st st' -> Turn st st'.
Proof.
  intros HI (w & Hrun & ->). unfold canRun in Hrun. unfold advance.
  destruct (workers st !! w) as [wk|] eqn:Hw; [|done].
  destruct (split_at _ _ _ Hw) as (l1 & l2 & Hws & _ & Hins).
  destruct wk as [i|i| |]; try done.
  - eapply turn_settle; [done|]. by rewrite Hins.
  - assert (i < N) as Hi.
    { pose proof (inv_bound _ HI). pose proof (inv_lt _ HI i) as Hlt.
      rewrite Hws, inflightOf_app in Hlt. cbn in Hlt.
      assert (i < currentIndex st); [|lia].
      apply Hlt. apply elem_of_app. right. left. }
    destruct (tasks_lookup i Hi) as (v & Hv & ->).
    unfold enterLoop. cbn [currentIndex results workers trace].
    rewrite tasks_length.
    destruct (currentIndex st <? N) eqn:Hc.
    + apply Nat.ltb_lt in Hc. cbn [currentIndex results workers trace].
      eapply turn_next; [done..|]. by rewrite Hins.
    + apply Nat.ltb_ge in Hc. cbn [currentIndex results workers trace].
      eapply turn_return; [done..|]. by rewrite Hins.
Qed.

Ltac list_facts :=
  repeat match goal with
  | H : _ ∈ _ ++ _ |- _ => apply elem_of_app in H as [H|H]
  | H : _ ∈ _ :: _ |- _ => apply elem_of_cons in H as [H|H]
  | H : _ ∈ [] |- _ => by apply elem_of_nil in H
  end.

Lemma turn_inv st st' : Inv st -> Turn st st' -> Inv st'.
Proof.
  intros [Hb Hl Hinv Hnd Hlt Hres Hsnd Hset Hret Hthr] Hturn.
  destruct Hturn as [l1 l2 i Hws ->|l1 l2 i v Hws Hv Hc ->|l1 l2 i v Hws Hv Hc ->];
    rewrite Hws in *;
    rewrite ?inflightOf_app, ?awaitingOf_app, ?inflightOf_cons,
      ?awaitingOf_cons in *;
    cbn [app] in *.
  - (* the promise of task i settles *)
    assert (i ∉ awaitingOf l1 ++ awaitingOf l2) as Hfresh.
    { apply NoDup_app in Hnd as (_ & Hd1 & Hd2). apply NoDup_cons in Hd2 as [Hd2 _].
      intros [H|H]%elem_of_app.
      - apply awaiting_inflight in H. eapply Hd1; [done|]. left.
      - by apply awaiting_inflight in H. }
    assert (i < currentIndex st) as Hi.
    { apply Hlt. apply elem_of_app. right. left. }
    constructor; cbn [currentIndex results workers trace];
      rewrite ?inflightOf_app, ?awaitingOf_app, ?settledOf_app, ?invokedOf_app,
        ?inflightOf_cons, ?awaitingOf_cons, ?settledOf_one, ?invokedOf_one;
      cbn [app]; rewrite ?app_nil_r; try done.
    + apply NoDup_app. split; [done|]. split; [|apply NoDup_singleton].
      intros j Hj ->%list_elem_of_singleton. apply Hset in Hj as [_ Hj].
      apply Hj. apply elem_of_app. right. left.
    + intros j. rewrite elem_of_app, list_elem_of_singleton, Hset.
      rewrite !elem_of_app, elem_of_cons. split.
      * intros [[? Hj]| ->]; [|by rewrite <- elem_of_app]. split; [done|].
        intros [?|?]; apply Hj; [by left | by right; right].
      * intros [? Hj]. destruct (decide (j = i)) as [->|?]; [by right|].
        left. split; [done|]. intros [?|[?|?]]; [|done|]; apply Hj; tauto.
    + rewrite elem_of_app, elem_of_cons. intros [?|[?|?]]; [|done|];
        apply Hret; rewrite elem_of_app, elem_of_cons; tauto.
    + rewrite elem_of_app, elem_of_cons. intros [?|[?|?]]; [|done|];
        apply Hthr; rewrite elem_of_app, elem_of_cons; tauto.
  - (* the worker stores the result of task i and invokes the next task *)
    apply NoDup_app in Hnd as (Hd1 & Hd12 & Hd2).
    apply NoDup_cons in Hd2 as [Hi2 Hd2].
    assert (i < currentIndex st) as Hi.
    { apply Hlt. apply elem_of_app. right. left. }
    constructor; cbn [currentIndex results workers trace];
      rewrite ?inflightOf_app, ?awaitingOf_app, ?settledOf_app, ?invokedOf_app,
        ?inflightOf_cons, ?awaitingOf_cons, ?settledOf_one, ?invokedOf_one;
      cbn [app]; rewrite ?app_nil_r; try done.
    + by rewrite length_insert.
    + by rewrite Hinv, seq_S.
    + apply NoDup_app. split; [done|]. split.
      * intros j Hj1 [->|Hj2]%elem_of_cons.
        -- assert (currentIndex st < currentIndex st); [|lia].
           apply Hlt. apply elem_of_app. by left.
        -- eapply Hd12; [done|]. by right.
      * apply NoDup_cons. split; [|done]. intros Hc2.
        assert (currentIndex st < currentIndex st); [|lia].
        apply Hlt. apply elem_of_app. right. by right.
    + intros j Hj.
      list_facts; subst; try lia; (assert (j < currentIndex st); [|lia]);
        apply Hlt; rewrite elem_of_app, elem_of_cons; tauto.
    + intros j Hj Hnot. rewrite elem_of_app, elem_of_cons in Hnot.
      destruct (decide (j = i)) as [->|Hne].
      * rewrite list_lookup_insert_eq by lia. by rewrite Hv.
      * rewrite list_lookup_insert_ne by done. apply Hres.
        -- destruct (decide (j = currentIndex st)); [tauto | lia].
        -- rewrite elem_of_app, elem_of_cons. tauto.
    + intros j. rewrite Hset, !elem_of_app, elem_of_cons. split.
      * intros [? Hj]. split; [lia|]. intros [?|[->|?]]; [|lia|]; apply Hj; tauto.
      * intros [? Hj]. split; [|tauto].
        destruct (decide (j = currentIndex st)); [tauto | lia].
    + rewrite elem_of_app, elem_of_cons. intros [?|[?|?]]; [|done|];
        (assert (currentIndex st = N); [|lia]);
        apply Hret; rewrite elem_of_app, elem_of_cons; tauto.
    + rewrite elem_of_app, elem_of_cons. intros [?|[?|?]]; [|done|];
        apply Hthr; rewrite elem_of_app, elem_of_cons; tauto.
  - (* the worker stores the result of task i and leaves the loop *)
    apply NoDup_app in Hnd as (Hd1 & Hd12 & Hd2).
    apply NoDup_cons in Hd2 as [Hi2 Hd2].
    assert (i < currentIndex st) as Hi.
    { apply Hlt. apply elem_of_app. right. left. }
    constructor; cbn [currentIndex results workers trace];
      rewrite ?inflightOf_app, ?awaitingOf_app, ?settledOf_app, ?invokedOf_app,
        ?inflightOf_cons, ?awaitingOf_cons, ?settledOf_one, ?invokedOf_one;
      cbn [app]; rewrite ?app_nil_r; try done.
    + by rewrite length_insert.
    + apply NoDup_app. split; [done|]. split; [|done].
      intros j Hj1 Hj2. eapply Hd12; [done|]. by right.
    + intros j Hj. apply Hlt. rewrite elem_of_app, elem_of_cons.
      list_facts; tauto.
    + intros j Hj Hnot. rewrite elem_of_app in Hnot.
      destruct (decide (j = i)) as [->|Hne].
      * rewrite list_lookup_insert_eq by lia. by rewrite Hv.
      * rewrite list_lookup_insert_ne by done. apply Hres; [done|].
        rewrite elem_of_app, elem_of_cons. tauto.
    + intros _. lia.
    + rewrite elem_of_app, elem_of_cons. intros [?|[?|?]]; [|done|];
        apply Hthr; rewrite elem_of_app, elem_of_cons; tauto.
Qed.

Lemma turn_turnsLeft st st' :
  Inv st -> Turn st st' -> S (turnsLeft st') = turnsLeft st.
Proof.
  intros HI Hturn. pose proof (inv_bound _ HI). unfold turnsLeft.
  destruct Hturn as [l1 l2 i Hws ->|l1 l2 i v Hws Hv Hc ->|l1 l2 i v Hws Hv Hc ->];
    rewrite Hws; cbn [currentIndex workers]; rewrite !sum_weight_app;
    cbn [sum_list_with weight]; lia.
Qed.

(** The state in which [Array.from] has made [k <= N] workers. *)
Definition spawned (k : nat) : State (T:=T) :=
  mkState k (replicate N None) (Awaiting <$> seq 0 k) (Invoked <$> seq 0 k).

Lemma iter_spawn k :
  k <= N ->
  Nat.iter k (spawn tasks) (mkState 0 (replicate N None) [] []) = spawned k.
Proof.
  induction k as [|k IH]; intros Hk; [done|].
  rewrite Nat.iter_succ, IH by lia.
  unfold spawn, enterLoop, spawned. cbn [currentIndex results workers trace].
  rewrite tasks_length. destruct (Nat.ltb_spec k N) as [_|?]; [|lia].
  cbn [currentIndex results workers trace]. by rewrite !seq_S, !fmap_app.
Qed.

Lemma start_spawned concurrency :
  (1 <= concurrency)%Z ->
  start tasks concurrency = spawned (poolSize tasks concurrency) /\
  poolSize tasks concurrency <= N /\
  (poolSize tasks concurrency = 0 -> N = 0).
Proof.
  intros Hc. unfold start. rewrite tasks_length.
  assert (poolSize tasks concurrency <= N) as Hle.
  { unfold poolSize. rewrite tasks_length. lia. }
  split; [by apply iter_spawn|]. split; [done|].
  unfold poolSize. rewrite tasks_length. lia.
Qed.

Lemma inflightOf_awaiting l : inflightOf (Awaiting <$> l) = l.
Proof. induction l as [|i l IH]; [done|]. cbn. by rewrite <- IH at 2. Qed.

Lemma awaitingOf_awaiting l : awaitingOf (Awaiting <$> l) = l.
Proof. induction l as [|i l IH]; [done|]. cbn. by rewrite <- IH at 2. Qed.

Lemma invokedOf_invoked l : invokedOf (Invoked <$> l) = l.
Proof. induction l as [|i l IH]; [done|]. cbn. by rewrite <- IH at 2. Qed.

Lemma settledOf_invoked l : settledOf (Invoked <$> l) = [].
Proof. induction l as [|i l IH]; [done|]. cbn. exact IH. Qed.

Lemma spawned_inv k : k <= N -> Inv (spawned k).
Proof.
  intros Hk. constructor; cbn [spawned currentIndex results workers trace];
    rewrite ?inflightOf_awaiting, ?awaitingOf_awaiting, ?invokedOf_invoked,
      ?settledOf_invoked.
  - done.
  - apply length_replicate.
  - done.
  - apply NoDup_seq.
  - intros i Hi%elem_of_seq. lia.
  - intros i Hi Hnot. destruct Hnot. apply elem_of_seq. lia.
  - constructor.
  - intros i. rewrite elem_of_seq. split; [by intros ?%elem_of_nil | lia].
  - intros (i & ? & _)%list_elem_of_fmap. done.
  - intros (i & ? & _)%list_elem_of_fmap. done.
Qed.

Lemma spawned_turnsLeft k : k <= N -> turnsLeft (spawned k) = 2 * N.
Proof.
  intros Hk. unfold turnsLeft. cbn [spawned currentIndex workers].
  assert (forall s, sum_list_with weight (Awaiting <$> seq s k) = k + k) as ->;
    [|lia].
  clear Hk. induction k as [|k IH]; intros s; [done|].
  cbn. rewrite IH; lia.
Qed.

(** A pool is never empty unless there is nothing to do. *)
Definition Staffed (st : State (T:=T)) : Prop := workers st = [] -> N = 0.

Lemma turn_staffed st st' : Turn st st' -> Staffed st'.
Proof.
  intros [l1 l2 i Hws ->|l1 l2 i v Hws Hv Hc ->|l1 l2 i v Hws Hv Hc ->];
    intros H; cbn in H; by destruct l1.
Qed.

Lemma runnable_exists ws :
  0 < sum_list_with weight ws ->
  exists w wk, ws !! w = Some wk /\ runnable wk = true.
Proof.
  induction ws as [|wk ws IH]; cbn; [lia|]. intros H.
  destruct (runnable wk) eqn:Hr.
  - by exists 0, wk.
  - destruct IH as (w & wk' & ? & ?); [destruct wk; cbn in *; done || lia|].
    by exists (S w), wk'.
Qed.

Lemma idle_all_returned st :
  Inv st -> sum_list_with weight (workers st) = 0 ->
  Forall (fun w => w = Returned) (workers st).
Proof.
  intros HI H0. pose proof (inv_no_throw _ HI) as Hthr.
  apply weight_zero_all in H0. revert Hthr H0.
  induction (workers st) as [|w ws IH]; [constructor|].
  rewrite not_elem_of_cons. intros [? ?] [Hw Hws]%Forall_cons.
  constructor; [by destruct w | by apply IH].
Qed.

Lemma idle_done st :
  Inv st -> Staffed st -> sum_list_with weight (workers st) = 0 ->
  currentIndex st = N.
Proof.
  intros HI Hst H0. pose proof (idle_all_returned _ HI H0) as Hall.
  destruct (workers st) as [|w ws] eqn:Hws.
  - pose proof (inv_bound _ HI). pose proof (Hst Hws). lia.
  - apply (inv_returned _ HI). rewrite Hws.
    apply Forall_cons in Hall as [-> _]. left.
Qed.

Lemma progress st :
  Inv st -> Staffed st -> 0 < turnsLeft st ->
  settlement st = None /\ exists w, canRun st w = true.
Proof.
  intros HI Hst Hpos.
  destruct (decide (sum_list_with weight (workers st) = 0)) as [H0|Hn0].
  - pose proof (idle_done _ HI Hst H0). unfold turnsLeft in Hpos. lia.
  - destruct (runnable_exists (workers st)) as (w & wk & Hw & Hr); [lia|].
    split.
    + unfold settlement. rewrite bool_decide_eq_false_2
        by apply (inv_no_throw _ HI).
      destruct (forallb _ _) eqn:Hall; [|done].
      rewrite forallb_forall in Hall.
      apply list_elem_of_lookup_2, list_elem_of_In, Hall in Hw.
      apply bool_decide_eq_true in Hw. by subst.
    + exists w. unfold canRun. by rewrite Hw.
Qed.

Lemma finished st :
  Inv st -> turnsLeft st = 0 ->
  settlement st = Some (Resolved (Some <$> values)) /\
  invokedOf (trace st) = seq 0 N /\
  settledOf (trace st) ≡ₚ seq 0 N /\
  forall st', ~ step tasks st st'.
Proof.
  intros HI H0. pose proof (inv_bound _ HI) as Hb. unfold turnsLeft in H0.
  assert (currentIndex st = N) as Hcur by lia.
  assert (Forall (fun w => w = Returned) (workers st)) as Hall.
  { apply idle_all_returned; [done|lia]. }
  assert (inflightOf (workers st) = [] /\ awaitingOf (workers st) = [])
    as [Hin Haw].
  { clear -Hall. induction Hall as [|w ws -> _ [IH1 IH2]]; [done|].
    by rewrite inflightOf_cons, awaitingOf_cons, IH1, IH2. }
  repeat split.
  - unfold settlement.
    rewrite bool_decide_eq_false_2 by apply (inv_no_throw _ HI).
    assert (forallb (fun w => bool_decide (w = Returned)) (workers st) = true)
      as ->.
    { apply forallb_forall. intros w Hw%list_elem_of_In.
      apply bool_decide_eq_true. by eapply Forall_forall in Hall. }
    do 2 f_equal. apply list_eq. intros i. rewrite list_lookup_fmap.
    destruct (decide (i < N)) as [Hi|Hi].
    + rewrite (inv_results _ HI); [|lia|rewrite Hin; apply not_elem_of_nil].
      by destruct (tasks_lookup i Hi) as (v & -> & _).
    + rewrite !lookup_ge_None_2; [done| lia |].
      rewrite (inv_len _ HI). lia.
  - by rewrite (inv_invoked _ HI), Hcur.
  - apply NoDup_Permutation; [apply (inv_settled_nodup _ HI) | apply NoDup_seq|].
    intros i. rewrite (inv_settled _ HI), Haw, elem_of_seq, Hcur.
    split; [lia|]. intros ?. split; [lia | apply not_elem_of_nil].
  - intros st' (w & Hrun & _). unfold canRun in Hrun.
    destruct (workers st !! w) as [wk|] eqn:Hw; [|done].
    apply list_elem_of_lookup_2 in Hw.
    eapply Forall_forall in Hall; [|done]. by subst.
Qed.

(** Invariant, staffing and the count of remaining turns along a run. *)
Lemma nsteps_inv n st st' :
  Inv st -> Staffed st -> nsteps (step tasks) n st st' ->
  Inv st' /\ Staffed st' /\ turnsLeft st' + n = turnsLeft st.
Proof.
  intros HI Hst Hrun. induction Hrun as [st|n st st1 st2 Hstep _ IH].
  - split; [done|]. split; [done|lia].
  - pose proof (step_turn _ _ HI Hstep) as Hturn.
    pose proof (turn_turnsLeft _ _ HI Hturn).
    destruct IH as (? & ? & ?); [by eapply turn_inv | by eapply turn_staffed|].
    split; [done|]. split; [done|lia].
Qed.

Lemma drive_finishes schedule st :
  Inv st -> Staffed st -> turnsLeft st <= length schedule ->
  Inv (drive tasks schedule st) /\ turnsLeft (drive tasks schedule st) = 0.
Proof.
  revert st. induction schedule as [|pick rest IH]; intros st HI Hst Hlen.
  - cbn in *. split; [done|lia].
  - cbn [drive]. destruct (runnableWorkers st) as [|w0 ws] eqn:Hrw.
    + split; [done|]. destruct (decide (turnsLeft st = 0)) as [|Hpos]; [done|].
      destruct (progress st HI Hst) as (_ & w & Hw); [lia|].
      assert (w ∈ runnableWorkers st) as Hin.
      { unfold runnableWorkers. apply list_elem_of_filter. split; [done|].
        apply elem_of_seq. unfold canRun in Hw.
        destruct (workers st !! w) eqn:E; [|done].
        apply lookup_lt_Some in E. lia. }
      rewrite Hrw in Hin. by apply elem_of_nil in Hin.
    + set (w := nth _ _ _).
      assert (canRun st w = true) as Hw.
      { assert (w ∈ runnableWorkers st) as Hin.
        { rewrite Hrw. apply list_elem_of_In. apply nth_In.
          apply Nat.mod_upper_bound. done. }
        unfold runnableWorkers in Hin. by apply list_elem_of_filter in Hin as [? _]. }
      assert (step tasks st (advance tasks st w)) as Hstep by (by exists w).
      pose proof (step_turn _ _ HI Hstep) as Hturn.
      pose proof (turn_turnsLeft _ _ HI Hturn).
      apply IH; [by eapply turn_inv | by eapply turn_staffed|].
      cbn [length] in Hlen. lia.
Qed.

End AllResolve.
End SchedulerFacts.

Module SchedulerProps.
Import Scheduler SchedulerFacts.

(** C1. Let every task resolve and let the concurrency be at least 1 (in
    particular any setting from 1 to N). Then every run of [runInParallel],
    whatever the order in which the task promises settle, takes exactly 2N
    turns: before that the returned promise is pending and some worker can
    take a turn; after 2N turns no turn is left and the promise has resolved
    with an array of length N whose slot i holds the value of [tasks[i]].
    The tasks invoked along the way are 0, 1, 2, ... in this order, each once
    and none skipped. The same holds for the run under any schedule long
    enough to take the 2N turns. *)
Theorem runInParallel_preserves_input_order
    {T : Type} (values : list T) (concurrency : Z) :
  (1 <= concurrency)%Z ->
  let tasks := tasksOf values in
  let N := length values in
  (forall n st,
      nsteps (step tasks) n (start tasks concurrency) st ->
      n <= 2 * N /\
      invokedOf (trace st) = seq 0 (currentIndex st) /\
      (n < 2 * N ->
       settlement st = None /\ exists st', step tasks st st') /\
      (n = 2 * N ->
       settlement st = Some (Resolved (Some <$> values)) /\
       length (results st) = N /\
       invokedOf (trace st) = seq 0 N /\
       forall st', ~ step tasks st st')) /\
  (forall schedule,
      2 * N <= length schedule ->
      runInParallel tasks concurrency schedule
      = Some (Resolved (Some <$> values))).
Proof.
  intros Hc tasks N.
  destruct (start_spawned values concurrency Hc) as (Hstart & Hle & Hpool).
  fold tasks in Hstart. rewrite Hstart.
  pose proof (spawned_inv values _ Hle) as HI0.
  pose proof (spawned_turnsLeft values _ Hle) as Hleft0.
  assert (Staffed values (spawned values (poolSize tasks concurrency)))
    as Hst0.
  { intros H. cbn in H. apply fmap_nil_inv in H.
    apply Hpool. by destruct (poolSize _ _). }
  split.
  - intros n st Hrun.
    destruct (nsteps_inv values _ _ _ HI0 Hst0 Hrun) as (HI & Hst & Hleft).
    fold N in Hleft0. split; [lia|]. split; [apply (inv_invoked _ _ HI)|].
    split.
    + intros Hn. destruct (progress values st HI Hst) as [Hpend [w Hw]]; [lia|].
      split; [done|]. by exists (advance tasks st w), w.
    + intros Hn. destruct (finished values st HI) as (? & ? & _ & ?); [lia|].
      split; [done|]. split; [apply (inv_len _ _ HI)|]. done.
  - intros schedule Hlen. unfold runInParallel. rewrite Hstart.
    destruct (drive_finishes values schedule _ HI0 Hst0) as [HI Hz].
    { fold N in Hleft0. lia. }
    by destruct (finished values _ HI Hz) as (? & _).
Qed.

Lemma runInParallel_preserves_input_order_witness :
  (1 <= 2)%Z /\
  runInParallel (tasksOf ["a"; "b"; "c"]) 2 [1; 1; 0; 5; 0; 0]
  = Some (Resolved [Some "a"; Some "b"; Some "c"]).
Proof.
  split; [lia|].
  apply (proj2 (runInParallel_preserves_input_order ["a"; "b"; "c"] 2
                  ltac:(lia))).
  cbn. lia.
Defined.

(** A rejected task makes the returned promise reject as soon as its worker
    continues; the other worker goes on with the remaining tasks. *)
Example rejection_settles_the_call :
  runInParallel [Resolved "a"; Rejected; Resolved "c"] 2 [1; 1]
    = Some Rejected /\
  results (drive [Resolved "a"; Rejected; Resolved "c"] [1; 1; 0; 0; 0; 0]
             (start [Resolved "a"; Rejected; Resolved "c"] 2))
    = [Some "a"; None; Some "c"].
Proof. split; reflexivity. Qed.

(** In the run of the witness the second task settles before the first. *)
Example completion_order_differs :
  settledOf (trace (drive (tasksOf ["a"; "b"; "c"]) [1; 1; 0; 5; 0; 0]
                      (start (tasksOf ["a"; "b"; "c"]) 2)))
  = [1; 0; 2].
Proof. reflexivity. Qed.

End SchedulerProps.

(** ** Insertion-ordered maps *)

Module OrderedMapFacts.
Section Facts.
Context {V : Type}.
Implicit Types (m : OrderedMap.t V) (k : string) (v : V).

Definition keys m : list string := fst <$> m.

Lemma get_None m k : OrderedMap.get m k = None <-> k ∉ keys m.
Proof.
  induction m as [|[k' v'] m IH]; cbn.
  - split; [intros _; apply not_elem_of_nil | done].
  - rewrite not_elem_of_cons. destruct (String.eqb_spec k' k) as [->|Hne].
    + split; [done | intros [? _]; done].
    + rewrite IH. split; [intros ?; split; [congruence|done] | by intros [_ ?]].
Qed.

Lemma has_keys m k : OrderedMap.has m k = true <-> k ∈ keys m.
Proof.
  unfold OrderedMap.has. pose proof (get_None m k) as H.
  destruct (OrderedMap.get m k).
  - split; [intros _|done]. destruct (decide (k ∈ keys m)); [done|].
    by apply H in n.
  - split; [done|]. intros Hin. by apply H in Hin.
Qed.

Lemma get_set_eq m k v : OrderedMap.get (OrderedMap.set m k v) k = Some v.
Proof.
  induction m as [|[k' v'] m IH]; cbn.
  - by rewrite String.eqb_refl.
  - destruct (String.eqb_spec k' k) as [->|Hne]; cbn.
    + by rewrite String.eqb_refl.
    + by destruct (String.eqb_spec k' k).
Qed.

Lemma get_set_ne m k k' v :
  k <> k' -> OrderedMap.get (OrderedMap.set m k v) k' = OrderedMap.get m k'.
Proof.
  intros Hne. induction m as [|[k0 v0] m IH]; cbn.
  - by destruct (String.eqb_spec k k').
  - destruct (String.eqb_spec k0 k) as [->|Hne0]; cbn.
    + by destruct (String.eqb_spec k k').
    + by rewrite IH.
Qed.

Lemma keys_set m k v :
  keys (OrderedMap.set m k v) = if bool_decide (k ∈ keys m) then keys m
                                else keys m ++ [k].
Proof.
  induction m as [|[k' v'] m IH]; cbn; [done|].
  destruct (String.eqb_spec k' k) as [->|Hne]; cbn.
  - rewrite bool_decide_eq_true_2; [done | left].
  - fold (keys m). fold (keys (OrderedMap.set m k v)). rewrite IH.
    destruct (decide (k ∈ keys m)) as [Hin|Hnin].
    + rewrite !bool_decide_eq_true_2; [done | by right | done].
    + rewrite !bool_decide_eq_false_2; [done | | done].
      rewrite not_elem_of_cons. split; congruence.
Qed.

Lemma elem_of_get m k v :
  NoDup (keys m) -> (k, v) ∈ m <-> OrderedMap.get m k = Some v.
Proof.
  induction m as [|[k' v'] m IH]; cbn.
  - intros _. split; [by intros ?%elem_of_nil | done].
  - intros [Hk' Hnd]%NoDup_cons. rewrite elem_of_cons.
    destruct (String.eqb_spec k' k) as [->|Hne].
    + split; [|intros [= ->]; by left].
      intros [[= ->]|Hin]; [done|]. destruct Hk'.
      apply list_elem_of_fmap. by exists (k, v).
    + rewrite <- IH by done. split; [|tauto].
      intros [[= <- _]|?]; done.
Qed.

End Facts.
End OrderedMapFacts.

(** ** Aggregation of discovered mentions *)

Module AggregationFacts.
Import PipelineAnalyzer OrderedMapFacts.

Lemma setAdd_elem set x y : y ∈ setAdd set x <-> y ∈ set \/ y = x.
Proof.
  unfold setAdd. case_bool_decide.
  - split; [tauto | intros [?| ->]; done].
  - rewrite elem_of_app, list_elem_of_singleton. tauto.
Qed.

Lemma setAdd_NoDup set x : NoDup set -> NoDup (setAdd set x).
Proof.
  intros Hnd. unfold setAdd. case_bool_decide; [done|].
  apply NoDup_app. split; [done|]. split; [|apply NoDup_singleton].
  by intros y Hy ->%list_elem_of_singleton.
Qed.

(** What the name map holds: one bucket per name seen, and in the bucket of
    a name the descriptions seen with it, once each. *)
Record Buckets (nameMap : OrderedMap.t (list string))
    (seen : list Mention.t) : Prop := mkBuckets {
  b_keys_nodup : NoDup (keys nameMap);
  b_keys : forall name, name ∈ keys nameMap <-> name ∈ (Mention.name <$> seen);
  b_nodup : forall name set,
      OrderedMap.get nameMap name = Some set -> NoDup set;
  b_descs : forall name set d,
      OrderedMap.get nameMap name = Some set ->
      d ∈ set <-> Mention.mk name d ∈ seen
}.

Lemma buckets_empty : Buckets [] [].
Proof.
  constructor; cbn; try done. constructor.
Qed.

Lemma addMention_get nameMap item name :
  OrderedMap.get (addMention nameMap item) name
  = if decide (Mention.name item = name)
    then Some (setAdd (default [] (OrderedMap.get nameMap name))
                 (Mention.description item))
    else OrderedMap.get nameMap name.
Proof.
  unfold addMention, OrderedMap.has.
  destruct (decide (Mention.name item = name)) as [<-|Hne].
  - destruct (OrderedMap.get nameMap (Mention.name item)) as [set|] eqn:Hg;
      cbn [negb].
    + by rewrite Hg, get_set_eq.
    + by rewrite get_set_eq, get_set_eq.
  - destruct (OrderedMap.get nameMap (Mention.name item)) as [set|] eqn:Hg;
      cbn [negb].
    + rewrite Hg. by rewrite get_set_ne.
    + rewrite get_set_eq. by rewrite !get_set_ne.
Qed.

Lemma addMention_keys nameMap item :
  keys (addMention nameMap item)
  = if bool_decide (Mention.name item ∈ keys nameMap) then keys nameMap
    else keys nameMap ++ [Mention.name item].
Proof.
  unfold addMention, OrderedMap.has.
  destruct (OrderedMap.get nameMap (Mention.name item)) as [set|] eqn:Hg;
    cbn [negb].
  - rewrite Hg, keys_set.
    assert (Mention.name item ∈ keys nameMap) as Hin.
    { apply has_keys. unfold OrderedMap.has. by rewrite Hg. }
    by rewrite !bool_decide_eq_true_2.
  - rewrite get_set_eq, !keys_set.
    apply get_None in Hg. rewrite (bool_decide_eq_false_2 _ Hg).
    rewrite bool_decide_eq_true_2; [done|].
    apply elem_of_app. right. left.
Qed.

Lemma buckets_step nameMap seen item :
  Buckets nameMap seen -> Buckets (addMention nameMap item) (seen ++ [item]).
Proof.
  intros [Hknd Hkeys Hnd Hdescs]. constructor.
  - rewrite addMention_keys. case_bool_decide; [done|].
    apply NoDup_app. split; [done|]. split; [|apply NoDup_singleton].
    by intros y Hy ->%list_elem_of_singleton.
  - intros name. rewrite addMention_keys, fmap_app, elem_of_app.
    cbn. rewrite list_elem_of_singleton, <- Hkeys.
    case_bool_decide.
    + split; [tauto|]. intros [?| ->]; done.
    + rewrite elem_of_app, list_elem_of_singleton. tauto.
  - intros name set. rewrite addMention_get. case_decide.
    + intros [= <-]. apply setAdd_NoDup.
      destruct (OrderedMap.get nameMap name) eqn:Hg; cbn; [eauto|constructor].
    + apply Hnd.
  - intros name set d. rewrite addMention_get, elem_of_app,
      list_elem_of_singleton. case_decide as Hname.
    + intros [= <-]. rewrite setAdd_elem.
      destruct (OrderedMap.get nameMap name) as [set|] eqn:Hg; cbn.
      * rewrite (Hdescs name set d Hg). destruct item as [n ds]. cbn in *.
        subst. split; (intros [?|?]; [by left | right; congruence]).
      * apply get_None in Hg. rewrite Hkeys in Hg.
        destruct item as [n ds]. cbn in *. subst. split.
        -- intros [?%elem_of_nil| ->]; [done | by right].
        -- intros [Hin|[= ->]]; [|by right]. destruct Hg.
           apply list_elem_of_fmap. by eexists (Mention.mk _ _).
    + intros Hg. rewrite (Hdescs name set d Hg). split; [tauto|].
      intros [?|Heq]; [done|]. destruct Hname. by rewrite <- Heq.
Qed.

Lemma buckets_foldl nameMap seen items :
  Buckets nameMap seen ->
  Buckets (foldl addMention nameMap items) (seen ++ items).
Proof.
  revert nameMap seen. induction items as [|item items IH];
    intros nameMap seen HB; cbn [foldl].
  - by rewrite app_nil_r.
  - rewrite (cons_middle item), app_assoc. apply IH. by apply buckets_step.
Qed.

End AggregationFacts.

Module ResolutionProps.
Import PipelineAnalyzer OrderedMapFacts AggregationFacts.

Lemma aggregate_names rawDiscovered :
  Aggregated.name <$> aggregate rawDiscovered
  = keys (foldl addMention [] rawDiscovered).
Proof.
  unfold aggregate, keys. rewrite <- list_fmap_compose.
  apply list_fmap_ext. by intros _ [name set] _.
Qed.

Lemma aggregate_bucket rawDiscovered b :
  b ∈ aggregate rawDiscovered ->
  exists set,
    OrderedMap.get (foldl addMention [] rawDiscovered) (Aggregated.name b)
      = Some set /\
    Aggregated.descriptions b = take 5 set.
Proof.
  unfold aggregate. intros ([name set] & -> & Hin)%list_elem_of_fmap.
  exists set. split; [|done]. cbn. apply elem_of_get; [|done].
  apply (b_keys_nodup _ _ (buckets_foldl [] [] rawDiscovered buckets_empty)).
Qed.

(** C8. A non-empty list of mentions makes [resolveEntities] send exactly one
    request. It holds one bucket per distinct name of the mentions (names
    compared as strings); the descriptions of a bucket were all seen with
    that name, are pairwise distinct and are at most 5; a description seen
    with the name is in its bucket unless the bucket is already full. *)
Theorem resolveEntities_submits_bounded_buckets
    (resolveLLM : list Aggregated.t -> list Character.t)
    (rawDiscovered : list Mention.t) :
  rawDiscovered <> [] ->
  exists aggregatedInputs,
    resolveEntities resolveLLM rawDiscovered
      = (resolveLLM aggregatedInputs, [aggregatedInputs]) /\
    NoDup (Aggregated.name <$> aggregatedInputs) /\
    (forall name,
        name ∈ (Aggregated.name <$> aggregatedInputs)
        <-> name ∈ (Mention.name <$> rawDiscovered)) /\
    (forall b, b ∈ aggregatedInputs ->
        NoDup (Aggregated.descriptions b) /\
        length (Aggregated.descriptions b) <= 5 /\
        (forall d, d ∈ Aggregated.descriptions b ->
                   Mention.mk (Aggregated.name b) d ∈ rawDiscovered) /\
        (forall d, Mention.mk (Aggregated.name b) d ∈ rawDiscovered ->
                   d ∈ Aggregated.descriptions b \/
                   length (Aggregated.descriptions b) = 5)).
Proof.
  intros Hne. exists (aggregate rawDiscovered).
  pose proof (buckets_foldl [] [] rawDiscovered buckets_empty) as HB.
  cbn [app] in HB. split; [|split; [|split]].
  - unfold resolveEntities. by destruct rawDiscovered.
  - rewrite aggregate_names. apply (b_keys_nodup _ _ HB).
  - intros name. rewrite aggregate_names. apply (b_keys _ _ HB).
  - intros b (set & Hget & ->)%aggregate_bucket.
    pose proof (b_nodup _ _ HB _ _ Hget) as Hnd.
    split; [|split; [|split]].
    + exact (sublist_NoDup _ _ Hnd (sublist_take set 5)).
    + rewrite length_take. lia.
    + intros d Hd. apply (b_descs _ _ HB _ _ d Hget).
      by apply (subseteq_take 5 set).
    + intros d Hd. apply (b_descs _ _ HB _ _ d Hget) in Hd.
      destruct (decide (length set <= 5)) as [Hle|Hgt].
      * left. by rewrite take_ge.
      * right. rewrite length_take. lia.
Qed.

Definition sixSightings : list Mention.t :=
  [Mention.mk "Li San" "a porter"; Mention.mk "San-ge" "the elder brother";
   Mention.mk "Li San" "a porter"; Mention.mk "Li San" "tall";
   Mention.mk "Li San" "scarred"; Mention.mk "Li San" "from the north";
   Mention.mk "Li San" "limps"; Mention.mk "Li San" "left-handed"].

Lemma resolveEntities_submits_bounded_buckets_witness :
  sixSightings <> [] /\
  exists aggregatedInputs,
    resolveEntities (fun _ => []) sixSightings = ([], [aggregatedInputs]) /\
    NoDup (Aggregated.name <$> aggregatedInputs) /\
    (forall name,
        name ∈ (Aggregated.name <$> aggregatedInputs)
        <-> name ∈ (Mention.name <$> sixSightings)) /\
    (forall b, b ∈ aggregatedInputs ->
        NoDup (Aggregated.descriptions b) /\
        length (Aggregated.descriptions b) <= 5 /\
        (forall d, d ∈ Aggregated.descriptions b ->
                   Mention.mk (Aggregated.name b) d ∈ sixSightings) /\
        (forall d, Mention.mk (Aggregated.name b) d ∈ sixSightings ->
                   d ∈ Aggregated.descriptions b \/
                   length (Aggregated.descriptions b) = 5)).
Proof.
  split; [discriminate|].
  exact (resolveEntities_submits_bounded_buckets (fun _ => []) sixSightings
           ltac:(discriminate)).
Defined.

(** Six distinct descriptions were seen for "Li San"; five are sent. *)
Example aggregate_sixSightings :
  aggregate sixSightings
  = [Aggregated.mk "Li San"
       ["a porter"; "tall"; "scarred"; "from the north"; "limps"];
     Aggregated.mk "San-ge" ["the elder brother"]].
Proof. vm_compute. reflexivity. Qed.

(** C10. On an empty list of mentions [resolveEntities] returns the empty
    list of characters and sends no request to the generation capability,
    whatever that capability would answer; and the empty list is the only
    input for which no request is sent. *)
Theorem resolveEntities_empty
    (resolveLLM : list Aggregated.t -> list Character.t) :
  resolveEntities resolveLLM [] = ([], []) /\
  forall rawDiscovered,
    (resolveEntities resolveLLM rawDiscovered).2 = [] <-> rawDiscovered = [].
Proof.
  split; [reflexivity|]. intros rawDiscovered. split.
  - unfold resolveEntities. by destruct rawDiscovered.
  - by intros ->.
Qed.

End ResolutionProps.

(** ** A pool of one worker settles the tasks in index order *)

Module SoloFacts.
Import Scheduler SchedulerFacts.

Section Solo.
Context {T : Type}.
Variable values : list T.
Local Abbreviation tasks := (tasksOf values).
Local Abbreviation N := (length values).

Definition Solo (st : State (T:=T)) : Prop :=
  match workers st with
  | [] => settledOf (trace st) = []
  | [Awaiting i] =>
      currentIndex st = S i /\ settledOf (trace st) = seq 0 i
  | [Resuming i] =>
      currentIndex st = S i /\ settledOf (trace st) = seq 0 (S i)
  | [Returned] => settledOf (trace st) = seq 0 (currentIndex st)
  | _ => False
  end.

Lemma turn_solo st st' : Turn values st st' -> Solo st -> Solo st'.
Proof.
  unfold Solo.
  intros [l1 l2 i Hws ->|l1 l2 i v Hws Hv Hc ->|l1 l2 i v Hws Hv Hc ->] HS;
    rewrite Hws in HS;
    (destruct l1 as [|a l1];
     [destruct l2 as [|b l2]; [|done]
     |destruct a, l1; cbn in HS; done]);
    cbn [app] in HS; cbn [currentIndex workers trace app];
    rewrite ?settledOf_app, ?settledOf_one, ?app_nil_r.
  - destruct HS as [? ->]. split; [done|]. by rewrite seq_S.
  - destruct HS as [-> ->]. done.
  - destruct HS as [-> ->]. done.
Qed.

Lemma nsteps_solo n st st' :
  Inv values st -> Staffed values st -> Solo st ->
  nsteps (step tasks) n st st' -> Solo st'.
Proof.
  intros HI Hst HS Hrun. induction Hrun as [st|n st st1 st2 Hstep _ IH]; [done|].
  pose proof (step_turn _ _ _ HI Hstep) as Hturn.
  apply IH; [by eapply turn_inv | by eapply turn_staffed | by eapply turn_solo].
Qed.

Lemma start_solo : Solo (start tasks 1).
Proof.
  destruct (start_spawned values 1 ltac:(lia)) as (-> & Hle & _).
  assert (poolSize tasks 1 <= 1) as H1.
  { unfold poolSize. lia. }
  destruct (poolSize tasks 1) as [|[|k]]; [done| |lia].
  unfold Solo. cbn. done.
Qed.

(** A run under a schedule is a sequence of turns. *)
Lemma drive_nsteps schedule (st : State (T:=T)) :
  exists n, nsteps (step tasks) n st (drive tasks schedule st).
Proof.
  revert st. induction schedule as [|pick rest IH]; intros st.
  - exists 0. constructor.
  - cbn [drive]. destruct (runnableWorkers st) as [|w0 ws] eqn:Hrw.
    + exists 0. constructor.
    + set (w := nth _ _ _).
      assert (canRun st w = true) as Hw.
      { assert (w ∈ runnableWorkers st) as Hin.
        { rewrite Hrw. apply list_elem_of_In. apply nth_In.
          apply Nat.mod_upper_bound. done. }
        unfold runnableWorkers in Hin.
        by apply list_elem_of_filter in Hin as [? _]. }
      destruct (IH (advance tasks st w)) as [n Hn].
      exists (S n). econstructor; [|exact Hn]. by exists w.
Qed.

(** The end of a run under a schedule long enough. *)
Lemma drive_end concurrency schedule :
  (1 <= concurrency)%Z -> 2 * N <= length schedule ->
  let st := drive tasks schedule (start tasks concurrency) in
  settlement st = Some (Resolved (Some <$> values)) /\
  settledOf (trace st) ≡ₚ seq 0 N /\
  (concurrency = 1%Z -> settledOf (trace st) = seq 0 N).
Proof.
  intros Hc Hlen st.
  destruct (start_spawned values concurrency Hc) as (Hstart & Hle & Hpool).
  pose proof (spawned_inv values _ Hle) as HI0.
  pose proof (spawned_turnsLeft values _ Hle) as Hleft0.
  rewrite <- Hstart in HI0, Hleft0.
  assert (Staffed values (start tasks concurrency)) as Hst0.
  { rewrite Hstart. intros H. cbn in H. apply fmap_nil_inv in H.
    apply Hpool. by destruct (poolSize _ _). }
  destruct (drive_finishes values schedule _ HI0 Hst0) as [HI Hz]; [lia|].
  fold st in HI, Hz.
  destruct (finished values st HI Hz) as (Hset & _ & Hperm & _).
  split; [done|]. split; [done|]. intros ->.
  destruct (drive_nsteps schedule (start tasks 1)) as [n Hn]. fold st in Hn.
  pose proof (nsteps_solo _ _ _ HI0 Hst0 start_solo Hn) as HS.
  destruct (nsteps_inv values _ _ _ HI0 Hst0 Hn) as (_ & Hst & _).
  assert (currentIndex st = N) as Hcur.
  { pose proof (inv_bound _ _ HI). unfold turnsLeft in Hz. lia. }
  assert (Forall (fun w => w = Returned) (workers st)) as Hall.
  { apply (idle_all_returned values); [done|]. unfold turnsLeft in Hz. lia. }
  unfold Solo in HS. destruct (workers st) as [|w [|w' ws]] eqn:Hws.
  - rewrite HS. specialize (Hst Hws). by rewrite Hst.
  - apply Forall_cons in Hall as [-> _]. by rewrite HS, Hcur.
  - by destruct w.
Qed.

End Solo.
End SoloFacts.

(** ** Progress reports of the stages that run through [runInParallel] *)

Module ProgressProps.
Import Scheduler SchedulerFacts SoloFacts.

(** The [current] arguments of the calls made for [stage], in call order. *)
Definition stageCounts (stage : string) (log : list Progress.t) : list nat :=
  Progress.current <$> filter (fun p => Progress.stage p = stage) log.

Definition nondecreasing (l : list nat) : Prop :=
  forall i j x y, i < j -> l !! i = Some x -> l !! j = Some y -> x <= y.

Lemma stageCounts_app stage l1 l2 :
  stageCounts stage (l1 ++ l2) = stageCounts stage l1 ++ stageCounts stage l2.
Proof. unfold stageCounts. by rewrite filter_app, fmap_app. Qed.

Lemma stageCounts_cons stage stage' c t log :
  stageCounts stage (Progress.mk stage' c t :: log)
  = if decide (stage' = stage) then c :: stageCounts stage log
    else stageCounts stage log.
Proof.
  unfold stageCounts. rewrite filter_cons. cbn [Progress.stage].
  by destruct (decide (stage' = stage)).
Qed.

Lemma stageCounts_taskProgress stage total trace :
  stageCounts stage (taskProgress stage total trace)
  = S <$> settledOf trace.
Proof.
  unfold stageCounts, taskProgress.
  induction (settledOf trace) as [|i l IH]; [done|].
  cbn [fmap list_fmap]. rewrite filter_cons, decide_True by done.
  cbn [fmap list_fmap Progress.current]. rewrite Nat.add_1_r. f_equal. exact IH.
Qed.

Lemma nondecreasing_seq_last n : nondecreasing (seq 0 (S n) ++ [n]).
Proof.
  intros i j x y Hij Hi Hj.
  assert (i < S n) as Hin.
  { apply lookup_lt_Some in Hj. rewrite length_app, length_seq in Hj.
    cbn in Hj. lia. }
  rewrite lookup_app_l in Hi by (by rewrite length_seq).
  apply lookup_seq in Hi as [-> _].
  destruct (decide (j < S n)) as [Hjn|Hjn].
  - rewrite lookup_app_l in Hj by (by rewrite length_seq).
    apply lookup_seq in Hj as [-> _]. lia.
  - rewrite lookup_app_r in Hj by (rewrite length_seq; lia).
    rewrite length_seq in Hj. apply list_lookup_singleton_Some in Hj as [_ <-].
    lia.
Qed.

Lemma nondecreasing_seq n : nondecreasing (seq 0 n).
Proof.
  intros i j x y Hij [-> _]%lookup_seq [-> _]%lookup_seq. lia.
Qed.

Lemma reported_permutation (settled : list nat) n :
  settled ≡ₚ seq 0 n -> S <$> settled ≡ₚ seq 1 n.
Proof. intros ->. by rewrite fmap_S_seq. Qed.

Lemma uniqueNames_resolved (lists : list (list Mention.t)) :
  is_Some (ReaderAnalyzer.uniqueNames (Some <$> lists)).
Proof.
  unfold ReaderAnalyzer.uniqueNames. generalize (@nil string).
  induction lists as [|l lists IH]; intros names; cbn; [done|]. apply IH.
Qed.

Lemma collect_resolved n (rs : list (nat * ChunkAnalysis.t)) :
  is_Some (PipelineAnalyzer.collect n (Some <$> rs)).
Proof.
  unfold PipelineAnalyzer.collect.
  generalize (replicate n (@None ChunkAnalysis.t), @nil Mention.t).
  induction rs as [|[i a] rs IH]; intros [analyses raw]; cbn; [done|].
  apply IH.
Qed.

(** The order in which the tasks complete in a run of [runInParallel]
    under [schedule]: the task indices, 0-based, as their promises settle. *)
Definition completionOrder {T : Type} (tasks : list (Outcome T))
    (concurrency : Z) (schedule : list nat) : list nat :=
  settledOf (trace (drive tasks schedule (start tasks concurrency))).

(** The calls of the task bodies of [stage], given the completion order. *)
Definition positionCalls (stage : string) (total : nat) (order : list nat)
    : list Progress.t :=
  (fun i => Progress.mk stage (i + 1) total) <$> order.

Lemma stageCounts_positionCalls stage total order :
  stageCounts stage (positionCalls stage total order)
  = (fun i => i + 1) <$> order.
Proof.
  unfold stageCounts, positionCalls.
  induction order as [|i l IH]; [done|].
  cbn [fmap list_fmap]. rewrite filter_cons, decide_True by done.
  cbn [fmap list_fmap Progress.current]. f_equal. exact IH.
Qed.

Lemma succ_seq n : (fun i => i + 1) <$> seq 0 n = seq 1 n.
Proof.
  rewrite <- fmap_S_seq. apply list_fmap_ext. intros _ i _. lia.
Qed.


End ProgressProps.

Module ProgressScenarios.
Import Scheduler ProgressProps.

Definition plainChunk (index : nat) (content : utf16) : TextChunk.t :=
  TextChunk.mk index content (length content) 0 (length content).

Definition twoChunks : list TextChunk.t :=
  [plainChunk 0 [72; 105]%N; plainChunk 1 [72; 111]%N].

Definition noMentions (content : utf16) : list Mention.t := [].

Definition blankAnalysis (previousSummary : option string) (content : utf16)
    : ChunkAnalysis.t :=
  ChunkAnalysis.mk "summary" [] [] [] [] [].

Definition keepAnalysis (content : utf16) (analysis : ChunkAnalysis.t)
    : ChunkAnalysis.t := analysis.

Definition noCharacters (inputs : list PipelineAnalyzer.Aggregated.t)
    : list Character.t := [].



End ProgressScenarios.

(** ** Extraction in batches *)

Module ExtractionFacts.
Import ReaderAnalyzer.

Lemma imap_offset {A B} (F : nat -> B) (i : nat) (l : list A) :
  imap (fun k _ => F (i + k)) l = F <$> seq i (length l).
Proof.
  revert i. induction l as [|x l IH]; intros i; [done|].
  cbn [imap length seq fmap list_fmap]. rewrite Nat.add_0_r. f_equal.
  rewrite <- IH. apply imap_ext. intros k y _. cbn. f_equal. lia.
Qed.

Lemma slice_tasks {A} (chunks : list A) (c i : nat) :
  take c (drop i (imap pair chunks))
  = imap (fun k chunk => (i + k, chunk)) (take c (drop i chunks)).
Proof.
  apply list_eq. intros k. rewrite list_lookup_imap.
  destruct (decide (k < c)) as [Hk|Hk].
  - rewrite !lookup_take_lt, !lookup_drop, list_lookup_imap by done.
    by destruct (chunks !! (i + k)).
  - by rewrite !lookup_take_ge by lia.
Qed.

Lemma store_append {A} (g : nat -> A -> Reader.ChunkAnalysis.t)
    (results : list (option Reader.ChunkAnalysis.t)) (xs : list A) :
  foldl (fun results '(index, analysis) => store results index analysis)
    results (imap (fun k x => (length results + k, g k x)) xs)
  = results ++ imap (fun k x => Some (g k x)) xs.
Proof.
  revert results g. induction xs as [|x xs IH]; intros results g.
  - by rewrite app_nil_r.
  - cbn [imap foldl]. unfold store at 2.
    destruct (Nat.ltb_spec (length results + 0) (length results)); [lia|].
    replace (length results + 0 - length results) with 0 by lia.
    cbn [replicate app].
    rewrite (imap_ext _ (fun k y =>
               (length (results ++ [Some (g 0 x)]) + k, g (S k) y))).
    2: { intros k y _. cbn. rewrite length_app. cbn. f_equal. lia. }
    rewrite (IH _ (fun k => g (S k))). by rewrite <- app_assoc.
Qed.

Section Extraction.
Variable extractLLM :
  list string -> option string -> utf16 -> Reader.ChunkAnalysis.t.
Variable refineLLM : utf16 -> Reader.ChunkAnalysis.t -> Reader.ChunkAnalysis.t.
Variable globalCharacters : list string.
Variable chunks : list TextChunk.t.
Variable c : nat.
Hypothesis c_pos : 1 <= c.

Local Abbreviation n := (length chunks).
Local Abbreviation extract :=
  (extractCharacterEvents extractLLM refineLLM).

(** The [previousSummary] a task ends up with: the summary stored for the
    chunk before it when the task opens a batch other than the first, and
    nothing otherwise. *)
Definition seed (results : list (option Reader.ChunkAnalysis.t)) (i : nat)
    : option string :=
  if (0 <? i) && (i mod c =? 0) then previousSummaryAt results i else None.

(** The events of the batch that starts at chunk [b * c]. *)
Definition batchLog (results : list (option Reader.ChunkAnalysis.t))
    (b : nat) : list BatchEvent :=
  let members := seq (b * c) (min c (n - b * c)) in
  ((fun i => Called i (seed results i)) <$> members) ++ (Stored <$> members).

Lemma batchLog_unfold results b :
  batchLog results b
  = ((fun i => Called i (seed results i))
       <$> seq (b * c) (min c (n - b * c)))
    ++ (Stored <$> seq (b * c) (min c (n - b * c))).
Proof. reflexivity. Qed.

Definition Good (results : list (option Reader.ChunkAnalysis.t)) : Prop :=
  forall j chunk, j < length results -> chunks !! j = Some chunk ->
    results !! j = Some (Some (extract chunk globalCharacters (seed results j))).

Lemma previousSummaryAt_prefix results more i :
  i <= length results ->
  previousSummaryAt (results ++ more) i = previousSummaryAt results i.
Proof.
  intros Hi. unfold previousSummaryAt.
  destruct (Nat.ltb_spec 0 i); [|done]. by rewrite lookup_app_l by lia.
Qed.

Lemma seed_prefix results more i :
  i <= length results -> seed (results ++ more) i = seed results i.
Proof.
  intros Hi. unfold seed. by rewrite previousSummaryAt_prefix.
Qed.

(** Inside a batch only its first task finds a stored predecessor. *)
Lemma seed_in_batch results more b k :
  length results = b * c -> k < c ->
  previousSummaryAt results (b * c + k) = seed (results ++ more) (b * c + k).
Proof.
  intros Hlen Hk. unfold seed.
  replace ((b * c + k) mod c) with k
    by (by rewrite (Nat.add_comm (b * c) k), Nat.Div0.mod_add, Nat.mod_small).
  destruct k as [|k].
  - rewrite Nat.add_0_r, Nat.eqb_refl, andb_true_r.
    rewrite previousSummaryAt_prefix by lia.
    unfold previousSummaryAt. by destruct (0 <? b * c).
  - cbn [Nat.eqb]. rewrite andb_false_r. unfold previousSummaryAt.
    destruct (Nat.ltb_spec 0 (b * c + S k)); [|done].
    by rewrite lookup_ge_None_2 by lia.
Qed.

Lemma batchLoop_spec fuel b results log :
  length results = min (b * c) n ->
  Good results ->
  n - b * c < fuel ->
  exists final B,
    batchLoop extractLLM refineLLM fuel globalCharacters (imap pair chunks) c
      (b * c) results log
    = Some (final, log ++ flat_map (batchLog final) (seq b (B - b))) /\
    length final = n /\ Good final /\
    (exists more, final = results ++ more) /\
    b <= B /\ n <= B * c /\ (forall b', b <= b' < B -> b' * c < n).
Proof.
  revert b results log. induction fuel as [|fuel IH];
    intros b results log Hlen Hgood Hfuel; [lia|].
  cbn [batchLoop]. rewrite length_imap.
  destruct (Nat.ltb_spec (b * c) n) as [Hlt|Hge].
  - (* one more batch *)
    rewrite slice_tasks. unfold runBatch. rewrite !fmap_imap.
    set (chs := take c (drop (b * c) chunks)).
    assert (length chs = min c (n - b * c)) as Hchs.
    { unfold chs. rewrite length_take, length_drop. lia. }
    assert (length results = b * c) as Hlen' by lia.
    set (g := fun k chunk =>
                extract chunk globalCharacters
                  (previousSummaryAt results (b * c + k))).
    assert (foldl (fun results '(index, analysis) => store results index analysis)
              results
              (imap (fun k => (fun '(i, chunk) =>
                         (i, extract chunk globalCharacters
                               (previousSummaryAt results i)))
                      ∘ (fun chunk => (b * c + k, chunk))) chs)
            = results ++ imap (fun k x => Some (g k x)) chs) as ->.
    { rewrite <- (store_append g). f_equal. apply imap_ext.
      intros k x _. cbn. by rewrite Hlen'. }
    set (results' := results ++ imap (fun k x => Some (g k x)) chs).
    assert (length results' = min (S b * c) n) as Hlen1.
    { unfold results'. rewrite length_app, length_imap. lia. }
    assert (Good results') as Hgood1.
    { intros j chunk Hj Hchunk. unfold results' in *.
      destruct (decide (j < length results)) as [Hold|Hnew].
      - rewrite lookup_app_l, seed_prefix by lia. by apply Hgood.
      - rewrite lookup_app_r by lia. rewrite list_lookup_imap.
        assert (chs !! (j - length results) = Some chunk) as ->.
        { unfold chs. rewrite length_app, length_imap in Hj.
          rewrite lookup_take_lt, lookup_drop by lia.
          rewrite <- Hchunk. f_equal. lia. }
        cbn. unfold g. do 3 f_equal.
        replace j with (b * c + (j - length results)) at 2 by lia.
        apply seed_in_batch; [done|].
        rewrite length_app, length_imap in Hj. lia. }
    destruct (IH (S b) results'
                (log ++
                 imap (fun k => (fun '(i, _) =>
                          Called i (previousSummaryAt results i))
                         ∘ (fun chunk => (b * c + k, chunk))) chs ++
                 imap (fun k => (fun '(i, _) => Stored i)
                         ∘ ((fun '(i, chunk) =>
                               (i, extract chunk globalCharacters
                                     (previousSummaryAt results i)))
                            ∘ (fun chunk => (b * c + k, chunk)))) chs)
                Hlen1 Hgood1)
      as (final & B & Hrun & Hfin & Hgoodf & [more Hmore] & HbB & HB & Hbs);
      [lia|].
    replace (S b * c) with (b * c + c) in Hrun by lia.
    exists final, B. rewrite Hrun. split; [|split; [done|split; [done|]]].
    + f_equal. f_equal. rewrite <- !app_assoc. f_equal.
      replace (B - b) with (S (B - S b)) by lia.
      cbn [seq flat_map]. rewrite (batchLog_unfold final b).
      rewrite <- app_assoc. f_equal; [|f_equal].
      * rewrite <- Hchs.
        rewrite <- (imap_offset (fun i => Called i (seed final i)) (b * c) chs).
        apply imap_ext. intros k x Hk. cbn. f_equal.
        rewrite Hmore. unfold results'. rewrite <- app_assoc.
        apply seed_in_batch; [done|]. apply lookup_lt_Some in Hk. lia.
      * rewrite <- Hchs.
        rewrite <- (imap_offset Stored (b * c) chs). by apply imap_ext.
    + split.
      { exists (imap (fun k x => Some (g k x)) chs ++ more).
        rewrite Hmore. unfold results'. by rewrite app_assoc. }
      split; [lia|]. split; [done|]. intros b' Hb'.
      destruct (decide (b' = b)) as [->|]; [done|]. apply Hbs. lia.
  - (* the loop ends *)
    exists results, b. rewrite Nat.sub_diag. cbn [seq flat_map].
    rewrite app_nil_r. split; [done|]. split; [lia|]. split; [done|].
    split; [exists []; by rewrite app_nil_r|]. split; [done|].
    split; [done|]. intros b' ?. lia.
Qed.

End Extraction.
End ExtractionFacts.

Module ExtractionProps.
Import ReaderAnalyzer ExtractionFacts.

Lemma seed_sequential results i : seed 1 results i = previousSummaryAt results i.
Proof.
  unfold seed. rewrite Nat.mod_1_r. cbn [Nat.eqb]. rewrite andb_true_r.
  unfold previousSummaryAt. by destruct (0 <? i).
Qed.


(** The claim as the specification words it: the summary given to chunk [i]
    is the one produced for chunk [i-1], or the one that was current when the
    batch of [i] started. *)
Definition SeededByPredecessor (c : nat)
    (results : list (option Reader.ChunkAnalysis.t)) (log : list BatchEvent)
    : Prop :=
  forall i previousSummary,
    0 < i -> Called i previousSummary ∈ log ->
    previousSummary = previousSummaryAt results i \/
    previousSummary = previousSummaryAt results (i - i mod c).

Definition fourChunks : list TextChunk.t :=
  [ProgressScenarios.plainChunk 0 [49]%N;
   ProgressScenarios.plainChunk 1 [50; 50]%N;
   ProgressScenarios.plainChunk 2 [51; 51; 51]%N;
   ProgressScenarios.plainChunk 3 [52; 52; 52; 52]%N].

(** A stand-in generation capability: the summary names the chunk's length. *)
Definition lengthSummary (globalCharacters : list string)
    (previousSummary : option string) (content : utf16)
    : Reader.ChunkAnalysis.t :=
  Reader.ChunkAnalysis.mk ("S" +:+ JS.String_ (length content)) [] [] [] [].

Definition keepReaderAnalysis (content : utf16)
    (analysis : Reader.ChunkAnalysis.t) : Reader.ChunkAnalysis.t := analysis.



End ExtractionProps.

(** ** Blank buffers *)

Module ChunkerFacts.
Import Chunker.

Definition blank (s : utf16) : bool := forallb isWhiteSpace s.

Lemma blank_app s1 s2 : blank (s1 ++ s2) = blank s1 && blank s2.
Proof. apply forallb_app. Qed.

Lemma trimStart_nil s : trimStart s = [] <-> blank s = true.
Proof.
  induction s as [|u s IH]; cbn; [done|].
  destruct (isWhiteSpace u); cbn; [exact IH | done].
Qed.

Lemma trimStart_blank s : blank (trimStart s) = true -> trimStart s = [].
Proof.
  induction s as [|u s IH]; cbn; [done|].
  destruct (isWhiteSpace u) eqn:Hu; [exact IH|].
  cbn. by rewrite Hu.
Qed.

Lemma blank_reverse s : blank (reverse s) = blank s.
Proof.
  induction s as [|u s IH]; [done|].
  rewrite reverse_cons, blank_app, IH. cbn. rewrite andb_true_r.
  apply andb_comm.
Qed.

Lemma trim_nil s : trim s = [] <-> blank s = true.
Proof.
  unfold trim. split.
  - intros H. apply (f_equal reverse) in H. rewrite reverse_involutive in H.
    cbn in H. apply trimStart_nil in H. rewrite blank_reverse in H.
    apply trimStart_blank in H. by apply trimStart_nil.
  - intros H. apply trimStart_nil in H. by rewrite H.
Qed.

Lemma trim_blank s : blank s = true -> trim s = [].
Proof. apply trim_nil. Qed.

Lemma trim_not_blank s : blank s = false -> exists u rest, trim s = u :: rest.
Proof.
  intros H. destruct (trim s) as [|u rest] eqn:Ht; [|by eauto].
  apply trim_nil in Ht. congruence.
Qed.

End ChunkerFacts.

(** ** Documents that never fill a chunk *)

Module ChunkerSmall.
Import Chunker ChunkerFacts.

Section Small.
Variable encode : utf16 -> list nat.
Variable decode : list nat -> utf16.
Variable maxTokens overlapTokens : Z.

Local Abbreviation flushChunk := (flushChunk encode decode overlapTokens).
Local Abbreviation paragraphStep :=
  (paragraphStep encode decode maxTokens overlapTokens).
Local Abbreviation sentenceStep :=
  (sentenceStep encode decode maxTokens overlapTokens).
Local Abbreviation countTokens := (countTokens encode).

(** Nothing emitted yet and only white space in the buffer. *)
Definition Quiet (st : State) : Prop :=
  chunks st = [] /\ blank (currentContent st) = true.

Lemma flush_quiet st : Quiet st -> flushChunk st = st.
Proof.
  intros [_ Hb]. unfold Chunker.flushChunk. by rewrite (trim_blank _ Hb).
Qed.

Lemma append_quiet st s tokens :
  Quiet st -> blank s = true -> Quiet (append st s tokens).
Proof.
  intros [Hc Hb] Hs. split; [done|]. cbn. by rewrite blank_app, Hb, Hs.
Qed.

Lemma sentenceStep_quiet st s :
  Quiet st -> blank s = true -> Quiet (sentenceStep st s).
Proof.
  intros HQ Hs. unfold Chunker.sentenceStep. rewrite (flush_quiet _ HQ).
  destruct (_ <? _)%Z; by apply append_quiet.
Qed.

Lemma paragraphStep_empty st : Quiet st -> Quiet (paragraphStep st []).
Proof.
  intros HQ. unfold Chunker.paragraphStep. rewrite (flush_quiet _ HQ).
  assert (Quiet (if (maxTokens <?
                       Z.of_nat (currentTokens st + countTokens ([] ++ [LF; LF])))%Z
                    && (overlapTokens + 10 <?
                          Z.of_nat (length (currentContent st)))%Z
                 then st else st)) as HQ1 by (by destruct (_ && _)).
  revert HQ1. generalize (if (maxTokens <?
                       Z.of_nat (currentTokens st + countTokens ([] ++ [LF; LF])))%Z
                    && (overlapTokens + 10 <?
                          Z.of_nat (length (currentContent st)))%Z
                 then st else st).
  intros st1 HQ1. destruct (_ <? _)%Z.
  - rewrite (flush_quiet _ HQ1).
    assert (Quiet (if countTokens
                        (getOverlapText encode decode overlapTokens
                           (currentContent st1)) + 10 <? currentTokens st1
                   then st1 else st1)) as HQ2 by (by destruct (_ <? _)).
    apply append_quiet; [|done]. cbn [splitSentences sentenceLoop].
    by apply sentenceStep_quiet.
  - by apply append_quiet.
Qed.

Lemma chunk_empty : chunk encode decode maxTokens overlapTokens [] = [].
Proof.
  unfold chunk. cbn [replaceCRLF splitParagraphs splitBlankLines foldl].
  destruct (paragraphStep_empty (mkState [] [] 0 0 0)) as [Hc Hb]; [done|].
  by rewrite (trim_blank _ Hb).
Qed.

(** The buffer and the running count when every paragraph is appended
    without a flush. *)
Definition buffered (paragraphs : list utf16) : utf16 :=
  concat ((fun para => para ++ [LF; LF]) <$> paragraphs).

Definition bufferedTokens (paragraphs : list utf16) : nat :=
  sum_list_with (fun para => countTokens (para ++ [LF; LF])) paragraphs.

Lemma foldl_paragraphStep_fits paragraphs st :
  (Z.of_nat (currentTokens st + bufferedTokens paragraphs) <= maxTokens)%Z ->
  foldl paragraphStep st paragraphs
  = mkState (chunks st) (currentContent st ++ buffered paragraphs)
      (currentTokens st + bufferedTokens paragraphs) (startChar st)
      (charOffset st + length (buffered paragraphs)).
Proof.
  revert st. induction paragraphs as [|para rest IH]; intros st Hfit.
  - cbn. rewrite app_nil_r, !Nat.add_0_r. by destruct st.
  - cbn [foldl]. cbn [bufferedTokens sum_list_with] in Hfit.
    fold (bufferedTokens rest) in Hfit.
    assert (paragraphStep st para
            = append st (para ++ [LF; LF]) (countTokens (para ++ [LF; LF])))
      as ->.
    { unfold Chunker.paragraphStep.
      destruct (Z.ltb_spec maxTokens
                  (Z.of_nat (currentTokens st + countTokens (para ++ [LF; LF]))));
        [lia|].
      cbn [andb].
      destruct (Z.ltb_spec maxTokens
                  (Z.of_nat (countTokens (para ++ [LF; LF])))); [lia|done]. }
    rewrite IH by (cbn; lia). cbn [append chunks currentContent currentTokens
                                    startChar charOffset].
    unfold buffered. cbn [fmap list_fmap concat].
    rewrite (length_app (para ++ [LF; LF])), <- !app_assoc.
    change (bufferedTokens (para :: rest))
      with (countTokens (para ++ [LF; LF]) + bufferedTokens rest).
    f_equal; lia.
Qed.

End Small.
End ChunkerSmall.


(** ** How far a chunk can exceed [maxTokens] *)

Module ChunkerBound.
Import Chunker ChunkerFacts.

(** The units [sentences[i] + (sentences[i + 1] || "")] of the sentence
    loop. *)
Fixpoint sentenceUnits (sentences : list utf16) : list utf16 :=
  match sentences with
  | [] => []
  | [piece] => [piece]
  | piece :: delimiter :: rest => (piece ++ delimiter) :: sentenceUnits rest
  end.

Section Bound.
Variable encode : utf16 -> list nat.
Variable decode : list nat -> utf16.
Variable maxTokens overlapTokens : Z.

Local Abbreviation countTokens := (countTokens encode).
Local Abbreviation getOverlapText :=
  (getOverlapText encode decode overlapTokens).
Local Abbreviation flushChunk := (flushChunk encode decode overlapTokens).
Local Abbreviation sentenceStep :=
  (sentenceStep encode decode maxTokens overlapTokens).
Local Abbreviation sentenceLoop :=
  (sentenceLoop encode decode maxTokens overlapTokens).
Local Abbreviation paragraphStep :=
  (paragraphStep encode decode maxTokens overlapTokens).

(** A paragraph that takes the sentence-splitting branch. *)
Definition oversized (para : utf16) : bool :=
  (maxTokens <? Z.of_nat (countTokens (para ++ [LF; LF])))%Z.

(** The pieces a paragraph is appended in. *)
Definition atomicUnits (para : utf16) : list utf16 :=
  if oversized para
  then sentenceUnits (splitSentences para []) ++ [[LF; LF]]
  else [para ++ [LF; LF]].

(** The sentence units of the paragraphs that take the sentence-splitting
    branch. *)
Definition splitUnits (paragraphs : list utf16) : list utf16 :=
  flat_map (fun para =>
              if oversized para then sentenceUnits (splitSentences para [])
              else [])
    paragraphs.

(** The largest token count of such a unit, 0 when there is none. *)
Definition longestUnit (paragraphs : list utf16) : nat :=
  max_list_with countTokens (splitUnits paragraphs).

Lemma longestUnit_le paragraphs para :
  para ∈ paragraphs -> oversized para = true ->
  Forall (fun s => countTokens s <= longestUnit paragraphs)
    (sentenceUnits (splitSentences para [])).
Proof.
  intros Hin Hover. apply Forall_forall. intros s Hs.
  assert (s ∈ splitUnits paragraphs) as Hu.
  { unfold splitUnits. apply list_elem_of_In, in_flat_map.
    exists para. split; [by apply list_elem_of_In|].
    rewrite Hover. by apply list_elem_of_In. }
  unfold longestUnit. clear Hs Hin Hover.
  induction Hu as [s l|s t l _ IH]; simpl; lia.
Qed.

Definition blankCost (u : utf16) : nat :=
  if blank u then countTokens u else 0.

(** The tokens counted for pieces that hold white space only. *)
Definition blankTokens (units : list utf16) : nat :=
  sum_list_with blankCost units.

Lemma sentenceLoop_units st sentences :
  sentenceLoop st sentences = foldl sentenceStep st (sentenceUnits sentences).
Proof.
  enough ((forall st, sentenceLoop st sentences
                      = foldl sentenceStep st (sentenceUnits sentences)) /\
          (forall x st, sentenceLoop st (x :: sentences)
                        = foldl sentenceStep st (sentenceUnits (x :: sentences))))
    as [H _] by apply H.
  clear st. induction sentences as [|a rest [IH1 IH2]].
  - split; [done|]. intros x st. done.
  - split; [apply IH2|]. intros x st.
    cbn [Chunker.sentenceLoop sentenceUnits foldl]. apply IH1.
Qed.

Variable K kappa U : nat.
Hypothesis max_nonneg : (0 <= maxTokens)%Z.
Hypothesis overlap_bound : forall x, countTokens (getOverlapText x) <= K.
Hypothesis density : forall x, countTokens x <= kappa * length x.

(** What a buffer can hold beyond [maxTokens] before a paragraph is added:
    the overlap it was seeded with, or a buffer too short to be flushed. *)
Definition slack : Z :=
  Z.max (Z.of_nat K) (Z.of_nat kappa * (overlapTokens + 10)).

(** What one piece can count: a paragraph that is appended whole has at
    most [maxTokens] tokens, a sentence unit at most [U]. *)
Definition top : Z := Z.max maxTokens (Z.of_nat U).

Definition bound (bs : nat) : Z := (top + slack + Z.of_nat bs)%Z.

Record Inv (st : State) (bs : nat) : Prop := mkInv {
  inv_chunks :
    Forall (fun ch => (Z.of_nat (TextChunk.tokenCount ch) <= bound bs)%Z)
      (chunks st);
  inv_cur : (Z.of_nat (currentTokens st) <= bound bs)%Z;
  inv_blank : blank (currentContent st) = true -> currentTokens st <= K + bs;
  inv_len : currentTokens st <= kappa * length (currentContent st)
}.

Lemma slack_K : (Z.of_nat K <= slack)%Z.
Proof. unfold slack. lia. Qed.

Lemma top_max : (maxTokens <= top)%Z.
Proof. unfold top. lia. Qed.

Lemma flush_inv st bs :
  Inv st bs ->
  Inv (flushChunk st) bs /\ currentTokens (flushChunk st) <= K + bs.
Proof.
  intros [Hch Hcur Hbl Hlen]. unfold Chunker.flushChunk.
  destruct (trim (currentContent st)) as [|u rest] eqn:Ht.
  - apply trim_nil in Ht. split; [by constructor | by apply Hbl].
  - cbn [currentTokens]. pose proof (overlap_bound (currentContent st)).
    pose proof slack_K. pose proof top_max.
    split; [|lia]. constructor; cbn.
    + unfold pushChunk. apply Forall_app. split; [done|].
      apply Forall_singleton. done.
    + unfold bound. lia.
    + intros _. lia.
    + apply density.
Qed.

Lemma append_inv st bs u :
  Inv st bs ->
  blank u = true \/
  ((Z.of_nat (countTokens u) <= top)%Z /\
   ((Z.of_nat (currentTokens st + countTokens u) <= maxTokens)%Z \/
    (Z.of_nat (currentTokens st) <= slack + Z.of_nat bs)%Z)) ->
  Inv (append st u (countTokens u)) (bs + blankCost u).
Proof.
  intros [Hch Hcur Hbl Hlen] Hu. pose proof slack_K. pose proof top_max.
  pose proof (density u) as Hd. unfold blankCost.
  constructor; cbn [append chunks currentContent currentTokens].
  - eapply Forall_impl; [exact Hch|]. intros ch. cbn. unfold bound. lia.
  - unfold bound in *. destruct (blank u) eqn:Hb; [lia|].
    destruct Hu as [?|[? [?|?]]]; [done|lia|lia].
  - rewrite blank_app. intros [Hc Hb]%andb_true_iff. rewrite Hb.
    specialize (Hbl Hc). lia.
  - rewrite length_app. lia.
Qed.

Lemma sentenceStep_inv st bs s :
  Inv st bs -> countTokens s <= U ->
  Inv (sentenceStep st s) (bs + blankCost s).
Proof.
  intros HI Hs'. unfold Chunker.sentenceStep. pose proof slack_K.
  assert (Z.of_nat (countTokens s) <= top)%Z as Hs by (unfold top; lia).
  destruct (Z.ltb_spec maxTokens
              (Z.of_nat (currentTokens st + countTokens s))).
  - destruct (flush_inv st bs HI) as [HI' Hc].
    apply append_inv; [done|]. right. split; [done|]. right. lia.
  - apply append_inv; [done|]. right. split; [done|]. by left.
Qed.

Lemma foldl_sentenceStep_inv st bs units :
  Inv st bs ->
  Forall (fun s => countTokens s <= U) units ->
  Inv (foldl sentenceStep st units) (bs + blankTokens units).
Proof.
  intros HI Hunits. revert st bs HI.
  induction Hunits as [|s units Hs _ IH]; intros st bs HI.
  - cbn. by rewrite Nat.add_0_r.
  - cbn [foldl blankTokens sum_list_with]. fold (blankTokens units).
    rewrite Nat.add_assoc. apply IH. by apply sentenceStep_inv.
Qed.

Lemma paragraphStep_inv st bs para :
  Inv st bs ->
  (oversized para = true ->
   Forall (fun s => countTokens s <= U)
     (sentenceUnits (splitSentences para []))) ->
  Inv (paragraphStep st para) (bs + blankTokens (atomicUnits para)).
Proof.
  intros HI Hsent. unfold Chunker.paragraphStep, atomicUnits.
  set (paraTokens := countTokens (para ++ [LF; LF])).
  set (st1 := if (_ && _) then flushChunk st else st).
  assert (Inv st1 bs /\
          ((Z.of_nat (currentTokens st1 + paraTokens) <= maxTokens)%Z \/
           (Z.of_nat (currentTokens st1) <= slack + Z.of_nat bs)%Z))
    as [HI1 Hroom].
  { subst st1. pose proof slack_K.
    destruct (Z.ltb_spec maxTokens (Z.of_nat (currentTokens st + paraTokens)));
      [|split; [done|by left]].
    destruct (Z.ltb_spec (overlapTokens + 10)
                (Z.of_nat (length (currentContent st)))); cbn [andb].
    - destruct (flush_inv st bs HI) as [HI' Hc]. split; [done|]. right. lia.
    - split; [done|]. right. pose proof (inv_len _ _ HI). unfold slack. nia. }
  clearbody st1. unfold oversized in *. fold paraTokens in Hsent |- *.
  destruct (Z.ltb_spec maxTokens (Z.of_nat paraTokens)) as [Hover|Hfits].
  - set (st2 := if _ <? _ then flushChunk st1 else st1).
    assert (Inv st2 bs) as HI2.
    { subst st2. destruct (_ <? _); [|done]. by apply flush_inv. }
    clearbody st2. rewrite sentenceLoop_units.
    unfold blankTokens. rewrite sum_list_with_app. cbn [sum_list_with].
    fold (blankTokens (sentenceUnits (splitSentences para []))).
    rewrite Nat.add_0_r, Nat.add_assoc.
    apply append_inv; [|by left].
    apply foldl_sentenceStep_inv; [done|]. by apply Hsent.
  - unfold blankTokens. cbn [sum_list_with]. rewrite Nat.add_0_r.
    pose proof top_max.
    apply append_inv; [done|]. right. split; [lia|done].
Qed.

Lemma foldl_paragraphStep_inv st bs paragraphs :
  Inv st bs ->
  (forall para, para ∈ paragraphs -> oversized para = true ->
     Forall (fun s => countTokens s <= U)
       (sentenceUnits (splitSentences para []))) ->
  Inv (foldl paragraphStep st paragraphs)
    (bs + blankTokens (flat_map atomicUnits paragraphs)).
Proof.
  revert st bs. induction paragraphs as [|para rest IH]; intros st bs HI Hs.
  - cbn. by rewrite Nat.add_0_r.
  - cbn [foldl flat_map]. unfold blankTokens. rewrite sum_list_with_app.
    fold (blankTokens (atomicUnits para)).
    fold (blankTokens (flat_map atomicUnits rest)).
    rewrite Nat.add_assoc. apply IH.
    + apply paragraphStep_inv; [done|]. apply Hs. left.
    + intros p Hp. apply Hs. by right.
Qed.

End Bound.
End ChunkerBound.

Module ChunkerBoundProps.
Import Chunker ChunkerFacts ChunkerBound.


(** The stand-in encoder meets the two assumptions with K = 5, kappa = 1. *)
Lemma unit_overlap_bound x :
  countTokens unitEncode (getOverlapText unitEncode unitDecode 5 x) <= 5.
Proof.
  unfold getOverlapText, countTokens, unitEncode, unitDecode, sliceFrom.
  rewrite !length_fmap.
  destruct (Z.leb_spec (Z.of_nat (length x)) 5).
  - lia.
  - rewrite length_fmap, length_drop, length_fmap.
    change (- (5) <? 0)%Z with true. lia.
Qed.

Lemma unit_density x : countTokens unitEncode x <= 1 * length x.
Proof. unfold countTokens, unitEncode. rewrite length_fmap. lia. Qed.

Definition LFLF : utf16 := [LF; LF].

(** Three paragraphs of 26 letters. *)
Definition threeParagraphs : utf16 :=
  ascii "aaaaaaaaaaaaaaaaaaaaaaaaaa" ++ LFLF
  ++ ascii "bbbbbbbbbbbbbbbbbbbbbbbbbb" ++ LFLF
  ++ ascii "cccccccccccccccccccccccccc".

Lemma threeParagraphs_fit para :
  para ∈ splitParagraphs (replaceCRLF threeParagraphs) ->
  oversized unitEncode 30 para = false.
Proof.
  vm_compute splitParagraphs. intros H.
  repeat (apply elem_of_cons in H as [->|H]; [reflexivity|]).
  by apply elem_of_nil in H.
Qed.

(** One paragraph of two lines, 36 and 37 letters: with [maxTokens = 30]
    each line exceeds the limit on its own. *)
Definition twoLongLines : utf16 :=
  ascii "aaaaaaaaaaaaaaaaaaaaaaaaaaaaaaaaaaaa" ++ [LF]
  ++ ascii "bbbbbbbbbbbbbbbbbbbbbbbbbbbbbbbbbbbbb".



End ChunkerBoundProps.

(* ===================================================================== *)
(** * Further properties of the chunker *)
(* ===================================================================== *)

(** ** What [trim] leaves *)

Module TrimFacts.
Import Chunker ChunkerFacts.

(** A string that is not empty and has no white space at either end. *)
Definition edgeClean (s : utf16) : Prop :=
  exists u v, head s = Some u /\ last s = Some v /\
              isWhiteSpace u = false /\ isWhiteSpace v = false.

Lemma trimStart_head s u rest :
  trimStart s = u :: rest -> isWhiteSpace u = false.
Proof.
  induction s as [|x s IH]; cbn; [done|].
  destruct (isWhiteSpace x) eqn:Hx; [exact IH|].
  intros [= <- _]. exact Hx.
Qed.

Lemma trimStart_suffix s : trimStart s `suffix_of` s.
Proof.
  induction s as [|x s IH]; cbn; [done|].
  destruct (isWhiteSpace x); [by apply suffix_cons_r | done].
Qed.

Lemma suffix_last {A} (b l : list A) x :
  b `suffix_of` l -> last b = Some x -> last l = Some x.
Proof. intros [k ->] Hb. by rewrite last_app, Hb. Qed.

Lemma trim_length s : length (trim s) <= length s.
Proof.
  unfold trim. rewrite length_reverse.
  etrans; [apply suffix_length, trimStart_suffix|].
  rewrite length_reverse. apply suffix_length, trimStart_suffix.
Qed.

Lemma trim_edgeClean s : trim s <> [] -> edgeClean (trim s).
Proof.
  unfold trim. intros Hne.
  destruct (trimStart (reverse (trimStart s))) as [|v b] eqn:Hb; [done|].
  pose proof (trimStart_head _ _ _ Hb) as Hv.
  pose proof (trimStart_suffix (reverse (trimStart s))) as Hsuf.
  rewrite Hb in Hsuf.
  destruct (last (v :: b)) as [u|] eqn:Hlast;
    [|by apply last_None in Hlast].
  pose proof (suffix_last _ _ _ Hsuf Hlast) as Hu.
  rewrite last_reverse in Hu.
  destruct (trimStart s) as [|u' a] eqn:Ha; [done|].
  cbn in Hu. injection Hu as ->.
  exists u, v. rewrite head_reverse, last_reverse.
  split; [done|]. split; [done|]. split; [|done].
  by apply (trimStart_head _ _ _ Ha).
Qed.

End TrimFacts.

(** ** Properties kept by every step of [chunk] *)

Module ChunkerShape.
Import Chunker ChunkerFacts ChunkerBound TrimFacts.

Section Shape.
Variable encode : utf16 -> list nat.
Variable decode : list nat -> utf16.
Variable maxTokens overlapTokens : Z.

Local Abbreviation countTokens := (countTokens encode).
Local Abbreviation getOverlapText :=
  (getOverlapText encode decode overlapTokens).
Local Abbreviation flushChunk := (flushChunk encode decode overlapTokens).
Local Abbreviation sentenceStep :=
  (sentenceStep encode decode maxTokens overlapTokens).
Local Abbreviation sentenceLoop :=
  (sentenceLoop encode decode maxTokens overlapTokens).
Local Abbreviation paragraphStep :=
  (paragraphStep encode decode maxTokens overlapTokens).
Local Abbreviation chunk := (chunk encode decode maxTokens overlapTokens).

(** The state of [chunk] changes by flushes and appends only. *)
Section Keeps.
Variable P : State -> Prop.
Hypothesis P_flush : forall st, P st -> P (flushChunk st).
Hypothesis P_append : forall st s tokens, P st -> P (append st s tokens).

Lemma sentenceStep_keeps st s : P st -> P (sentenceStep st s).
Proof.
  intros H. unfold Chunker.sentenceStep. apply P_append.
  destruct (_ <? _)%Z; [by apply P_flush | done].
Qed.

Lemma foldl_sentenceStep_keeps st units :
  P st -> P (foldl sentenceStep st units).
Proof.
  revert st. induction units as [|u units IH]; intros st H; [done|].
  cbn [foldl]. by apply IH, sentenceStep_keeps.
Qed.

Lemma paragraphStep_keeps st para : P st -> P (paragraphStep st para).
Proof.
  intros H. unfold Chunker.paragraphStep.
  set (st1 := if (_ && _) then _ else _).
  assert (P st1) as H1.
  { subst st1. destruct (_ && _); [by apply P_flush | done]. }
  clearbody st1. destruct (_ <? _)%Z; [|by apply P_append].
  apply P_append. rewrite sentenceLoop_units.
  apply foldl_sentenceStep_keeps.
  destruct (_ <? _); [by apply P_flush | done].
Qed.

Lemma foldl_paragraphStep_keeps st paragraphs :
  P st -> P (foldl paragraphStep st paragraphs).
Proof.
  revert st. induction paragraphs as [|para rest IH]; intros st H; [done|].
  cbn [foldl]. by apply IH, paragraphStep_keeps.
Qed.

End Keeps.

(** The state [chunk] ends its loop in. *)
Definition finalState (text : utf16) : State :=
  foldl paragraphStep (mkState [] [] 0 0 0)
    (splitParagraphs (replaceCRLF text)).

Lemma chunk_cases text :
  chunk text = chunks (finalState text) \/
  (trim (currentContent (finalState text)) <> [] /\
   chunk text = pushChunk (finalState text)).
Proof.
  unfold Chunker.chunk. fold (finalState text).
  destruct (trim (currentContent (finalState text))) eqn:Ht; [by left|].
  destruct (20 <? _); [by right | by left].
Qed.

Lemma flushChunk_cases st :
  flushChunk st = st \/
  (trim (currentContent st) <> [] /\
   flushChunk st
   = mkState (pushChunk st) (getOverlapText (currentContent st))
       (countTokens (getOverlapText (currentContent st)))
       (Z.of_nat (charOffset st)
        - Z.of_nat (length (getOverlapText (currentContent st))))
       (charOffset st)).
Proof.
  unfold Chunker.flushChunk.
  destruct (trim (currentContent st)) eqn:Ht; [by left | by right].
Qed.

(** *** Numbering *)

Definition numbered (l : list TextChunk.t) : Prop :=
  TextChunk.index <$> l = seq 0 (length l).

Lemma numbered_push st :
  numbered (chunks st) -> numbered (pushChunk st).
Proof.
  unfold numbered, pushChunk. intros H.
  rewrite fmap_app, length_app, seq_app, H. by cbn.
Qed.

Lemma numbered_final text : numbered (chunks (finalState text)).
Proof.
  apply (foldl_paragraphStep_keeps (fun st => numbered (chunks st)));
    [| done | done].
  intros st H. destruct (flushChunk_cases st) as [-> | [_ ->]]; [done|].
  by apply numbered_push.
Qed.

(** *** Contents *)

Definition cleanChunks (l : list TextChunk.t) : Prop :=
  Forall (fun c => edgeClean (TextChunk.content c)) l.

Lemma cleanChunks_push st :
  trim (currentContent st) <> [] ->
  cleanChunks (chunks st) -> cleanChunks (pushChunk st).
Proof.
  intros Hne H. apply Forall_app. split; [done|].
  constructor; [|done]. by apply trim_edgeClean.
Qed.

Lemma cleanChunks_final text : cleanChunks (chunks (finalState text)).
Proof.
  apply (foldl_paragraphStep_keeps (fun st => cleanChunks (chunks st)));
    [| done | constructor].
  intros st H. destruct (flushChunk_cases st) as [-> | [Hne ->]]; [done|].
  by apply cleanChunks_push.
Qed.

(** *** Spans *)

Definition covered (c : TextChunk.t) : Prop :=
  (Z.of_nat (length (TextChunk.content c))
   <= Z.of_nat (TextChunk.endChar c) - TextChunk.startChar c)%Z.

Record Span (st : State) : Prop := mkSpan {
  span_buffer :
    (Z.of_nat (charOffset st) - startChar st
     = Z.of_nat (length (currentContent st)))%Z;
  span_chunks : Forall covered (chunks st);
  span_first :
    match chunks st with
    | [] => startChar st = 0%Z
    | c :: _ => TextChunk.startChar c = 0%Z
    end
}.

Lemma span_push st : Span st -> Forall covered (pushChunk st).
Proof.
  intros [Hb Hc _]. apply Forall_app. split; [done|].
  constructor; [|done]. unfold covered. cbn.
  pose proof (trim_length (currentContent st)). lia.
Qed.

Lemma span_push_first st :
  Span st ->
  match pushChunk st with
  | [] => False
  | c :: _ => TextChunk.startChar c = 0%Z
  end.
Proof.
  intros [_ _ Hf]. unfold pushChunk. by destruct (chunks st).
Qed.

Lemma span_final text : Span (finalState text).
Proof.
  apply (foldl_paragraphStep_keeps Span).
  - intros st H. destruct (flushChunk_cases st) as [-> | [_ ->]]; [done|].
    pose proof (span_push_first st H) as Hf.
    split; cbn [chunks currentContent startChar charOffset].
    + lia.
    + by apply span_push.
    + by destruct (pushChunk st).
  - intros st s tokens [Hb Hc Hf].
    split; cbn [append chunks currentContent startChar charOffset];
      [rewrite length_app; lia | done | done].
  - split; cbn; [lia | constructor | done].
Qed.

(** *** End offsets *)

Definition ascending (l : list nat) : Prop :=
  forall i j x y, i <= j -> l !! i = Some x -> l !! j = Some y -> x <= y.

Lemma ascending_snoc l z :
  ascending l -> Forall (fun x => x <= z) l -> ascending (l ++ [z]).
Proof.
  intros Hl Hz i j x y Hij Hi Hj.
  destruct (decide (j < length l)) as [Hlt|Hge].
  - rewrite lookup_app_l in Hi, Hj by lia. eauto.
  - assert (y = z) as ->.
    { rewrite lookup_app_r in Hj by lia.
      destruct (j - length l) as [|n]; cbn in Hj;
        [congruence | by destruct n]. }
    destruct (decide (i < length l)).
    + rewrite lookup_app_l in Hi by lia.
      rewrite Forall_forall in Hz. apply Hz.
      by eapply list_elem_of_lookup_2.
    + rewrite lookup_app_r in Hi by lia.
      destruct (i - length l) as [|m]; cbn in Hi; [|by destruct m].
      injection Hi as ->. lia.
Qed.

Record Ends (st : State) : Prop := mkEnds {
  ends_ascending : ascending (TextChunk.endChar <$> chunks st);
  ends_below : Forall (fun x => x <= charOffset st)
                 (TextChunk.endChar <$> chunks st)
}.

Lemma ends_push st :
  Ends st ->
  ascending (TextChunk.endChar <$> pushChunk st) /\
  Forall (fun x => x <= charOffset st) (TextChunk.endChar <$> pushChunk st).
Proof.
  intros [Ha Hb]. unfold pushChunk. rewrite fmap_app. cbn. split.
  - by apply ascending_snoc.
  - apply Forall_app. split; [done|]. by constructor.
Qed.

Lemma ends_final text : Ends (finalState text).
Proof.
  apply (foldl_paragraphStep_keeps Ends).
  - intros st H. destruct (flushChunk_cases st) as [-> | [_ ->]]; [done|].
    destruct (ends_push st H). by split.
  - intros st s tokens [Ha Hb]. split; [done|].
    cbn [append chunks charOffset].
    eapply Forall_impl; [exact Hb|]. cbn. lia.
  - split; cbn; [|constructor]. intros i j x y _ Hi. done.
Qed.

End Shape.
End ChunkerShape.

(** ** The text a run of [chunk] consumes *)

Module ChunkerText.
Import Chunker ChunkerFacts ChunkerSmall ChunkerBound ChunkerShape.

(** A sentence unit: text free of delimiters, closed by at most one. *)
Definition unitShape (u : utf16) : Prop :=
  exists body tail,
    u = body ++ tail /\
    Forall (fun x => isSentenceEnd x = false) body /\
    (tail = [] \/ exists d, tail = [d] /\ isSentenceEnd d = true).

Lemma splitSentences_concat s piece :
  concat (sentenceUnits (splitSentences s piece)) = piece ++ s.
Proof.
  revert piece. induction s as [|u rest IH]; intros piece.
  - cbn. by rewrite !app_nil_r.
  - cbn [splitSentences]. destruct (isSentenceEnd u).
    + cbn [sentenceUnits concat]. rewrite IH. cbn. by rewrite <- app_assoc.
    + rewrite IH. by rewrite <- app_assoc.
Qed.

Lemma splitSentences_shape s piece :
  Forall (fun x => isSentenceEnd x = false) piece ->
  Forall unitShape (sentenceUnits (splitSentences s piece)).
Proof.
  revert piece. induction s as [|u rest IH]; intros piece Hp.
  - cbn. constructor; [|done]. exists piece, []. rewrite app_nil_r. eauto.
  - cbn [splitSentences]. destruct (isSentenceEnd u) eqn:Hu.
    + cbn [sentenceUnits]. constructor; [|by apply IH].
      exists piece, [u]. eauto 6.
    + apply IH. apply Forall_app. split; [done|]. by constructor.
Qed.

Lemma replaceCRLF_unfold u v rest :
  replaceCRLF (u :: v :: rest)
  = if ((u =? CR) && (v =? LF))%N then LF :: replaceCRLF rest
    else u :: replaceCRLF (v :: rest).
Proof. reflexivity. Qed.

Lemma splitBlankLines_unfold u v rest piece :
  splitBlankLines (u :: v :: rest) piece false
  = if ((u =? LF) && (v =? LF))%N then piece :: splitBlankLines rest [] true
    else splitBlankLines (v :: rest) (piece ++ [u]) false.
Proof. reflexivity. Qed.

Lemma elem_of_replaceCRLF s x : x ∈ replaceCRLF s -> x ∈ s.
Proof.
  remember (length s) as n eqn:Hn. revert s Hn.
  induction n as [n IH] using lt_wf_ind. intros s ->.
  destruct s as [|u [|v rest]]; [done|done|]. rewrite replaceCRLF_unfold.
  destruct ((u =? CR) && (v =? LF))%N eqn:Hcr.
  - apply andb_true_iff in Hcr as [_ Hv%N.eqb_eq]. subst v.
    rewrite !elem_of_cons. intros [->|H]; [by auto|].
    right; right. by apply (IH (length rest)); [cbn; lia|..].
  - rewrite (elem_of_cons _ x u), (elem_of_cons _ x u). intros [->|H]; [by auto|].
    right. by apply (IH (length (v :: rest))); [cbn; lia|..].
Qed.

Lemma blank_Forall s : blank s = true <-> Forall (fun x => isWhiteSpace x = true) s.
Proof.
  unfold blank. rewrite forallb_forall, Forall_forall.
  by setoid_rewrite list_elem_of_In.
Qed.

Lemma replaceCRLF_blank s : blank s = true -> blank (replaceCRLF s) = true.
Proof.
  rewrite !blank_Forall, !Forall_forall. intros H x Hx.
  by apply H, elem_of_replaceCRLF.
Qed.

Lemma splitBlankLines_blank s piece inBreak :
  blank s = true -> blank piece = true ->
  Forall (fun para => blank para = true) (splitBlankLines s piece inBreak).
Proof.
  remember (length s) as n eqn:Hn. revert s piece inBreak Hn.
  induction n as [n IH] using lt_wf_ind. intros s piece inBreak -> Hs Hp.
  destruct s as [|u rest]; [by repeat constructor|].
  assert (isWhiteSpace u = true /\ blank rest = true) as [Hu Hrest].
  { cbn in Hs. by apply andb_true_iff in Hs. }
  assert (blank (piece ++ [u]) = true) as Hpu.
  { rewrite blank_app, Hp. cbn. by rewrite Hu. }
  assert (splitBlankLines (u :: rest) piece inBreak
          = if inBreak && (u =? LF)%N then splitBlankLines rest piece true
            else splitBlankLines (u :: rest) piece false) as ->.
  { destruct inBreak; cbn [andb]; [|done].
    cbn [splitBlankLines andb]. by destruct (u =? LF)%N. }
  destruct (inBreak && (u =? LF)%N).
  { by apply (IH (length rest)); [cbn; lia|..]. }
  destruct rest as [|v rest']; [by repeat constructor|].
  rewrite splitBlankLines_unfold.
  destruct ((u =? LF) && (v =? LF))%N.
  - constructor; [done|].
    apply (IH (length rest')); [cbn; lia | done | | done].
    cbn in Hrest. by apply andb_true_iff in Hrest as [_ ?].
  - by apply (IH (length (v :: rest'))); [cbn; lia|..].
Qed.

Lemma splitSentences_blank s piece :
  blank s = true -> blank piece = true ->
  Forall (fun u => blank u = true) (sentenceUnits (splitSentences s piece)).
Proof.
  revert piece. induction s as [|u rest IH]; intros piece Hs Hp.
  - by repeat constructor.
  - cbn in Hs. apply andb_true_iff in Hs as [Hu Hrest].
    assert (blank (piece ++ [u]) = true) as Hpu.
    { rewrite blank_app, Hp. cbn. by rewrite Hu. }
    cbn [splitSentences]. destruct (isSentenceEnd u).
    + cbn [sentenceUnits]. constructor; [done|]. by apply IH.
    + by apply IH.
Qed.

Section Text.
Variable encode : utf16 -> list nat.
Variable decode : list nat -> utf16.
Variable maxTokens overlapTokens : Z.

Local Abbreviation countTokens := (countTokens encode).
Local Abbreviation flushChunk := (flushChunk encode decode overlapTokens).
Local Abbreviation sentenceStep :=
  (sentenceStep encode decode maxTokens overlapTokens).
Local Abbreviation paragraphStep :=
  (paragraphStep encode decode maxTokens overlapTokens).

Lemma flushChunk_charOffset st : charOffset (flushChunk st) = charOffset st.
Proof.
  by destruct (flushChunk_cases encode decode overlapTokens st)
    as [-> | [_ ->]].
Qed.

Lemma foldl_sentenceStep_charOffset st units :
  charOffset (foldl sentenceStep st units)
  = charOffset st + length (concat units).
Proof.
  revert st. induction units as [|u units IH]; intros st; [cbn; lia|].
  cbn [foldl concat]. rewrite IH, length_app.
  unfold Chunker.sentenceStep. cbn [append charOffset].
  destruct (_ <? _)%Z; [rewrite flushChunk_charOffset|]; lia.
Qed.

Lemma paragraphStep_charOffset st para :
  charOffset (paragraphStep st para) = charOffset st + length (para ++ [LF; LF]).
Proof.
  unfold Chunker.paragraphStep.
  set (st1 := if (_ && _) then _ else _).
  assert (charOffset st1 = charOffset st) as H1.
  { subst st1. destruct (_ && _); [apply flushChunk_charOffset | done]. }
  clearbody st1. destruct (_ <? _)%Z.
  - cbn [append charOffset]. rewrite sentenceLoop_units.
    rewrite foldl_sentenceStep_charOffset, splitSentences_concat.
    rewrite !length_app. cbn [app length].
    destruct (_ <? _); [rewrite flushChunk_charOffset|]; lia.
  - cbn [append charOffset]. lia.
Qed.

Lemma foldl_paragraphStep_charOffset st paragraphs :
  charOffset (foldl paragraphStep st paragraphs)
  = charOffset st + length (buffered paragraphs).
Proof.
  revert st. induction paragraphs as [|para rest IH]; intros st; [cbn; lia|].
  cbn [foldl]. rewrite IH, paragraphStep_charOffset.
  unfold buffered. cbn [fmap list_fmap concat]. rewrite (length_app (para ++ _)).
  lia.
Qed.

Lemma foldl_sentenceStep_quiet st units :
  Quiet st -> Forall (fun u => blank u = true) units ->
  Quiet (foldl sentenceStep st units).
Proof.
  intros HQ Hu. revert st HQ. induction Hu as [|u units Hb _ IH]; intros st HQ;
    [done|].
  cbn [foldl]. by apply IH, sentenceStep_quiet.
Qed.

Lemma paragraphStep_blank st para :
  Quiet st -> blank para = true -> Quiet (paragraphStep st para).
Proof.
  intros HQ Hp. unfold Chunker.paragraphStep. rewrite (flush_quiet _ _ _ _ HQ).
  set (st1 := if (_ && _) then _ else _).
  assert (Quiet st1) as HQ1 by (subst st1; by destruct (_ && _)).
  clearbody st1. destruct (_ <? _)%Z.
  - apply append_quiet; [|done]. rewrite sentenceLoop_units.
    apply foldl_sentenceStep_quiet; [|by apply splitSentences_blank].
    rewrite (flush_quiet _ _ _ _ HQ1). by destruct (_ <? _).
  - apply append_quiet; [done|]. by rewrite blank_app, Hp.
Qed.

Lemma foldl_paragraphStep_blank st paragraphs :
  Quiet st -> Forall (fun para => blank para = true) paragraphs ->
  Quiet (foldl paragraphStep st paragraphs).
Proof.
  intros HQ Hp. revert st HQ. induction Hp as [|p ps Hb _ IH]; intros st HQ;
    [done|].
  cbn [foldl]. by apply IH, paragraphStep_blank.
Qed.

End Text.
End ChunkerText.

(** ** Documents shorter than the overlap, one token per code unit *)

Module ChunkerShort.
Import Chunker ChunkerFacts ChunkerSmall ChunkerBound ChunkerText.

(** What [chunk] returns when the document is never flushed: the buffer,
    i.e. the paragraphs of the normalised text each followed by two line
    feeds, as the only chunk; nothing when the buffer is blank or not longer
    than 20 code units. *)
Definition unflushed (encode : utf16 -> list nat) (paragraphs : list utf16)
    : list TextChunk.t :=
  if negb (blank (buffered paragraphs)) && (20 <? length (buffered paragraphs))
  then [TextChunk.mk 0 (trim (buffered paragraphs))
          (bufferedTokens encode paragraphs) 0 (length (buffered paragraphs))]
  else [].

Lemma chunk_unflushed encode decode maxTokens overlapTokens text :
  foldl (paragraphStep encode decode maxTokens overlapTokens)
    (mkState [] [] 0 0 0) (splitParagraphs (replaceCRLF text))
  = mkState [] (buffered (splitParagraphs (replaceCRLF text)))
      (bufferedTokens encode (splitParagraphs (replaceCRLF text))) 0
      (length (buffered (splitParagraphs (replaceCRLF text)))) ->
  chunk encode decode maxTokens overlapTokens text
  = unflushed encode (splitParagraphs (replaceCRLF text)).
Proof.
  intros Hrun. unfold chunk, unflushed. rewrite Hrun.
  set (paragraphs := splitParagraphs (replaceCRLF text)).
  cbn [chunks currentContent currentTokens startChar charOffset].
  destruct (blank (buffered paragraphs)) eqn:Hb; cbn [negb andb].
  - by rewrite (trim_blank _ Hb).
  - destruct (trim_not_blank _ Hb) as (u & rest & Ht). rewrite Ht.
    destruct (20 <? length (buffered paragraphs)); [|done].
    unfold pushChunk.
    cbn [chunks currentContent currentTokens startChar charOffset app length].
    by rewrite Ht.
Qed.

Lemma replaceCRLF_length s : length (replaceCRLF s) <= length s.
Proof.
  remember (length s) as n eqn:Hn. revert s Hn.
  induction n as [n IH] using lt_wf_ind. intros s ->.
  destruct s as [|u [|v rest]]; [done|done|]. rewrite replaceCRLF_unfold.
  destruct ((u =? CR) && (v =? LF))%N.
  - pose proof (IH (length rest) ltac:(cbn; lia) rest eq_refl). cbn. lia.
  - pose proof (IH (length (v :: rest)) ltac:(cbn; lia) (v :: rest) eq_refl).
    cbn in *. lia.
Qed.

Lemma buffered_cons para rest :
  length (buffered (para :: rest)) = length para + 2 + length (buffered rest).
Proof.
  unfold buffered. cbn [fmap list_fmap concat]. rewrite !length_app. cbn. lia.
Qed.

Lemma splitBlankLines_length s piece inBreak :
  length (buffered (splitBlankLines s piece inBreak))
  <= length piece + length s + 2.
Proof.
  remember (length s) as n eqn:Hn. revert s piece inBreak Hn.
  induction n as [n IH] using lt_wf_ind. intros s piece inBreak ->.
  destruct s as [|u rest].
  { cbn [splitBlankLines]. rewrite buffered_cons. cbn. lia. }
  assert (splitBlankLines (u :: rest) piece inBreak
          = if inBreak && (u =? LF)%N then splitBlankLines rest piece true
            else splitBlankLines (u :: rest) piece false) as ->.
  { destruct inBreak; cbn [andb]; [|done].
    cbn [splitBlankLines andb]. by destruct (u =? LF)%N. }
  destruct (inBreak && (u =? LF)%N).
  { pose proof (IH (length rest) ltac:(cbn; lia) rest piece true eq_refl).
    cbn [length]. lia. }
  destruct rest as [|v rest'].
  { cbn [splitBlankLines andb]. rewrite buffered_cons, length_app. cbn. lia. }
  rewrite splitBlankLines_unfold.
  destruct ((u =? LF) && (v =? LF))%N.
  - rewrite buffered_cons.
    pose proof (IH (length rest') ltac:(cbn; lia) rest' [] true eq_refl).
    cbn [length] in *. lia.
  - pose proof (IH (length (v :: rest')) ltac:(cbn; lia) (v :: rest')
                  (piece ++ [u]) false eq_refl) as H.
    rewrite length_app in H. cbn [length] in *. lia.
Qed.

Lemma buffered_length text :
  length (buffered (splitParagraphs (replaceCRLF text))) <= length text + 2.
Proof.
  unfold splitParagraphs.
  pose proof (splitBlankLines_length (replaceCRLF text) [] false).
  pose proof (replaceCRLF_length text). cbn [length] in *. lia.
Qed.

Lemma unit_countTokens x : countTokens unitEncode x = length x.
Proof. unfold countTokens, unitEncode. apply length_fmap. Qed.

Lemma unit_bufferedTokens paragraphs :
  bufferedTokens unitEncode paragraphs = length (buffered paragraphs).
Proof.
  induction paragraphs as [|para rest IH]; [done|].
  rewrite buffered_cons, <- IH.
  change (bufferedTokens unitEncode (para :: rest))
    with (countTokens unitEncode (para ++ [LF; LF])
          + bufferedTokens unitEncode rest).
  rewrite unit_countTokens, length_app. cbn [length]. lia.
Qed.

Section Short.
Variable maxTokens overlapTokens : Z.
Hypothesis overlap_le_max : (overlapTokens <= maxTokens)%Z.

Local Abbreviation sentenceStep :=
  (sentenceStep unitEncode unitDecode maxTokens overlapTokens).
Local Abbreviation paragraphStep :=
  (paragraphStep unitEncode unitDecode maxTokens overlapTokens).

Lemma unit_sentences_fit units st :
  (Z.of_nat (currentTokens st + length (concat units)) <= maxTokens)%Z ->
  foldl sentenceStep st units
  = mkState (chunks st) (currentContent st ++ concat units)
      (currentTokens st + length (concat units)) (startChar st)
      (charOffset st + length (concat units)).
Proof.
  revert st. induction units as [|s units IH]; intros st Hfit.
  - cbn. rewrite app_nil_r, !Nat.add_0_r. by destruct st.
  - cbn [foldl concat] in *. rewrite length_app in Hfit.
    assert (sentenceStep st s = append st s (length s)) as ->.
    { unfold Chunker.sentenceStep. rewrite unit_countTokens.
      by destruct (Z.ltb_spec maxTokens
                     (Z.of_nat (currentTokens st + length s))); [lia|]. }
    rewrite IH by (cbn; lia).
    cbn [append chunks currentContent currentTokens startChar charOffset].
    rewrite length_app, <- app_assoc. f_equal; lia.
Qed.

Lemma unit_paragraphStep_short st para :
  currentTokens st = length (currentContent st) ->
  (Z.of_nat (length (currentContent st) + length para) < overlapTokens)%Z ->
  paragraphStep st para
  = append st (para ++ [LF; LF]) (countTokens unitEncode (para ++ [LF; LF])).
Proof.
  intros Hsync Hshort. unfold Chunker.paragraphStep.
  destruct (Z.ltb_spec (overlapTokens + 10)
              (Z.of_nat (length (currentContent st)))); [lia|].
  rewrite andb_false_r.
  destruct (Z.ltb_spec maxTokens
              (Z.of_nat (countTokens unitEncode (para ++ [LF; LF]))));
    [|done].
  assert (getOverlapText unitEncode unitDecode overlapTokens
            (currentContent st) = currentContent st) as ->.
  { unfold getOverlapText.
    fold (countTokens unitEncode (currentContent st)).
    rewrite unit_countTokens.
    by destruct (Z.leb_spec (Z.of_nat (length (currentContent st)))
                   overlapTokens); [|lia]. }
  rewrite unit_countTokens.
  destruct (Nat.ltb_spec (length (currentContent st) + 10) (currentTokens st));
    [lia|].
  rewrite sentenceLoop_units, unit_sentences_fit;
    rewrite splitSentences_concat; cbn [app]; [|lia].
  rewrite !unit_countTokens. unfold append.
  cbn [chunks currentContent currentTokens startChar charOffset].
  rewrite !length_app, <- app_assoc. cbn [length]. f_equal; lia.
Qed.

Lemma unit_foldl_short paragraphs st :
  currentTokens st = length (currentContent st) ->
  (Z.of_nat (length (currentContent st) + length (buffered paragraphs))
   <= overlapTokens + 1)%Z ->
  foldl paragraphStep st paragraphs
  = mkState (chunks st) (currentContent st ++ buffered paragraphs)
      (currentTokens st + bufferedTokens unitEncode paragraphs) (startChar st)
      (charOffset st + length (buffered paragraphs)).
Proof.
  revert st. induction paragraphs as [|para rest IH]; intros st Hsync Hshort.
  - cbn. rewrite app_nil_r, !Nat.add_0_r. by destruct st.
  - cbn [foldl]. rewrite buffered_cons in Hshort.
    rewrite unit_paragraphStep_short by (done || lia).
    rewrite IH.
    + cbn [append chunks currentContent currentTokens startChar charOffset].
      rewrite buffered_cons.
      change (bufferedTokens unitEncode (para :: rest))
        with (countTokens unitEncode (para ++ [LF; LF])
              + bufferedTokens unitEncode rest).
      unfold buffered. cbn [fmap list_fmap concat].
      rewrite !length_app, <- !app_assoc. cbn [length]. f_equal; lia.
    + cbn [append currentContent currentTokens].
      rewrite unit_countTokens, !length_app. cbn [length]. lia.
    + cbn [append currentContent]. rewrite !length_app. cbn [length]. lia.
Qed.

Lemma unit_chunk_short text :
  (Z.of_nat (countTokens unitEncode text) < overlapTokens)%Z ->
  chunk unitEncode unitDecode maxTokens overlapTokens text
  = unflushed unitEncode (splitParagraphs (replaceCRLF text)).
Proof.
  intros Hshort. rewrite unit_countTokens in Hshort.
  pose proof (buffered_length text).
  apply chunk_unflushed. rewrite unit_foldl_short; [done|done|cbn; lia].
Qed.

End Short.
End ChunkerShort.

Module ChunkerSmallProps.
Import Chunker ChunkerFacts ChunkerSmall ChunkerBound ChunkerShort.


Definition shortNote : utf16 := ascii "abcdefghijklmnopqrstuvwx".


Definition twoLines : utf16 :=
  ascii "aaaaaaaaaaaa" ++ [LF] ++ ascii "bbbbbbbbbbbbbb".


End ChunkerSmallProps.

Module ChunkerShapeProps.
Import Chunker ChunkerFacts ChunkerSmall ChunkerBound.
Import TrimFacts ChunkerShape ChunkerText.

(** X1. The chunks returned by [chunk] are numbered 0, 1, 2, ... in the
    order in which they are returned: the field [index] of a chunk is its
    position in the result. *)
Theorem chunk_indices_count_from_zero
    (encode : utf16 -> list nat) (decode : list nat -> utf16)
    (maxTokens overlapTokens : Z) (text : utf16) :
  TextChunk.index <$> chunk encode decode maxTokens overlapTokens text
  = seq 0 (length (chunk encode decode maxTokens overlapTokens text)).
Proof.
  destruct (chunk_cases encode decode maxTokens overlapTokens text)
    as [-> | [_ ->]].
  - apply numbered_final.
  - apply numbered_push, numbered_final.
Qed.

(** X2. No chunk returned by [chunk] has empty content, and the content of
    a chunk neither starts nor ends with white space. *)
Theorem chunk_contents_are_trimmed
    (encode : utf16 -> list nat) (decode : list nat -> utf16)
    (maxTokens overlapTokens : Z) (text : utf16) :
  Forall (fun c => TextChunk.content c <> [] /\ edgeClean (TextChunk.content c))
    (chunk encode decode maxTokens overlapTokens text).
Proof.
  assert (cleanChunks (chunk encode decode maxTokens overlapTokens text)) as H.
  { destruct (chunk_cases encode decode maxTokens overlapTokens text)
      as [-> | [Hne ->]].
    - apply cleanChunks_final.
    - apply cleanChunks_push; [done | apply cleanChunks_final]. }
  eapply Forall_impl; [exact H|]. intros c Hc. split; [|done].
  destruct Hc as (u & _ & Hhead & _). by destruct (TextChunk.content c).
Qed.

(** X3. The span [startChar, endChar) recorded for a chunk is at least as
    long as the chunk's content, and the first chunk starts at offset 0. *)
Theorem chunk_span_covers_content
    (encode : utf16 -> list nat) (decode : list nat -> utf16)
    (maxTokens overlapTokens : Z) (text : utf16) :
  let result := chunk encode decode maxTokens overlapTokens text in
  Forall covered result /\
  match result with
  | [] => True
  | first :: _ => TextChunk.startChar first = 0%Z
  end.
Proof.
  cbn zeta.
  pose proof (span_final encode decode maxTokens overlapTokens text) as HS.
  destruct (chunk_cases encode decode maxTokens overlapTokens text)
    as [-> | [_ ->]].
  - destruct HS as [_ Hc Hf]. split; [done|].
    by destruct (chunks (finalState _ _ _ _ text)).
  - split; [by apply span_push|].
    pose proof (span_push_first _ HS). by destruct (pushChunk _).
Qed.

(** X4. The end offsets of the chunks never decrease from one chunk to the
    next, and none exceeds the total length of the paragraphs of the
    normalised text, each counted with the two line feeds appended to it. *)
Theorem chunk_end_offsets_ascend
    (encode : utf16 -> list nat) (decode : list nat -> utf16)
    (maxTokens overlapTokens : Z) (text : utf16) :
  let ends :=
    TextChunk.endChar <$> chunk encode decode maxTokens overlapTokens text in
  ascending ends /\
  Forall (fun x =>
            x <= length (buffered (splitParagraphs (replaceCRLF text)))) ends.
Proof.
  cbn zeta.
  pose proof (ends_final encode decode maxTokens overlapTokens text) as HE.
  assert (charOffset (finalState encode decode maxTokens overlapTokens text)
          = length (buffered (splitParagraphs (replaceCRLF text)))) as Hoff.
  { unfold finalState. by rewrite foldl_paragraphStep_charOffset. }
  rewrite <- Hoff.
  destruct (chunk_cases encode decode maxTokens overlapTokens text)
    as [-> | [_ ->]].
  - by destruct HE.
  - by apply ends_push.
Qed.

(** X5. A text that holds white space only (spaces, tabs, line ends) yields
    no chunk, whatever the token limits. *)
Theorem chunk_blank_document
    (encode : utf16 -> list nat) (decode : list nat -> utf16)
    (maxTokens overlapTokens : Z) (text : utf16) :
  blank text = true ->
  chunk encode decode maxTokens overlapTokens text = [].
Proof.
  intros Hb. unfold chunk.
  destruct (foldl_paragraphStep_blank encode decode maxTokens overlapTokens
              (mkState [] [] 0 0 0) (splitParagraphs (replaceCRLF text)))
    as [Hc Hq]; [done | |].
  - by apply splitBlankLines_blank; [apply replaceCRLF_blank|].
  - by rewrite (trim_blank _ Hq).
Qed.

Lemma chunk_blank_document_witness :
  blank (ascii "  " ++ [CR; LF; LF; 9%N; LF; LF; LF] ++ ascii " ") = true /\
  chunk unitEncode unitDecode 3 1
    (ascii "  " ++ [CR; LF; LF; 9%N; LF; LF; LF] ++ ascii " ") = [].
Proof.
  split; [reflexivity|].
  apply (chunk_blank_document unitEncode unitDecode 3 1). reflexivity.
Defined.

(** X6. The units the sentence loop appends for a paragraph are the
    paragraph itself, cut after each sentence delimiter: joined in order they
    give back the paragraph, and a delimiter occurs in a unit only as its
    last code unit. *)
Theorem sentence_units_partition (para : utf16) :
  let units := sentenceUnits (splitSentences para []) in
  concat units = para /\ Forall unitShape units.
Proof.
  cbn zeta. split.
  - apply (splitSentences_concat para []).
  - by apply splitSentences_shape.
Qed.

(** X7. [getOverlapText] with [overlapTokens] of at least 1 returns the text
    itself when it has no more than [overlapTokens] tokens, and otherwise
    the decoding of its last [overlapTokens] tokens. With [overlapTokens]
    equal to 0 the slice [tokens.slice(-0)] is the whole array: a text with
    at least one token is carried over whole (re-decoded), so under a
    tokenizer that decodes what it encoded a flush keeps the entire buffer. *)
Theorem overlap_keeps_last_tokens
    (encode : utf16 -> list nat) (decode : list nat -> utf16)
    (overlapTokens : Z) (text : utf16) :
  let tokens := encode text in
  ((1 <= overlapTokens)%Z ->
   length (drop (length tokens - Z.to_nat overlapTokens) tokens)
   = Nat.min (Z.to_nat overlapTokens) (length tokens) /\
   getOverlapText encode decode overlapTokens text
   = if (Z.of_nat (length tokens) <=? overlapTokens)%Z then text
     else decode (drop (length tokens - Z.to_nat overlapTokens) tokens)) /\
  getOverlapText encode decode 0 text
  = (if length tokens =? 0 then text else decode tokens) /\
  ((forall x, decode (encode x) = x) ->
   getOverlapText encode decode 0 text = text).
Proof.
  cbn zeta.
  assert (getOverlapText encode decode 0 text
          = if length (encode text) =? 0 then text else decode (encode text))
    as Hzero.
  { unfold getOverlapText.
    destruct (Z.leb_spec (Z.of_nat (length (encode text))) 0);
      destruct (Nat.eqb_spec (length (encode text)) 0); try lia; [done|].
    unfold sliceFrom. cbn. by rewrite Z.min_l by lia. }
  split; [|split; [exact Hzero|]].
  - intros Hov. split; [rewrite length_drop; lia|].
    unfold getOverlapText.
    destruct (Z.leb_spec (Z.of_nat (length (encode text))) overlapTokens);
      [done|].
    unfold sliceFrom.
    destruct (Z.ltb_spec (- overlapTokens) 0); [|lia].
    do 2 f_equal. lia.
  - intros Hloss. rewrite Hzero, Hloss. by destruct (_ =? _).
Qed.

Lemma unit_lossless x : unitDecode (unitEncode x) = x.
Proof.
  unfold unitDecode, unitEncode. rewrite <- list_fmap_compose.
  rewrite <- (list_fmap_id x) at 2. apply list_fmap_ext.
  intros _ u _. cbn. apply N2Nat.id.
Qed.

Lemma overlap_keeps_last_tokens_witness :
  (1 <= 2)%Z /\
  getOverlapText unitEncode unitDecode 2 (ascii "abcde") = ascii "de" /\
  (forall x, unitDecode (unitEncode x) = x) /\
  getOverlapText unitEncode unitDecode 0 (ascii "abcde") = ascii "abcde".
Proof.
  split; [lia|].
  pose proof (overlap_keeps_last_tokens unitEncode unitDecode 2 (ascii "abcde"))
    as [H2 _].
  pose proof (overlap_keeps_last_tokens unitEncode unitDecode 0 (ascii "abcde"))
    as (_ & _ & H0).
  split; [exact (proj2 (H2 ltac:(lia)))|].
  split; [exact unit_lossless | exact (H0 unit_lossless)].
Defined.

End ChunkerShapeProps.

(* ===================================================================== *)
(** * Properties of the first chunker *)
(* ===================================================================== *)

Module LegacyChunkerFacts.
Import Chunker ChunkerFacts ChunkerSmall TrimFacts ChunkerShape.

Section Legacy.
Variable encode : utf16 -> list nat.
Variable decode : list nat -> utf16.
Variable maxTokens overlapTokens : Z.

Local Abbreviation countTokens := (countTokens encode).
Local Abbreviation paragraphStep :=
  (LegacyChunker.paragraphStep encode decode maxTokens overlapTokens).

Lemma legacy_foldl_paragraphStep_fits paragraphs st :
  (Z.of_nat (LegacyChunker.currentTokens st + bufferedTokens encode paragraphs)
   <= maxTokens)%Z ->
  foldl paragraphStep st paragraphs
  = LegacyChunker.mkState (LegacyChunker.chunks st)
      (LegacyChunker.currentContent st ++ buffered paragraphs)
      (LegacyChunker.currentTokens st + bufferedTokens encode paragraphs)
      (LegacyChunker.startChar st)
      (LegacyChunker.charOffset st + length (buffered paragraphs)).
Proof.
  revert st. induction paragraphs as [|para rest IH]; intros st Hfit.
  - cbn. rewrite app_nil_r, !Nat.add_0_r. by destruct st.
  - cbn [foldl].
    change (bufferedTokens encode (para :: rest))
      with (countTokens (para ++ [LF; LF]) + bufferedTokens encode rest)
      in Hfit |- *.
    assert (paragraphStep st para
            = LegacyChunker.mkState (LegacyChunker.chunks st)
                (LegacyChunker.currentContent st ++ para ++ [LF; LF])
                (LegacyChunker.currentTokens st + countTokens (para ++ [LF; LF]))
                (LegacyChunker.startChar st)
                (LegacyChunker.charOffset st + length (para ++ [LF; LF])))
      as ->.
    { unfold LegacyChunker.paragraphStep.
      destruct (Z.ltb_spec maxTokens
                  (Z.of_nat (LegacyChunker.currentTokens st
                             + countTokens (para ++ [LF; LF])))); [lia|].
      done. }
    rewrite IH by (cbn; lia). cbn.
    unfold buffered. cbn [fmap list_fmap concat].
    rewrite (length_app (para ++ [LF; LF])), <- !app_assoc.
    f_equal; lia.
Qed.

(** What every iteration of the loop keeps. *)
Record Shape (st : LegacyChunker.State) : Prop := mkShape {
  shape_numbered : numbered (LegacyChunker.chunks st);
  shape_buffer :
    (Z.of_nat (LegacyChunker.charOffset st) - LegacyChunker.startChar st
     = Z.of_nat (length (LegacyChunker.currentContent st)))%Z;
  shape_covered : Forall covered (LegacyChunker.chunks st);
  shape_ascending :
    ascending (TextChunk.endChar <$> LegacyChunker.chunks st);
  shape_below :
    Forall (fun x => x <= LegacyChunker.charOffset st)
      (TextChunk.endChar <$> LegacyChunker.chunks st)
}.

(** The chunk pushed from state [st]. *)
Definition pushed (st : LegacyChunker.State) : list TextChunk.t :=
  LegacyChunker.chunks st
    ++ [TextChunk.mk (length (LegacyChunker.chunks st))
          (trim (LegacyChunker.currentContent st))
          (LegacyChunker.currentTokens st) (LegacyChunker.startChar st)
          (LegacyChunker.charOffset st)].

Lemma shape_pushed st :
  Shape st ->
  numbered (pushed st) /\ Forall covered (pushed st) /\
  ascending (TextChunk.endChar <$> pushed st) /\
  Forall (fun x => x <= LegacyChunker.charOffset st)
    (TextChunk.endChar <$> pushed st).
Proof.
  intros [Hn Hb Hc Ha Hl]. unfold pushed. repeat split.
  - unfold numbered in *. rewrite fmap_app, length_app, seq_app, Hn. by cbn.
  - apply Forall_app. split; [done|]. constructor; [|done].
    unfold covered. cbn.
    pose proof (trim_length (LegacyChunker.currentContent st)). lia.
  - rewrite fmap_app. by apply ascending_snoc.
  - rewrite fmap_app. apply Forall_app. split; [done|]. by constructor.
Qed.

Lemma paragraphStep_shape st para : Shape st -> Shape (paragraphStep st para).
Proof.
  intros HS. unfold LegacyChunker.paragraphStep.
  destruct (_ && _).
  - destruct (shape_pushed st HS) as (Hn & Hc & Ha & Hl).
    split; cbn [LegacyChunker.chunks LegacyChunker.currentContent
                  LegacyChunker.startChar LegacyChunker.charOffset];
      fold (pushed st); [done | | done | done |].
    + rewrite !length_app. lia.
    + eapply Forall_impl; [exact Hl|]. cbn. lia.
  - destruct HS as [Hn Hb Hc Ha Hl].
    split; cbn [LegacyChunker.chunks LegacyChunker.currentContent
                  LegacyChunker.startChar LegacyChunker.charOffset];
      [done | | done | done |].
    + rewrite !length_app. lia.
    + eapply Forall_impl; [exact Hl|]. cbn. lia.
Qed.

Lemma foldl_paragraphStep_shape st paragraphs :
  Shape st -> Shape (foldl paragraphStep st paragraphs).
Proof.
  revert st. induction paragraphs as [|para rest IH]; intros st H; [done|].
  cbn [foldl]. by apply IH, paragraphStep_shape.
Qed.

End Legacy.
End LegacyChunkerFacts.

Module LegacyChunkerProps.
Import Chunker ChunkerFacts ChunkerSmall TrimFacts ChunkerShape.
Import LegacyChunkerFacts.

(** X8. When the paragraphs of a document, each with its paragraph break,
    add up to no more than [maxTokens] tokens, the first chunker returns one
    chunk from offset 0 unless the buffer is blank, in which case it returns
    nothing. The content of the chunk is the buffer trimmed: the paragraphs
    of the normalised text (CR LF replaced by LF) re-joined with two line
    feeds each, so a longer run of line feeds between two paragraphs comes
    out as two. The chunker of the pipeline returns the same for such a
    document when the buffer is longer than 20 code units, and nothing
    otherwise. *)
Theorem legacy_chunk_whole_document
    (encode : utf16 -> list nat) (decode : list nat -> utf16)
    (maxTokens overlapTokens : Z) (text : utf16) :
  let paragraphs := splitParagraphs (replaceCRLF text) in
  (Z.of_nat (bufferedTokens encode paragraphs) <= maxTokens)%Z ->
  LegacyChunker.chunk encode decode maxTokens overlapTokens text
  = (if blank (buffered paragraphs) then []
     else [TextChunk.mk 0 (trim (buffered paragraphs))
             (bufferedTokens encode paragraphs) 0
             (length (buffered paragraphs))]) /\
  chunk encode decode maxTokens overlapTokens text
  = if 20 <? length (buffered paragraphs)
    then LegacyChunker.chunk encode decode maxTokens overlapTokens text
    else [].
Proof.
  intros paragraphs Hfit.
  assert (LegacyChunker.chunk encode decode maxTokens overlapTokens text
          = if blank (buffered paragraphs) then []
            else [TextChunk.mk 0 (trim (buffered paragraphs))
                    (bufferedTokens encode paragraphs) 0
                    (length (buffered paragraphs))]) as Hlegacy.
  { unfold LegacyChunker.chunk. fold paragraphs.
    rewrite legacy_foldl_paragraphStep_fits by (cbn; lia).
    cbn [LegacyChunker.chunks LegacyChunker.currentContent
           LegacyChunker.currentTokens LegacyChunker.startChar
           LegacyChunker.charOffset app Nat.add length].
    destruct (blank (buffered paragraphs)) eqn:Hb.
    - by rewrite (trim_blank _ Hb).
    - destruct (trim_not_blank _ Hb) as (u & rest & Ht). by rewrite Ht. }
  split; [exact Hlegacy|]. rewrite Hlegacy.
  unfold chunk. fold paragraphs.
  rewrite ChunkerSmall.foldl_paragraphStep_fits by (cbn; lia).
  cbn [chunks currentContent currentTokens startChar charOffset app Nat.add].
  destruct (blank (buffered paragraphs)) eqn:Hb.
  - rewrite (trim_blank _ Hb). by destruct (20 <? _).
  - destruct (trim_not_blank _ Hb) as (u & rest & Ht). rewrite Ht.
    destruct (20 <? length (buffered paragraphs)); [|done].
    unfold pushChunk.
    cbn [chunks currentContent currentTokens startChar charOffset app length].
    by rewrite Ht.
Qed.

Lemma legacy_chunk_whole_document_witness :
  (Z.of_nat (bufferedTokens unitEncode
               (splitParagraphs (replaceCRLF (ascii "hi")))) <= 30)%Z /\
  LegacyChunker.chunk unitEncode unitDecode 30 5 (ascii "hi")
  = [TextChunk.mk 0 (ascii "hi") 4 0 4] /\
  chunk unitEncode unitDecode 30 5 (ascii "hi") = [].
Proof.
  split; [vm_compute; discriminate|].
  exact (legacy_chunk_whole_document unitEncode unitDecode 30 5 (ascii "hi")
           ltac:(vm_compute; discriminate)).
Defined.

(** Two paragraphs separated by four line feeds come out re-joined with
    two. *)
Example legacy_chunk_rejoins_paragraphs :
  LegacyChunker.chunk unitEncode unitDecode 30 5
    (ascii "ab" ++ [LF; LF; LF; LF] ++ ascii "cd")
  = [TextChunk.mk 0 (ascii "ab" ++ [LF; LF] ++ ascii "cd") 8 0 8].
Proof. vm_compute. reflexivity. Qed.

(** X9. The chunks returned by the first chunker are numbered 0, 1, 2, ...
    in order; the span recorded for each is at least as long as its content;
    and the end offsets never decrease from one chunk to the next. *)
Theorem legacy_chunk_numbering_and_spans
    (encode : utf16 -> list nat) (decode : list nat -> utf16)
    (maxTokens overlapTokens : Z) (text : utf16) :
  let result := LegacyChunker.chunk encode decode maxTokens overlapTokens text in
  TextChunk.index <$> result = seq 0 (length result) /\
  Forall covered result /\
  ascending (TextChunk.endChar <$> result).
Proof.
  cbn zeta. unfold LegacyChunker.chunk.
  set (st := foldl _ _ _).
  assert (Shape st) as HS.
  { apply foldl_paragraphStep_shape.
    split; cbn; [done | lia | constructor | | constructor].
    intros i j x y _ Hi. done. }
  clearbody st.
  destruct (trim (LegacyChunker.currentContent st)) eqn:Ht.
  - destruct HS. by repeat split.
  - rewrite <- Ht. destruct (shape_pushed st HS) as (Hn & Hc & Ha & _).
    by repeat split.
Qed.

End LegacyChunkerProps.

(* ===================================================================== *)
(** * Further properties of the merge stage *)
(* ===================================================================== *)

(** ** Which relations the pipeline merge keeps *)

Module RelationFacts.
Import MergeCore MergeFacts MergeProps.

(** Both ends of [r] are local ids of the chunk with the events [es]. *)
Definition isLocal (es : list Event.t) (r : CausalRelation.t) : Prop :=
  CausalRelation.fromEventId r ∈ (Event.id <$> es) /\
  CausalRelation.toEventId r ∈ (Event.id <$> es).

#[global] Instance isLocal_dec es r : Decision (isLocal es r).
Proof. unfold isLocal. apply _. Defined.

(** [r'] is [r] with each end replaced by the global id given to an event
    of the chunk ([es], numbered from [o]) that has the end's local id. *)
Definition Link (es : list Event.t) (o : nat) (r r' : CausalRelation.t)
    : Prop :=
  CausalRelation.strength r' = CausalRelation.strength r /\
  CausalRelation.description r' = CausalRelation.description r /\
  (exists k e, es !! k = Some e /\
               Event.id e = CausalRelation.fromEventId r /\
               CausalRelation.fromEventId r' = globalId (o + k)) /\
  (exists k e, es !! k = Some e /\
               Event.id e = CausalRelation.toEventId r /\
               CausalRelation.toEventId r' = globalId (o + k)).

(** The first global number of each chunk. *)
Fixpoint offsets (start : nat) (analyses : list ChunkAnalysis.t) : list nat :=
  match analyses with
  | [] => []
  | a :: rest =>
      start :: offsets (start + length (ChunkAnalysis.events a)) rest
  end.

(** The relations with both ends local, each with its chunk's events and
    first global number. *)
Definition localRelations (start : nat) (analyses : list ChunkAnalysis.t)
    : list (list Event.t * nat * CausalRelation.t) :=
  concat
    ((fun '(a, o) =>
        (fun r => (ChunkAnalysis.events a, o, r))
          <$> filter (isLocal (ChunkAnalysis.events a))
                (ChunkAnalysis.causalRelations a))
       <$> zip analyses (offsets start analyses)).

Definition LinkTagged (t : list Event.t * nat * CausalRelation.t)
    (r' : CausalRelation.t) : Prop :=
  Link t.1.1 t.1.2 t.2 r'.

Lemma foldl_eventStep_None st es local :
  chunkEventIdMap (foldl eventStep st es) !! local = None <->
  chunkEventIdMap st !! local = None /\ local ∉ (Event.id <$> es).
Proof.
  revert st. induction es as [|e es IH]; intros st; cbn [foldl].
  - cbn. split; [intros ?; split; [done | apply not_elem_of_nil] | by intros []].
  - rewrite IH. cbn [eventStep chunkEventIdMap fmap list_fmap].
    rewrite not_elem_of_cons.
    destruct (decide (Event.id e = local)) as [<-|Hne].
    + rewrite lookup_insert_eq. split; [by intros [? _] | by intros [_ [? _]]].
    + rewrite lookup_insert_ne by done. split; [|tauto].
      intros [? ?]. split; [done|]. split; [congruence | done].
Qed.

Lemma eventLoop_None counter out es local :
  chunkEventIdMap (eventLoop counter out es) !! local = None <->
  local ∉ (Event.id <$> es).
Proof.
  unfold eventLoop. rewrite foldl_eventStep_None. cbn.
  rewrite lookup_empty. tauto.
Qed.

Lemma truthy_globalId n : JS.truthy (Some (globalId n)) = true.
Proof. cbn. by rewrite globalId_nonempty. Qed.

Lemma relationStep_link counter out es acc r :
  exists added,
    Pipeline.relationStep (chunkEventIdMap (eventLoop counter out es)) acc r
    = acc ++ added /\
    Forall2 (Link es counter) (filter (isLocal es) [r]) added.
Proof.
  unfold Pipeline.relationStep.
  destruct (chunkEventIdMap (eventLoop counter out es)
              !! CausalRelation.fromEventId r) as [f|] eqn:Hf.
  - destruct (chunkEventIdMap (eventLoop counter out es)
                !! CausalRelation.toEventId r) as [g|] eqn:Hg.
    + pose proof (eventLoop_map _ _ _ _ _ Hf) as (kf & ef & Hkf & Hif & ->).
      pose proof (eventLoop_map _ _ _ _ _ Hg) as (kt & et & Hkt & Hit & ->).
      rewrite !truthy_globalId. cbn [andb].
      eexists [_]. split; [done|].
      rewrite filter_cons, decide_True, filter_nil.
      * constructor; [|constructor]. unfold Link. cbn.
        split; [done|]. split; [done|].
        split; [by exists kf, ef | by exists kt, et].
      * split; apply list_elem_of_fmap; eexists; (split; [symmetry; eassumption|]);
          by eapply list_elem_of_lookup_2.
    + exists []. rewrite app_nil_r. cbn [JS.truthy]. rewrite andb_false_r.
      split; [done|]. apply eventLoop_None in Hg.
      rewrite filter_cons, decide_False, filter_nil; [constructor|].
      by intros [_ ?].
  - exists []. rewrite app_nil_r. cbn [JS.truthy andb]. split; [done|].
    apply eventLoop_None in Hf.
    rewrite filter_cons, decide_False, filter_nil; [constructor|].
    by intros [? _].
Qed.

Lemma foldl_relationStep_link counter out es acc rs :
  exists added,
    foldl (Pipeline.relationStep (chunkEventIdMap (eventLoop counter out es)))
      acc rs = acc ++ added /\
    Forall2 (Link es counter) (filter (isLocal es) rs) added.
Proof.
  revert acc. induction rs as [|r rs IH]; intros acc.
  - exists []. rewrite app_nil_r. split; [done | constructor].
  - cbn [foldl].
    destruct (relationStep_link counter out es acc r) as (a1 & -> & H1).
    destruct (IH (acc ++ a1)) as (a2 & -> & H2).
    exists (a1 ++ a2). rewrite app_assoc. split; [done|].
    change (r :: rs) with ([r] ++ rs). rewrite filter_app.
    by apply Forall2_app.
Qed.

Lemma foldl_analysisStep_link st analyses :
  exists added,
    Pipeline.relations_acc (foldl Pipeline.analysisStep st analyses)
    = Pipeline.relations_acc st ++ added /\
    Forall2 LinkTagged (localRelations (Pipeline.counter st) analyses) added.
Proof.
  revert st. induction analyses as [|a rest IH]; intros st.
  - exists []. rewrite app_nil_r. split; [done | constructor].
  - cbn [foldl]. destruct (IH (Pipeline.analysisStep st a)) as (a2 & -> & H2).
    cbn [Pipeline.analysisStep Pipeline.relations_acc Pipeline.counter] in *.
    destruct (foldl_relationStep_link (Pipeline.counter st)
                (Pipeline.events_acc st) (ChunkAnalysis.events a)
                (Pipeline.relations_acc st) (ChunkAnalysis.causalRelations a))
      as (a1 & -> & H1).
    exists (a1 ++ a2). rewrite app_assoc. split; [done|].
    unfold localRelations. cbn [offsets zip zip_with fmap list_fmap concat].
    apply Forall2_app.
    + apply Forall2_fmap_l. eapply Forall2_impl; [exact H1|]. done.
    + destruct (eventLoop_spec (Pipeline.counter st) (Pipeline.events_acc st)
                  (ChunkAnalysis.events a)) as [Hc _].
      rewrite Hc in H2. exact H2.
Qed.

End RelationFacts.

(** ** Local ids are resolved against the events of the same chunk only *)
Module MergeScope.
Import MergeCore MergeFacts MergeProps MergeScenarios RelationFacts.

(** [r'] is [r] with each end replaced by the global id of an event of the
    chunk (events [es], the first of them numbered [first]) that carries the
    end's local id; strength and description are kept. *)
Definition remapped (es : list Event.t) (first : nat)
    (r r' : CausalRelation.t) : Prop :=
  exists kf ef kt et,
    es !! kf = Some ef /\ Event.id ef = CausalRelation.fromEventId r /\
    es !! kt = Some et /\ Event.id et = CausalRelation.toEventId r /\
    r' = CausalRelation.mk (IdSpec.eventId (first + kf))
           (IdSpec.eventId (first + kt))
           (CausalRelation.strength r) (CausalRelation.description r).

(** [r] on the global id [global] at both ends. *)
Definition onEvent (global : string) (r : CausalRelation.t)
    : CausalRelation.t :=
  CausalRelation.mk global global
    (CausalRelation.strength r) (CausalRelation.description r).

Lemma link_remapped es first r r' :
  Link es first r r' -> remapped es first r r'.
Proof.
  destruct r' as [f t s d]. unfold Link. cbn.
  intros (-> & -> & (kf & ef & Hkf & Hif & ->) & (kt & et & Hkt & Hit & ->)).
  exists kf, ef, kt, et. by rewrite !globalId_eventId.
Qed.

Lemma renumber_renamed start es :
  renumber start es
  = imap (fun k e => IdSpec.renamed e (IdSpec.eventId (start + k))) es.
Proof.
  unfold renumber. apply imap_ext. intros k e _. cbn.
  by rewrite globalId_eventId.
Qed.

Lemma pipeline_two_chunks a1 a2 globalCharacters :
  Pipeline.allRelations (Pipeline.mergeAnalyses [a1; a2] globalCharacters)
  = foldl
      (Pipeline.relationStep
         (chunkEventIdMap
            (eventLoop (1 + length (ChunkAnalysis.events a1))
               (renumber 1 (ChunkAnalysis.events a1))
               (ChunkAnalysis.events a2))))
      (foldl
         (Pipeline.relationStep
            (chunkEventIdMap (eventLoop 1 [] (ChunkAnalysis.events a1))))
         [] (ChunkAnalysis.causalRelations a1))
      (ChunkAnalysis.causalRelations a2).
Proof.
  cbn [Pipeline.mergeAnalyses Pipeline.allRelations Pipeline.mergeLoop
         foldl Pipeline.analysisStep Pipeline.counter Pipeline.events_acc
         Pipeline.relations_acc].
  by destruct (eventLoop_spec 1 [] (ChunkAnalysis.events a1)) as [-> ->].
Qed.

Lemma eventLoop_singleton counter out e :
  chunkEventIdMap (eventLoop counter out [e])
  = {[Event.id e := globalId counter]}.
Proof. cbn. by rewrite insert_empty. Qed.

End MergeScope.

Module MergeScopeProps.
Import MergeCore MergeFacts MergeProps MergeScenarios RelationFacts MergeScope.

#[local] Existing Instance MergeScenarios.within_dec.

(** C3. The pipeline merge builds the local-to-global id map afresh for
    each chunk. For two chunks with the events [es1] and [es2]: the events
    come out in chunk order under the ids E001, E002, ... (chunk 2 starting
    right after chunk 1); the relations of chunk 1 come first, then those of
    chunk 2; a relation is kept exactly when both its ends are local ids of
    events of its own chunk, and its ends are then the global ids given to
    events of that chunk, so an id that only the other chunk uses resolves
    to nothing. In the scenario of the specification, where each chunk emits
    one event with the local id E001, the events get the global ids E001 and
    E002, and a relation of chunk 2 on its local E001 comes out on the global
    E002, one of chunk 1 on the global E001. *)
Theorem merge_local_ids_are_chunk_scoped
    (a1 a2 : ChunkAnalysis.t) (globalCharacters : list Character.t) :
  let es1 := ChunkAnalysis.events a1 in
  let es2 := ChunkAnalysis.events a2 in
  let first2 := 1 + length es1 in
  let m := Pipeline.mergeAnalyses [a1; a2] globalCharacters in
  Pipeline.mAllEvents m
    = imap (fun k e => IdSpec.renamed e (IdSpec.eventId (1 + k))) es1
      ++ imap (fun k e => IdSpec.renamed e (IdSpec.eventId (first2 + k))) es2 /\
  (exists rels1 rels2,
      Pipeline.allRelations m = rels1 ++ rels2 /\
      Forall2 (remapped es1 1)
        (filter (isLocal es1) (ChunkAnalysis.causalRelations a1)) rels1 /\
      Forall2 (remapped es2 first2)
        (filter (isLocal es2) (ChunkAnalysis.causalRelations a2)) rels2) /\
  (forall e2, es2 = [e2] ->
      exists rels1,
        Pipeline.allRelations m
        = rels1 ++ (onEvent (IdSpec.eventId first2)
                      <$> filter (within (Event.id e2))
                            (ChunkAnalysis.causalRelations a2)) /\
        Forall2 (remapped es1 1)
          (filter (isLocal es1) (ChunkAnalysis.causalRelations a1)) rels1) /\
  (forall e1 e2,
      es1 = [e1] -> Event.id e1 = "E001" ->
      es2 = [e2] -> Event.id e2 = "E001" ->
      Pipeline.mAllEvents m
        = [IdSpec.renamed e1 "E001"; IdSpec.renamed e2 "E002"] /\
      Pipeline.allRelations m
        = (onEvent "E001"
             <$> filter (within "E001") (ChunkAnalysis.causalRelations a1))
          ++ (onEvent "E002"
                <$> filter (within "E001") (ChunkAnalysis.causalRelations a2))).
Proof.
  cbn zeta.
  assert (Pipeline.mAllEvents
            (Pipeline.mergeAnalyses [a1; a2] globalCharacters)
          = imap (fun k e => IdSpec.renamed e (IdSpec.eventId (1 + k)))
              (ChunkAnalysis.events a1)
            ++ imap (fun k e =>
                       IdSpec.renamed e
                         (IdSpec.eventId
                            (1 + length (ChunkAnalysis.events a1) + k)))
                 (ChunkAnalysis.events a2)) as Hevents.
  { rewrite pipeline_events. cbn [fmap list_fmap concat].
    rewrite app_nil_r, renumber_app. by rewrite !renumber_renamed. }
  destruct (foldl_relationStep_link 1 [] (ChunkAnalysis.events a1) []
              (ChunkAnalysis.causalRelations a1)) as (rels1 & Hr1 & Hl1).
  cbn [app] in Hr1.
  assert (Forall2 (remapped (ChunkAnalysis.events a1) 1)
            (filter (isLocal (ChunkAnalysis.events a1))
               (ChunkAnalysis.causalRelations a1)) rels1) as Hm1.
  { eapply Forall2_impl; [exact Hl1|]. apply link_remapped. }
  split; [exact Hevents|]. split; [|split].
  - destruct (foldl_relationStep_link
                (1 + length (ChunkAnalysis.events a1))
                (renumber 1 (ChunkAnalysis.events a1))
                (ChunkAnalysis.events a2) rels1
                (ChunkAnalysis.causalRelations a2)) as (rels2 & Hr2 & Hl2).
    exists rels1, rels2. rewrite pipeline_two_chunks, Hr1, Hr2.
    split; [done|]. split; [done|].
    eapply Forall2_impl; [exact Hl2|]. apply link_remapped.
  - intros e2 He2. exists rels1. split; [|done].
    rewrite pipeline_two_chunks, Hr1, He2, eventLoop_singleton.
    rewrite foldl_relationStep_singleton by apply globalId_nonempty.
    by rewrite globalId_eventId.
  - intros e1 e2 He1 Hid1 He2 Hid2. split.
    + rewrite Hevents, He1, He2. reflexivity.
    + rewrite pipeline_two_chunks, He1, He2, !eventLoop_singleton.
      rewrite Hid1, Hid2.
      rewrite !foldl_relationStep_singleton by apply globalId_nonempty.
      reflexivity.
Qed.

Lemma merge_local_ids_are_chunk_scoped_witness :
  let e1 := sampleEvent "E001" "arrival" in
  let e2 := sampleEvent "E001" "departure" in
  let r1 := CausalRelation.mk "E001" "E001" "strong" "causes" in
  let r2 := CausalRelation.mk "E001" "E001" "weak" "follows" in
  let m := Pipeline.mergeAnalyses
             [sampleChunk [e1] [r1]; sampleChunk [e2] [r2]] [] in
  Pipeline.mAllEvents m
    = [IdSpec.renamed e1 "E001"; IdSpec.renamed e2 "E002"] /\
  Pipeline.allRelations m
    = [CausalRelation.mk "E001" "E001" "strong" "causes";
       CausalRelation.mk "E002" "E002" "weak" "follows"].
Proof.
  exact (proj2 (proj2 (proj2
           (merge_local_ids_are_chunk_scoped
              (sampleChunk [sampleEvent "E001" "arrival"]
                 [CausalRelation.mk "E001" "E001" "strong" "causes"])
              (sampleChunk [sampleEvent "E001" "departure"]
                 [CausalRelation.mk "E001" "E001" "weak" "follows"]) [])))
           (sampleEvent "E001" "arrival") (sampleEvent "E001" "departure")
           eq_refl eq_refl eq_refl eq_refl).
Defined.

(** Chunk 1 emits the local ids E001 and E002, chunk 2 only E001. A relation
    of chunk 2 from E001 to E002 names an id that only chunk 1 uses: it is
    dropped, not resolved against chunk 1's event; the relation of chunk 2
    on its own E001 comes out on E003. *)
Example other_chunks_id_is_not_resolved :
  let m := Pipeline.mergeAnalyses
             [sampleChunk [sampleEvent "E001" "a"; sampleEvent "E002" "b"] [];
              sampleChunk [sampleEvent "E001" "c"]
                [CausalRelation.mk "E001" "E002" "weak" "follows";
                 CausalRelation.mk "E001" "E001" "strong" "causes"]] [] in
  Event.id <$> Pipeline.mAllEvents m = ["E001"; "E002"; "E003"] /\
  Pipeline.allRelations m
    = [CausalRelation.mk "E003" "E003" "strong" "causes"].
Proof. split; reflexivity. Qed.

End MergeScopeProps.

(** ** The character maps *)

Module CharacterFacts.
Import OrderedMapFacts.

Lemma set_fresh {V} (m : OrderedMap.t V) k v :
  k ∉ keys m -> OrderedMap.set m k v = m ++ [(k, v)].
Proof.
  induction m as [|[k' v'] m IH]; cbn; [done|].
  rewrite not_elem_of_cons. intros [Hne Hnin].
  destruct (String.eqb_spec k' k) as [->|_]; [done|].
  fold (keys m) in Hnin. by rewrite IH.
Qed.

Lemma get_set {V} (m : OrderedMap.t V) k k' v :
  OrderedMap.get (OrderedMap.set m k v) k'
  = if decide (k = k') then Some v else OrderedMap.get m k'.
Proof.
  case_decide as H; [subst; apply get_set_eq | by apply get_set_ne].
Qed.

Lemma keys_set_NoDup {V} (m : OrderedMap.t V) k v :
  NoDup (keys m) -> NoDup (keys (OrderedMap.set m k v)).
Proof.
  intros Hnd. rewrite keys_set. case_bool_decide; [done|].
  apply NoDup_app. split; [done|]. split; [|apply NoDup_singleton].
  by intros y Hy ->%list_elem_of_singleton.
Qed.

Lemma keys_set_elem {V} (m : OrderedMap.t V) k v x :
  x ∈ keys (OrderedMap.set m k v) <-> x ∈ keys m \/ x = k.
Proof.
  rewrite keys_set. case_bool_decide.
  - split; [tauto | intros [?| ->]; done].
  - rewrite elem_of_app, list_elem_of_singleton. tauto.
Qed.

Lemma filter_none {A} (P : A -> Prop) `{forall x, Decision (P x)} (l : list A) :
  Forall (fun x => ~ P x) l -> filter P l = [].
Proof.
  induction 1 as [|x l Hx _ IH]; [done|].
  by rewrite filter_cons, decide_False.
Qed.

(** *** The pipeline: [allCharacters.set(char.id, char)] *)

Definition putById (m : OrderedMap.t Character.t) (char : Character.t)
    : OrderedMap.t Character.t :=
  OrderedMap.set m (Character.id char) char.

Record Latest (m : OrderedMap.t Character.t) (seen : list Character.t)
    : Prop := mkLatest {
  latest_nodup : NoDup (keys m);
  latest_keys : forall id, id ∈ keys m <-> id ∈ (Character.id <$> seen);
  latest_get : forall id,
      OrderedMap.get m id
      = last (filter (fun c => Character.id c = id) seen)
}.

Lemma latest_step m seen char :
  Latest m seen -> Latest (putById m char) (seen ++ [char]).
Proof.
  intros [Hnd Hkeys Hget]. unfold putById. constructor.
  - by apply keys_set_NoDup.
  - intros id. rewrite keys_set_elem, fmap_app, elem_of_app, Hkeys. cbn.
    by rewrite list_elem_of_singleton.
  - intros id. rewrite get_set, filter_app, filter_cons, filter_nil.
    case_decide as H.
    + by rewrite last_snoc.
    + by rewrite app_nil_r.
Qed.

Lemma latest_foldl m seen chars :
  Latest m seen -> Latest (foldl putById m chars) (seen ++ chars).
Proof.
  revert m seen. induction chars as [|c chars IH]; intros m seen H;
    cbn [foldl].
  - by rewrite app_nil_r.
  - rewrite (cons_middle c), app_assoc. by apply IH, latest_step.
Qed.

Lemma distinct_foldl seen chars :
  NoDup (Character.id <$> (seen ++ chars)) ->
  foldl putById ((fun c => (Character.id c, c)) <$> seen) chars
  = (fun c => (Character.id c, c)) <$> (seen ++ chars).
Proof.
  revert seen. induction chars as [|c chars IH]; intros seen Hnd; cbn [foldl].
  - by rewrite app_nil_r.
  - rewrite (cons_middle c), app_assoc in Hnd |- *.
    rewrite <- IH by done. f_equal. unfold putById.
    rewrite set_fresh; [by rewrite fmap_app|].
    unfold keys. rewrite <- list_fmap_compose.
    rewrite !fmap_app in Hnd. apply NoDup_app in Hnd as [Hnd _].
    apply NoDup_app in Hnd as (_ & Hdis & _).
    intros Hin. apply (Hdis _ Hin). cbn. left.
Qed.

(** *** The reader: merge by name *)

Lemma arrayFromSet_foldl (acc xs : list string) :
  NoDup acc ->
  let out := foldl (fun acc x => if bool_decide (x ∈ acc) then acc
                                 else acc ++ [x]) acc xs in
  NoDup out /\ forall x, x ∈ out <-> x ∈ acc \/ x ∈ xs.
Proof.
  revert acc. induction xs as [|y xs IH]; intros acc Hnd; cbn zeta.
  - cbn. split; [done|]. intros x. rewrite elem_of_nil. tauto.
  - cbn [foldl]. case_bool_decide as Hy.
    + destruct (IH acc Hnd) as [H1 H2]. split; [done|].
      intros x. rewrite H2, elem_of_cons. split; [tauto|].
      intros [?|[->|?]]; tauto.
    + destruct (IH (acc ++ [y])) as [H1 H2].
      { apply NoDup_app. split; [done|]. split; [|apply NoDup_singleton].
        by intros z Hz ->%list_elem_of_singleton. }
      split; [done|]. intros x.
      rewrite H2, elem_of_app, list_elem_of_singleton, elem_of_cons. tauto.
Qed.

Lemma arrayFromSet_spec xs :
  NoDup (Reader.arrayFromSet xs) /\
  forall x, x ∈ Reader.arrayFromSet xs <-> x ∈ xs.
Proof.
  destruct (arrayFromSet_foldl [] xs) as [H1 H2]; [constructor|].
  split; [exact H1|]. intros x. unfold Reader.arrayFromSet.
  rewrite H2, elem_of_nil. tauto.
Qed.

(** What the entry stored under [name] holds of the characters [seen]. *)
Definition Entry (seen : list Reader.Character.t) (name : string)
    (c : Reader.Character.t) : Prop :=
  Reader.Character.name c = name /\
  (exists first,
      head (filter (fun ch => Reader.Character.name ch = name) seen)
      = Some first /\
      Reader.Character.description c = Reader.Character.description first /\
      Reader.Character.firstAppearance c
      = Reader.Character.firstAppearance first) /\
  (forall x, x ∈ Reader.Character.aliases c <->
             exists ch, ch ∈ seen /\ Reader.Character.name ch = name /\
                        x ∈ Reader.Character.aliases ch).

Record United (m : OrderedMap.t Reader.Character.t)
    (seen : list Reader.Character.t) : Prop := mkUnited {
  united_nodup : NoDup (keys m);
  united_keys :
    forall name, name ∈ keys m <-> name ∈ (Reader.Character.name <$> seen);
  united_entry :
    forall name c, OrderedMap.get m name = Some c -> Entry seen name c
}.

Lemma entry_other seen name c char :
  Reader.Character.name char <> name ->
  Entry seen name c -> Entry (seen ++ [char]) name c.
Proof.
  intros Hne (Hn & (first & Hf & Hd & Ha) & Hal). split; [done|]. split.
  - exists first. rewrite filter_app, filter_cons, filter_nil.
    rewrite decide_False by done. by rewrite app_nil_r.
  - intros x. rewrite Hal. split.
    + intros (ch & Hin & ?). exists ch. split; [|done].
      apply elem_of_app. by left.
    + intros (ch & [Hin|Hin%list_elem_of_singleton]%elem_of_app & Hname & ?).
      * by exists ch.
      * subst ch. done.
Qed.

Lemma united_step m seen char :
  United m seen -> United (Reader.characterStep m char) (seen ++ [char]).
Proof.
  intros [Hnd Hkeys Hentry]. unfold Reader.characterStep.
  destruct (OrderedMap.get m (Reader.Character.name char)) as [existing|]
    eqn:Hg.
  - assert (Reader.Character.name char ∈ keys m) as Hin.
    { apply has_keys. unfold OrderedMap.has. by rewrite Hg. }
    constructor.
    + by apply keys_set_NoDup.
    + intros name. rewrite keys_set_elem, fmap_app, elem_of_app, Hkeys. cbn.
      by rewrite list_elem_of_singleton.
    + intros name c. rewrite get_set. case_decide as Hname.
      * intros [= <-]. subst name.
        destruct (Hentry _ _ Hg) as (Hn & (first & Hf & Hd & Ha) & Hal).
        split; [done|]. split.
        -- exists first. rewrite filter_app.
           destruct (filter _ seen); [done|]. done.
        -- intros x. cbn [Reader.Character.with_aliases Reader.Character.aliases].
           rewrite (proj2 (arrayFromSet_spec _)), elem_of_app, Hal. split.
           ++ intros [(ch & Hch & ?)|Hx].
              ** exists ch. split; [|done]. apply elem_of_app. by left.
              ** exists char. split; [|done]. apply elem_of_app. right. left.
           ++ intros (ch & [Hch|Hch%list_elem_of_singleton]%elem_of_app & Hnm & Hx).
              ** left. by exists ch.
              ** subst ch. by right.
      * intros Hgc. apply entry_other; [done|]. by apply Hentry.
  - assert (Reader.Character.name char ∉ keys m) as Hnin by by apply get_None.
    constructor.
    + by apply keys_set_NoDup.
    + intros name. rewrite keys_set_elem, fmap_app, elem_of_app, Hkeys. cbn.
      by rewrite list_elem_of_singleton.
    + intros name c. rewrite get_set. case_decide as Hname.
      * intros [= <-]. subst name. rewrite Hkeys in Hnin.
        assert (filter (fun ch => Reader.Character.name ch
                                  = Reader.Character.name char) seen = [])
          as Hnone.
        { apply filter_none, Forall_forall. intros ch Hch Heq.
          apply Hnin. apply list_elem_of_fmap. by exists ch. }
        split; [done|]. split.
        -- exists char. rewrite filter_app, Hnone, filter_cons, filter_nil.
           by rewrite decide_True.
        -- intros x. split.
           ++ intros Hx. exists char. split; [|done].
              apply elem_of_app. right. left.
           ++ intros (ch & [Hch|Hch%list_elem_of_singleton]%elem_of_app & Hnm & Hx).
              ** destruct Hnin. apply list_elem_of_fmap. by exists ch.
              ** by subst ch.
      * intros Hgc. apply entry_other; [done|]. by apply Hentry.
Qed.

Lemma united_foldl m seen chars :
  United m seen ->
  United (foldl Reader.characterStep m chars) (seen ++ chars).
Proof.
  revert m seen. induction chars as [|c chars IH]; intros m seen H;
    cbn [foldl].
  - by rewrite app_nil_r.
  - rewrite (cons_middle c), app_assoc. by apply IH, united_step.
Qed.

Lemma reader_foldl_characters st analyses :
  Reader.characters_acc (foldl Reader.analysisStep st analyses)
  = foldl Reader.characterStep (Reader.characters_acc st)
      (concat (Reader.ChunkAnalysis.characters <$> analyses)).
Proof.
  revert st. induction analyses as [|a rest IH]; intros st; [done|].
  cbn [foldl fmap list_fmap concat]. rewrite IH, foldl_app. done.
Qed.

End CharacterFacts.

Module MergeMoreProps.
Import MergeCore MergeFacts MergeProps OrderedMapFacts.
Import RelationFacts CharacterFacts.

(** X10. The pipeline merge keeps exactly the relations whose two ends are
    local ids of events of their own chunk, in chunk order and in the order
    they have inside the chunk. Each kept relation keeps its strength and
    description, and each of its ends becomes the global id given to an
    event of that same chunk carrying the end's local id, which is the id of
    an emitted event. *)
Theorem pipeline_keeps_local_relations
    (analyses : list ChunkAnalysis.t) (globalCharacters : list Character.t) :
  let m := Pipeline.mergeAnalyses analyses globalCharacters in
  Forall2 LinkTagged (localRelations 1 analyses) (Pipeline.allRelations m) /\
  Forall (resolved (Pipeline.mAllEvents m)) (Pipeline.allRelations m).
Proof.
  cbn zeta. split.
  - destruct (foldl_analysisStep_link (Pipeline.mkMergeLoop 1 [] []) analyses)
      as (added & Hrel & Hlink).
    cbn [Pipeline.mergeAnalyses Pipeline.allRelations].
    unfold Pipeline.mergeLoop. rewrite Hrel. exact Hlink.
  - apply (pipeline_foldl_resolved (Pipeline.mkMergeLoop 1 [] [])).
    constructor.
Qed.

(** X11. The character map built by the pipeline merge has one entry per
    distinct id, and the entry of an id is the last profile given with that
    id. When the ids of the given profiles are pairwise distinct the values
    of the map are the given profiles, in the given order. *)
Theorem pipeline_characters_last_profile_wins
    (analyses : list ChunkAnalysis.t) (globalCharacters : list Character.t) :
  let m := Pipeline.allCharacters
             (Pipeline.mergeAnalyses analyses globalCharacters) in
  NoDup (keys m) /\
  (forall id, id ∈ keys m <-> id ∈ (Character.id <$> globalCharacters)) /\
  (forall id,
      OrderedMap.get m id
      = last (filter (fun c => Character.id c = id) globalCharacters)) /\
  (NoDup (Character.id <$> globalCharacters) -> snd <$> m = globalCharacters).
Proof.
  cbn zeta. cbn [Pipeline.mergeAnalyses Pipeline.allCharacters].
  change (foldl _ [] globalCharacters) with (foldl putById [] globalCharacters).
  destruct (latest_foldl [] [] globalCharacters) as [Hnd Hkeys Hget].
  { constructor; [constructor | done | done]. }
  split; [done|]. split; [done|]. split; [done|].
  intros Hdis. pose proof (distinct_foldl [] globalCharacters Hdis) as Heq.
  cbn [app fmap list_fmap] in Heq. rewrite Heq.
  rewrite <- list_fmap_compose. apply list_fmap_id.
Qed.

Definition profile (id name : string) : Character.t :=
  Character.mk id name [] "" None minor None.

Lemma pipeline_characters_last_profile_wins_witness :
  NoDup (Character.id <$> [profile "c1" "Ann"; profile "c2" "Bob"]) /\
  snd <$> Pipeline.allCharacters
            (Pipeline.mergeAnalyses [] [profile "c1" "Ann"; profile "c2" "Bob"])
  = [profile "c1" "Ann"; profile "c2" "Bob"].
Proof.
  assert (NoDup (Character.id <$> [profile "c1" "Ann"; profile "c2" "Bob"]))
    as Hnd.
  { cbn. apply NoDup_cons. split; [|apply NoDup_singleton].
    rewrite list_elem_of_singleton. discriminate. }
  split; [exact Hnd|].
  exact (proj2 (proj2 (proj2
           (pipeline_characters_last_profile_wins []
              [profile "c1" "Ann"; profile "c2" "Bob"]))) Hnd).
Defined.

(** X12. The reader merge unites characters by name. The merged map has
    one entry per distinct name found in any chunk. The entry of a name
    carries that name, the description and first appearance of the first
    character found with it, and as aliases exactly the aliases of all
    characters found with that name. *)
Theorem reader_merge_unites_characters
    (analyses : list Reader.ChunkAnalysis.t) :
  let seen := concat (Reader.ChunkAnalysis.characters <$> analyses) in
  let m := Reader.allCharacters (Reader.mergeAnalyses analyses) in
  NoDup (keys m) /\
  (forall name, name ∈ keys m <-> name ∈ (Reader.Character.name <$> seen)) /\
  (forall name c, OrderedMap.get m name = Some c -> Entry seen name c).
Proof.
  cbn zeta. cbn [Reader.mergeAnalyses Reader.allCharacters].
  unfold Reader.mergeLoop. rewrite reader_foldl_characters.
  cbn [Reader.characters_acc].
  destruct (united_foldl [] []
              (concat (Reader.ChunkAnalysis.characters <$> analyses)))
    as [Hnd Hkeys Hentry]; [|done].
  constructor; [constructor | done | done].
Qed.

Definition sighting (name : string) (aliases : list string)
    (description : string) : Reader.Character.t :=
  Reader.Character.mk name aliases description None.

Definition twoSightings : list Reader.ChunkAnalysis.t :=
  [Reader.ChunkAnalysis.mk "s1" [] [sighting "Ann" ["Annie"] "a girl"] [] [];
   Reader.ChunkAnalysis.mk "s2" [] [sighting "Ann" ["A."] "a pilot"] [] []].

Lemma reader_merge_unites_characters_witness :
  OrderedMap.get (Reader.allCharacters (Reader.mergeAnalyses twoSightings))
    "Ann" = Some (sighting "Ann" ["Annie"; "A."] "a girl") /\
  Entry (concat (Reader.ChunkAnalysis.characters <$> twoSightings)) "Ann"
    (sighting "Ann" ["Annie"; "A."] "a girl").
Proof.
  split; [reflexivity|].
  apply (proj2 (proj2 (reader_merge_unites_characters twoSightings))).
  reflexivity.
Defined.

End MergeMoreProps.

(* ===================================================================== *)
(** * Properties of the consolidation step *)
(* ===================================================================== *)

Module ConsolidationFacts.
Import MergeCore MergeFacts MergeProps Consolidation.

Lemma keepsEvent_true m e :
  keepsEvent m e = true <-> canonicalOf m (Event.id e) = Event.id e.
Proof.
  unfold keepsEvent, canonicalOf.
  destruct (m !! Event.id e) as [c|]; cbn; [|done].
  destruct (String.length c =? 0) eqn:Hlen; cbn; [done|].
  rewrite bool_decide_eq_true. split; congruence.
Qed.

Lemma canonicalOf_cases m id :
  canonicalOf m id = id \/
  (exists c, m !! id = Some c /\ c <> "" /\ c <> id /\ canonicalOf m id = c).
Proof.
  unfold canonicalOf. destruct (m !! id) as [c|]; [|by left]. cbn.
  destruct c as [|a c]; cbn; [by left|].
  destruct (decide (String a c = id)) as [->|Hne]; [by left|].
  right. by exists (String a c).
Qed.

(** Every canonical id names an event and is its own canonical id. *)
Definition WellFormed (m : gmap string string) (events : list Event.t)
    : Prop :=
  forall o c, m !! o = Some c -> c <> "" -> c <> o ->
    c ∈ (Event.id <$> events) /\ canonicalOf m c = c.

Lemma kept_ids m events id :
  id ∈ (Event.id <$> events) -> canonicalOf m id = id ->
  id ∈ (Event.id <$> deduplicatedEvents m events).
Proof.
  intros (e & -> & He)%list_elem_of_fmap Hc. apply list_elem_of_fmap.
  exists e. split; [done|]. unfold deduplicatedEvents.
  apply list_elem_of_filter. split; [|done]. by apply keepsEvent_true.
Qed.

Lemma canonical_kept m events id :
  WellFormed m events -> id ∈ (Event.id <$> events) ->
  canonicalOf m id ∈ (Event.id <$> deduplicatedEvents m events).
Proof.
  intros Hwf Hid.
  destruct (canonicalOf_cases m id) as [Heq | (c & Hc & Hne & Hno & Heq)].
  - rewrite Heq. by apply kept_ids.
  - rewrite Heq. destruct (Hwf _ _ Hc Hne Hno). by apply kept_ids.
Qed.

Lemma refined_resolved m events relations :
  WellFormed m events ->
  Forall (resolved events) relations ->
  Forall (resolved (deduplicatedEvents m events))
    (refinedRelations m relations).
Proof.
  intros Hwf Hres. unfold refinedRelations. apply Forall_fmap.
  eapply Forall_impl; [exact Hres|]. intros r [Hf Ht].
  split; cbn; by apply canonical_kept.
Qed.

(** A map whose entries send an id to itself or to the empty string. *)
Definition Trivial (m : gmap string string) : Prop :=
  forall o c, m !! o = Some c -> c = o \/ c = "".

Lemma trivial_canonicalOf m id : Trivial m -> canonicalOf m id = id.
Proof.
  intros Ht. destruct (canonicalOf_cases m id)
    as [Heq | (c & Hc & Hne & Hno & _)]; [done|].
  by destruct (Ht _ _ Hc).
Qed.

Lemma trivial_foldl m mappings :
  Trivial m ->
  Forall (fun mp => EventMapping.canonicalId mp = EventMapping.originalId mp \/
                    EventMapping.canonicalId mp = "") mappings ->
  Trivial (foldl (fun eventIdMap mapping =>
                    <[EventMapping.originalId mapping :=
                        EventMapping.canonicalId mapping]> eventIdMap)
             m mappings).
Proof.
  intros Hm Hall. revert m Hm.
  induction Hall as [|mp rest Hmp _ IH]; intros m Hm; [done|].
  cbn [foldl]. apply IH. intros o c.
  destruct (decide (EventMapping.originalId mp = o)) as [<-|Hne].
  - rewrite lookup_insert_eq. intros [= <-]. exact Hmp.
  - rewrite lookup_insert_ne by done. apply Hm.
Qed.

Lemma with_ends_same r :
  CausalRelation.with_ends r (CausalRelation.fromEventId r)
    (CausalRelation.toEventId r) = r.
Proof. by destruct r. Qed.

Lemma pipeline_raw_resolved analyses globalCharacters :
  let raw := Pipeline.mergeAnalyses analyses globalCharacters in
  Forall (resolved (Pipeline.mAllEvents raw)) (Pipeline.allRelations raw).
Proof.
  apply (pipeline_foldl_resolved (Pipeline.mkMergeLoop 1 [] [])). constructor.
Qed.

End ConsolidationFacts.

Module ConsolidationProps.
Import MergeCore MergeFacts MergeProps Consolidation ConsolidationFacts.

(** X13. Merging and then consolidating: when every canonical id returned
    by the consolidation names a merged event and is not itself mapped to
    another id, the deduplicated events are a sub-sequence of the merged
    events with pairwise distinct ids, no relation is lost, and both ends of
    every refined relation are ids of deduplicated events. *)
Theorem consolidation_keeps_relations_resolved
    (consolidateLLM : string -> PlotGraphConsolidation.t)
    (analyses : list ChunkAnalysis.t) (globalCharacters : list Character.t) :
  let raw := Pipeline.mergeAnalyses analyses globalCharacters in
  let eventIdMap :=
    snd (consolidatePlotGraph consolidateLLM (Pipeline.fullSummary raw)
           (Pipeline.mAllEvents raw)
           (snd <$> Pipeline.allCharacters raw)) in
  let out := mergeAndConsolidate consolidateLLM analyses globalCharacters in
  WellFormed eventIdMap (Pipeline.mAllEvents raw) ->
  Pipeline.mAllEvents out `sublist_of` Pipeline.mAllEvents raw /\
  NoDup (Event.id <$> Pipeline.mAllEvents out) /\
  length (Pipeline.allRelations out) = length (Pipeline.allRelations raw) /\
  Forall (resolved (Pipeline.mAllEvents out)) (Pipeline.allRelations out).
Proof.
  intros raw eventIdMap out Hwf.
  assert (Pipeline.mAllEvents out
          = deduplicatedEvents eventIdMap (Pipeline.mAllEvents raw)) as Hev
    by reflexivity.
  assert (Pipeline.allRelations out
          = refinedRelations eventIdMap (Pipeline.allRelations raw)) as Hrel
    by reflexivity.
  rewrite Hev, Hrel.
  assert (deduplicatedEvents eventIdMap (Pipeline.mAllEvents raw)
            `sublist_of` Pipeline.mAllEvents raw) as Hsub
    by apply sublist_filter.
  split; [exact Hsub|]. split.
  - eapply sublist_NoDup; [|by apply fmap_sublist].
    subst raw. rewrite pipeline_events, renumber_ids. apply NoDup_globalIds.
  - split; [apply length_fmap|].
    apply refined_resolved; [done|]. apply pipeline_raw_resolved.
Qed.

Definition told (localId summary : string) : Event.t :=
  Event.mk localId summary "" "ch1" None None [] "calm".

(** One chunk that tells the same event twice, with a relation between the
    two tellings. *)
Definition toldTwice : list ChunkAnalysis.t :=
  [ChunkAnalysis.mk "s"
     [told "a" "the storm breaks"; told "b" "a storm breaks out"]
     [CausalRelation.mk "a" "b" "strong" "same storm"] [] [] []].

(** A consolidation that folds the second telling into the first. *)
Definition foldSecond (eventContext : string) : PlotGraphConsolidation.t :=
  PlotGraphConsolidation.mk "a storm"
    [EventMapping.mk "E002" "E001" None].

Lemma consolidation_keeps_relations_resolved_witness :
  WellFormed (eventIdMapOf [EventMapping.mk "E002" "E001" None])
    (Pipeline.mAllEvents (Pipeline.mergeAnalyses toldTwice [])) /\
  (Pipeline.mAllEvents (mergeAndConsolidate foldSecond toldTwice [])
   = [told "E001" "the storm breaks"]) /\
  (Pipeline.allRelations (mergeAndConsolidate foldSecond toldTwice [])
   = [CausalRelation.mk "E001" "E001" "strong" "same storm"]) /\
  Forall (resolved (Pipeline.mAllEvents
                      (mergeAndConsolidate foldSecond toldTwice [])))
    (Pipeline.allRelations (mergeAndConsolidate foldSecond toldTwice [])).
Proof.
  assert (WellFormed (eventIdMapOf [EventMapping.mk "E002" "E001" None])
            (Pipeline.mAllEvents (Pipeline.mergeAnalyses toldTwice [])))
    as Hwf.
  { unfold eventIdMapOf. cbn [foldl EventMapping.originalId
                                EventMapping.canonicalId].
    intros o c [[<- <-]|[_ Hc]]%lookup_insert_Some _ _;
      [|by rewrite lookup_empty in Hc].
    split; [|reflexivity]. vm_compute. left. }
  split; [exact Hwf|]. split; [reflexivity|]. split; [reflexivity|].
  exact (proj2 (proj2 (proj2
           (consolidation_keeps_relations_resolved foldSecond toldTwice []
              Hwf)))).
Defined.

(** X14. A consolidation whose mappings send every id to itself or to the
    empty string (in particular one that returns no mapping) changes
    nothing: every event is kept and every relation keeps its ends. *)
Theorem consolidation_trivial_mapping_changes_nothing
    (eventMappings : list EventMapping.t)
    (allEvents : list Event.t) (allRelations : list CausalRelation.t) :
  Forall (fun mp => EventMapping.canonicalId mp = EventMapping.originalId mp \/
                    EventMapping.canonicalId mp = "") eventMappings ->
  deduplicatedEvents (eventIdMapOf eventMappings) allEvents = allEvents /\
  refinedRelations (eventIdMapOf eventMappings) allRelations = allRelations.
Proof.
  intros Hall.
  assert (Trivial (eventIdMapOf eventMappings)) as Ht.
  { apply trivial_foldl; [|done]. intros o c. by rewrite lookup_empty. }
  split.
  - unfold deduplicatedEvents. induction allEvents as [|e es IH]; [done|].
    rewrite filter_cons, decide_True, IH; [done|].
    apply keepsEvent_true. by apply trivial_canonicalOf.
  - unfold refinedRelations. rewrite <- (list_fmap_id allRelations) at 2.
    apply list_fmap_ext. intros _ r _.
    rewrite !trivial_canonicalOf by done. apply with_ends_same.
Qed.

Lemma consolidation_trivial_mapping_changes_nothing_witness :
  let eventMappings :=
    [EventMapping.mk "E001" "E001" (Some "same"); EventMapping.mk "E002" "" None] in
  let allEvents := [told "E001" "one"; told "E002" "two"] in
  let allRelations := [CausalRelation.mk "E001" "E002" "weak" "then"] in
  Forall (fun mp => EventMapping.canonicalId mp = EventMapping.originalId mp \/
                    EventMapping.canonicalId mp = "") eventMappings /\
  deduplicatedEvents (eventIdMapOf eventMappings) allEvents = allEvents /\
  refinedRelations (eventIdMapOf eventMappings) allRelations = allRelations.
Proof.
  cbn zeta.
  assert (Forall (fun mp => EventMapping.canonicalId mp
                            = EventMapping.originalId mp \/
                            EventMapping.canonicalId mp = "")
            [EventMapping.mk "E001" "E001" (Some "same");
             EventMapping.mk "E002" "" None]) as Hall.
  { constructor; [by left|]. constructor; [by right | constructor]. }
  split; [exact Hall|].
  exact (consolidation_trivial_mapping_changes_nothing _
           [told "E001" "one"; told "E002" "two"]
           [CausalRelation.mk "E001" "E002" "weak" "then"] Hall).
Defined.

End ConsolidationProps.

(* ===================================================================== *)
(** * The scheduler when tasks may reject *)
(* ===================================================================== *)

Module SchedulerAny.
Import Scheduler SchedulerFacts.

(** The promise of the task rejects. *)
Definition rejects {T} (o : Outcome T) : bool :=
  match o with Rejected => true | Resolved _ => false end.

Lemma rejects_elem {T} (tasks : list (Outcome T)) :
  existsb rejects tasks = true <-> Rejected ∈ tasks.
Proof.
  rewrite existsb_exists. split.
  - intros ([v|] & Hin%list_elem_of_In & Hr); done.
  - intros Hin%list_elem_of_In. by exists Rejected.
Qed.

Section Any.
Context {T : Type}.
Variable tasks : list (Outcome T).
Local Abbreviation N := (length tasks).

(** An upper bound on the turns still to be taken. *)
Definition remaining (st : State (T:=T)) : nat :=
  2 * (N - currentIndex st) + sum_list_with weight (workers st).

(** The four shapes of a turn. *)
Inductive Move (st st' : State (T:=T)) : Prop :=
| move_settle l1 l2 i :
    workers st = l1 ++ Awaiting i :: l2 ->
    st' = mkState (currentIndex st) (results st) (l1 ++ Resuming i :: l2)
            (trace st ++ [Settled i]) ->
    Move st st'
| move_next l1 l2 i v :
    workers st = l1 ++ Resuming i :: l2 ->
    tasks !! i = Some (Resolved v) ->
    currentIndex st < N ->
    st' = mkState (S (currentIndex st)) (<[i := Some v]> (results st))
            (l1 ++ Awaiting (currentIndex st) :: l2)
            (trace st ++ [Invoked (currentIndex st)]) ->
    Move st st'
| move_return l1 l2 i v :
    workers st = l1 ++ Resuming i :: l2 ->
    tasks !! i = Some (Resolved v) ->
    N <= currentIndex st ->
    st' = mkState (currentIndex st) (<[i := Some v]> (results st))
            (l1 ++ Returned :: l2) (trace st) ->
    Move st st'
| move_throw l1 l2 i :
    workers st = l1 ++ Resuming i :: l2 ->
    (forall v, tasks !! i <> Some (Resolved v)) ->
    st' = mkState (currentIndex st) (results st) (l1 ++ Thrown :: l2)
            (trace st) ->
    Move st st'.

Lemma step_move st st' : step tasks st st' -> Move st st'.
Proof.
  intros (w & Hrun & ->). unfold canRun in Hrun. unfold advance.
  destruct (workers st !! w) as [wk|] eqn:Hw; [|done].
  destruct (split_at _ _ _ Hw) as (l1 & l2 & Hws & _ & Hins).
  destruct wk as [i|i| |]; try done.
  - eapply move_settle; [done|]. by rewrite Hins.
  - destruct (tasks !! i) as [[v|]|] eqn:Hi.
    + unfold enterLoop. cbn [currentIndex results workers trace].
      destruct (currentIndex st <? N) eqn:Hc.
      * apply Nat.ltb_lt in Hc. cbn [currentIndex results workers trace].
        eapply move_next; [done..|]. by rewrite Hins.
      * apply Nat.ltb_ge in Hc. cbn [currentIndex results workers trace].
        eapply move_return; [done..|]. by rewrite Hins.
    + eapply move_throw; [done | by rewrite Hi | by rewrite Hins].
    + eapply move_throw; [done | by rewrite Hi | by rewrite Hins].
Qed.

Record Sound (st : State (T:=T)) : Prop := mkSound {
  sound_bound : currentIndex st <= N;
  sound_lt : forall i, i ∈ inflightOf (workers st) -> i < currentIndex st;
  sound_done : forall i,
      i < currentIndex st -> i ∉ inflightOf (workers st) ->
      (exists v, tasks !! i = Some (Resolved v)) \/ Thrown ∈ workers st;
  sound_thrown : Thrown ∈ workers st -> Rejected ∈ tasks;
  sound_returned : Returned ∈ workers st -> currentIndex st = N;
  sound_staffed : workers st = [] -> N = 0
}.

Lemma move_sound st st' : Sound st -> Move st st' -> Sound st'.
Proof.
  intros [Hb Hlt Hdone Hthr Hret Hst] Hmove.
  destruct Hmove as [l1 l2 i Hws ->|l1 l2 i v Hws Hv Hc ->
                    |l1 l2 i v Hws Hv Hc ->|l1 l2 i Hws Hv ->];
    rewrite Hws in *;
    rewrite ?inflightOf_app, ?inflightOf_cons in *; cbn [app] in *;
    constructor; cbn [currentIndex results workers trace];
    rewrite ?inflightOf_app, ?inflightOf_cons; cbn [app];
    try done; try (by destruct l1).
  - intros j Hj Hn. destruct (Hdone j Hj Hn) as [?|Hin]; [by left|].
    right. revert Hin. rewrite !elem_of_app, !elem_of_cons. intuition (discriminate || auto).
  - rewrite !elem_of_app, !elem_of_cons in *. intuition (discriminate || auto).
  - rewrite !elem_of_app, !elem_of_cons in *. intuition (discriminate || auto).
  - intros j. rewrite !elem_of_app, !elem_of_cons. intros [?|[->|?]]; [|lia|];
      (assert (j < currentIndex st); [|lia]); apply Hlt;
      rewrite !elem_of_app, !elem_of_cons; tauto.
  - intros j Hj Hn. destruct (decide (j = i)) as [->|Hne]; [by eauto|].
    rewrite !elem_of_app, !elem_of_cons in Hn.
    destruct (Hdone j) as [?|Hin]; [| |by left|].
    + destruct (decide (j = currentIndex st)); [tauto | lia].
    + rewrite !elem_of_app, !elem_of_cons. tauto.
    + right. revert Hin. rewrite !elem_of_app, !elem_of_cons. intuition (discriminate || auto).
  - rewrite !elem_of_app, !elem_of_cons in *. intuition (discriminate || auto).
  - rewrite !elem_of_app, !elem_of_cons. intros [?|[?|?]]; [|done|];
      (assert (currentIndex st = N); [|lia]); apply Hret;
      rewrite !elem_of_app, !elem_of_cons; tauto.
  - intros j Hj. apply Hlt. revert Hj. rewrite !elem_of_app, !elem_of_cons.
    tauto.
  - intros j Hj Hn. destruct (decide (j = i)) as [->|Hne]; [by eauto|].
    rewrite !elem_of_app in Hn.
    destruct (Hdone j) as [?|Hin]; [done| |by left|].
    + rewrite !elem_of_app, !elem_of_cons. tauto.
    + right. revert Hin. rewrite !elem_of_app, !elem_of_cons. intuition (discriminate || auto).
  - rewrite !elem_of_app, !elem_of_cons in *. intuition (discriminate || auto).
  - intros _. lia.
  - intros j Hj. apply Hlt. revert Hj. rewrite !elem_of_app, !elem_of_cons.
    tauto.
  - intros j Hj Hn. right. rewrite !elem_of_app, !elem_of_cons. tauto.
  - intros _. assert (i < N) as Hi.
    { assert (i < currentIndex st); [|lia]. apply Hlt.
      rewrite !elem_of_app, !elem_of_cons. tauto. }
    destruct (lookup_lt_is_Some_2 tasks i Hi) as [[v|] Ho].
    + by destruct (Hv v).
    + by eapply list_elem_of_lookup_2.
  - rewrite !elem_of_app, !elem_of_cons in *. intuition (discriminate || auto).
Qed.

Lemma move_remaining st st' :
  currentIndex st <= N -> Move st st' -> S (remaining st') = remaining st.
Proof.
  intros Hb Hmove. unfold remaining.
  destruct Hmove as [l1 l2 i Hws ->|l1 l2 i v Hws Hv Hc ->
                    |l1 l2 i v Hws Hv Hc ->|l1 l2 i Hws Hv ->];
    rewrite Hws; cbn [currentIndex workers]; rewrite !sum_weight_app;
    cbn [sum_list_with weight]; lia.
Qed.

Lemma move_thrown st st' :
  Move st st' -> Thrown ∈ workers st -> Thrown ∈ workers st'.
Proof.
  intros [l1 l2 i Hws ->|l1 l2 i v Hws Hv Hc ->
         |l1 l2 i v Hws Hv Hc ->|l1 l2 i Hws Hv ->];
    rewrite Hws; cbn [workers]; rewrite !elem_of_app, !elem_of_cons;
    intuition (discriminate || auto).
Qed.

Lemma move_busy st st' :
  Move st st' ->
  forallb (fun w => bool_decide (w = Returned)) (workers st) = false.
Proof.
  intros Hmove. apply not_true_iff_false. rewrite forallb_forall. intros Hall.
  destruct Hmove as [l1 l2 i Hws _|l1 l2 i v Hws _ _ _
                    |l1 l2 i v Hws _ _ _|l1 l2 i Hws _ _];
    (eapply bool_decide_eq_true_1 in Hall;
     [|apply list_elem_of_In; rewrite Hws, elem_of_app, elem_of_cons;
       right; left; reflexivity]); done.
Qed.

(** The state in which [Array.from] has made [k] workers. *)
Lemma iter_spawn_any k :
  k <= N ->
  Nat.iter k (spawn tasks) (mkState 0 (replicate N None) [] [])
  = mkState k (replicate N None) (Awaiting <$> seq 0 k)
      (Invoked <$> seq 0 k).
Proof.
  induction k as [|k IH]; intros Hk; [done|].
  rewrite Nat.iter_succ, IH by lia.
  unfold spawn, enterLoop. cbn [currentIndex results workers trace].
  destruct (Nat.ltb_spec k N) as [_|?]; [|lia].
  cbn [currentIndex results workers trace]. by rewrite !seq_S, !fmap_app.
Qed.

Lemma sum_weight_awaiting l :
  sum_list_with weight (Awaiting <$> l) = 2 * length l.
Proof. induction l as [|i l IH]; cbn in *; lia. Qed.

Lemma start_sound concurrency :
  (1 <= concurrency)%Z ->
  Sound (start tasks concurrency) /\
  remaining (start tasks concurrency) = 2 * N.
Proof.
  intros Hc. unfold start.
  assert (poolSize tasks concurrency <= N) as Hle by (unfold poolSize; lia).
  assert (poolSize tasks concurrency = 0 -> N = 0) as Hz
    by (unfold poolSize; lia).
  rewrite iter_spawn_any by done. split.
  - constructor; cbn [currentIndex results workers trace];
      rewrite ?inflightOf_awaiting.
    + done.
    + intros i Hi%elem_of_seq. lia.
    + intros i Hi Hn. destruct Hn. apply elem_of_seq. lia.
    + intros (? & ? & _)%list_elem_of_fmap. done.
    + intros (? & ? & _)%list_elem_of_fmap. done.
    + intros H%fmap_nil_inv. apply Hz.
      by destruct (poolSize tasks concurrency).
  - unfold remaining. cbn [currentIndex workers].
    rewrite sum_weight_awaiting, length_seq. lia.
Qed.

Lemma drive_idle schedule st :
  Sound st -> remaining st <= length schedule ->
  Sound (drive tasks schedule st) /\
  sum_list_with weight (workers (drive tasks schedule st)) = 0.
Proof.
  revert st. induction schedule as [|pick rest IH]; intros st HS Hlen.
  - cbn in *. split; [done|]. unfold remaining in Hlen. lia.
  - cbn [drive]. destruct (runnableWorkers st) as [|w0 ws] eqn:Hrw.
    + split; [done|].
      destruct (decide (sum_list_with weight (workers st) = 0)) as [|Hpos];
        [done|].
      destruct (runnable_exists (workers st)) as (w & wk & Hw & Hr); [lia|].
      assert (w ∈ runnableWorkers st) as Hin.
      { unfold runnableWorkers. apply list_elem_of_filter. split.
        - unfold canRun. by rewrite Hw.
        - apply elem_of_seq. apply lookup_lt_Some in Hw. lia. }
      rewrite Hrw in Hin. by apply elem_of_nil in Hin.
    + set (w := nth _ _ _).
      assert (canRun st w = true) as Hw.
      { assert (w ∈ runnableWorkers st) as Hin.
        { rewrite Hrw. apply list_elem_of_In. apply nth_In.
          apply Nat.mod_upper_bound. done. }
        unfold runnableWorkers in Hin.
        by apply list_elem_of_filter in Hin as [? _]. }
      assert (Move st (advance tasks st w)) as Hmove
        by (apply step_move; by exists w).
      pose proof (move_remaining _ _ (sound_bound _ HS) Hmove).
      apply IH; [by eapply move_sound|]. cbn [length] in Hlen. lia.
Qed.

Lemma idle_settlement st :
  Sound st -> sum_list_with weight (workers st) = 0 ->
  settlement st
  = if existsb rejects tasks then Some Rejected
    else Some (Resolved (results st)).
Proof.
  intros HS H0. unfold settlement.
  destruct (decide (Thrown ∈ workers st)) as [Hthr|Hthr].
  - rewrite bool_decide_eq_true_2 by done.
    by rewrite (proj2 (rejects_elem tasks)) by (by apply (sound_thrown _ HS)).
  - rewrite (bool_decide_eq_false_2 _ Hthr).
    assert (Forall (fun w => w = Returned) (workers st)) as Hall.
    { apply weight_zero_all in H0. revert Hthr H0.
      induction (workers st) as [|w ws IH]; [constructor|].
      rewrite not_elem_of_cons. intros [? ?] [Hw Hws]%Forall_cons.
      constructor; [by destruct w | by apply IH]. }
    assert (forallb (fun w => bool_decide (w = Returned)) (workers st) = true)
      as ->.
    { apply forallb_forall. intros w Hw%list_elem_of_In.
      apply bool_decide_eq_true. by eapply Forall_forall in Hall. }
    destruct (existsb rejects tasks) eqn:Hex; [|done].
    apply rejects_elem in Hex. exfalso. revert Hex.
    intros (i & Hi)%list_elem_of_lookup_1.
    pose proof (lookup_lt_Some _ _ _ Hi) as Hlt.
    assert (inflightOf (workers st) = []) as Hin.
    { clear -Hall. induction Hall as [|w ws -> _ IH]; [done|].
      by rewrite inflightOf_cons, IH. }
    assert (currentIndex st = N) as Hcur.
    { destruct (workers st) as [|w ws] eqn:Hws.
      - pose proof (sound_staffed _ HS Hws). lia.
      - apply (sound_returned _ HS). rewrite Hws.
        apply Forall_cons in Hall as [-> _]. left. }
    destruct (sound_done _ HS i) as [[v Hv]|?]; [lia | | congruence | done].
    rewrite Hin. apply not_elem_of_nil.
Qed.

End Any.
End SchedulerAny.

Module SchedulerMoreProps.
Import Scheduler SchedulerFacts SchedulerAny.

(** X15. With a concurrency of at least 1, under any schedule long enough
    to take 2N turns the promise returned by [runInParallel] has settled,
    and it has rejected exactly when some task rejects: one rejecting task
    anywhere in the list makes the whole call reject, whatever the order in
    which the promises settle. *)
Theorem runInParallel_rejects_iff_a_task_rejects
    {T : Type} (tasks : list (Outcome T)) (concurrency : Z)
    (schedule : list nat) :
  (1 <= concurrency)%Z ->
  2 * length tasks <= length schedule ->
  is_Some (runInParallel tasks concurrency schedule) /\
  (runInParallel tasks concurrency schedule = Some Rejected
   <-> Rejected ∈ tasks).
Proof.
  intros Hc Hlen. unfold runInParallel.
  destruct (start_sound tasks concurrency Hc) as [HS Hrem].
  destruct (drive_idle tasks schedule _ HS) as [HS' Hidle]; [lia|].
  rewrite (idle_settlement tasks _ HS' Hidle), <- rejects_elem.
  destruct (existsb rejects tasks); split; try done.
Qed.

Lemma runInParallel_rejects_iff_a_task_rejects_witness :
  (1 <= 2)%Z /\
  2 * length [Resolved "a"; Rejected; Resolved "c"] <= length [0; 1; 0; 1; 0; 0] /\
  runInParallel [Resolved "a"; Rejected; Resolved "c"] 2 [0; 1; 0; 1; 0; 0]
  = Some Rejected.
Proof.
  split; [lia|]. split; [cbn; lia|].
  apply (runInParallel_rejects_iff_a_task_rejects
           [Resolved "a"; Rejected; Resolved "c"] 2 [0; 1; 0; 1; 0; 0]);
    [lia | cbn; lia |].
  right. left.
Defined.

(** X16. The promise returned by [runInParallel] settles at most once: once
    it has resolved or rejected, no later turn of any worker changes that,
    although the workers left after a rejection go on taking turns. *)
Theorem settlement_is_final
    {T : Type} (tasks : list (Outcome T)) (st st' : State (T:=T))
    (o : Outcome (list (option T))) :
  settlement st = Some o -> step tasks st st' -> settlement st' = Some o.
Proof.
  intros Hset Hstep. apply step_move in Hstep.
  unfold settlement in *.
  destruct (decide (Thrown ∈ workers st)) as [Hthr|Hthr].
  - rewrite bool_decide_eq_true_2 in Hset by done. injection Hset as <-.
    by rewrite bool_decide_eq_true_2 by (by eapply move_thrown).
  - rewrite bool_decide_eq_false_2 in Hset by done.
    by rewrite (move_busy tasks _ _ Hstep) in Hset.
Qed.

Lemma settlement_is_final_witness :
  let tasks := [Rejected; Resolved "b"; Resolved "c"] in
  let st := drive tasks [0; 0] (start tasks 2) in
  settlement st = Some Rejected /\
  step tasks st (advance tasks st 1) /\
  settlement (advance tasks st 1) = Some Rejected.
Proof.
  cbn zeta.
  assert (step [Rejected; Resolved "b"; Resolved "c"]
            (drive [Rejected; Resolved "b"; Resolved "c"] [0; 0]
               (start [Rejected; Resolved "b"; Resolved "c"] 2))
            (advance [Rejected; Resolved "b"; Resolved "c"]
               (drive [Rejected; Resolved "b"; Resolved "c"] [0; 0]
                  (start [Rejected; Resolved "b"; Resolved "c"] 2)) 1))
    as Hstep.
  { exists 1. split; reflexivity. }
  split; [reflexivity|]. split; [exact Hstep|].
  eapply (settlement_is_final [Rejected; Resolved "b"; Resolved "c"]);
    [|exact Hstep]. reflexivity.
Defined.

(** X17. With a concurrency of 0 or less no worker is made: the returned
    promise resolves at once, no task is ever invoked, and the result is an
    array of [tasks.length] holes. *)
Theorem runInParallel_without_workers
    {T : Type} (tasks : list (Outcome T)) (concurrency : Z)
    (schedule : list nat) :
  (concurrency <= 0)%Z ->
  drive tasks schedule (start tasks concurrency)
  = mkState 0 (replicate (length tasks) None) [] [] /\
  runInParallel tasks concurrency schedule
  = Some (Resolved (replicate (length tasks) None)).
Proof.
  intros Hc.
  assert (start tasks concurrency
          = mkState 0 (replicate (length tasks) None) [] []) as Hstart.
  { unfold start, poolSize. by replace (Z.to_nat _) with 0 by lia. }
  assert (drive tasks schedule (start tasks concurrency)
          = mkState 0 (replicate (length tasks) None) [] []) as Hdrive.
  { rewrite Hstart. by destruct schedule. }
  split; [exact Hdrive|]. unfold runInParallel. by rewrite Hdrive.
Qed.

Lemma runInParallel_without_workers_witness :
  (0 <= 0)%Z /\
  runInParallel [Resolved "a"; Rejected] 0 [0; 1; 2]
  = Some (Resolved [None; None]).
Proof.
  split; [lia|].
  exact (proj2 (runInParallel_without_workers [Resolved "a"; Rejected] 0
                  [0; 1; 2] ltac:(lia))).
Defined.

End SchedulerMoreProps.

(* ===================================================================== *)
(** * Further properties of the analyzer stages *)
(* ===================================================================== *)

Module StageFacts.
Import Scheduler SchedulerFacts SoloFacts.

(** What [run] collects from the analysis of one chunk. *)
Definition mentionsOf (analysis : ChunkAnalysis.t) : list Mention.t :=
  ChunkAnalysis.discoveredCharacters analysis.

Lemma mention_copy (l : list Mention.t) :
  (fun c => Mention.mk (Mention.name c) (Mention.description c)) <$> l = l.
Proof.
  rewrite <- (list_fmap_id l) at 2. apply list_fmap_ext. by intros _ [] _.
Qed.

Lemma collect_foldl {A} (f : A -> ChunkAnalysis.t) (pre rest : list A)
    (raw : list Mention.t) :
  foldl (fun acc res =>
           match acc, res with
           | Some (analyses, allDiscoveredRaw), Some (index, analysis) =>
               Some (<[index := Some analysis]> analyses,
                     allDiscoveredRaw
                       ++ ((fun c => Mention.mk (Mention.name c)
                                       (Mention.description c))
                             <$> ChunkAnalysis.discoveredCharacters analysis))
           | _, _ => None
           end)
    (Some ((Some ∘ f <$> pre) ++ replicate (length rest) None, raw))
    (Some <$> imap (fun i c => (length pre + i, f c)) rest)
  = Some (Some ∘ f <$> (pre ++ rest),
          raw ++ concat (mentionsOf ∘ f <$> rest)).
Proof.
  revert pre raw. induction rest as [|c rest IH]; intros pre raw.
  - cbn. by rewrite !app_nil_r.
  - cbn [imap fmap list_fmap foldl length replicate].
    rewrite insert_app_r_alt by (rewrite length_fmap; lia).
    rewrite length_fmap, Nat.add_0_r, Nat.sub_diag. cbn [list_insert insert].
    rewrite mention_copy.
    specialize (IH (pre ++ [c]) (raw ++ mentionsOf (f c))).
    rewrite fmap_app, <- !app_assoc in IH. cbn [fmap list_fmap app] in IH.
    cbn [concat]. change ((mentionsOf ∘ f) c) with (mentionsOf (f c)).
    rewrite <- IH. f_equal. f_equal. apply imap_ext. intros i x _. cbn.
    f_equal. rewrite length_app. cbn. lia.
Qed.

Lemma collect_all {A} (f : A -> ChunkAnalysis.t) (chunks : list A) :
  PipelineAnalyzer.collect (length chunks)
    (Some <$> imap (fun i c => (i, f c)) chunks)
  = Some (Some ∘ f <$> chunks, concat (mentionsOf ∘ f <$> chunks)).
Proof. apply (collect_foldl f [] chunks []). Qed.

Lemma collect_hole n :
  0 < n -> PipelineAnalyzer.collect n (replicate n None) = None.
Proof.
  intros Hn. unfold PipelineAnalyzer.collect.
  destruct n as [|n]; [lia|]. cbn [replicate foldl].
  induction (replicate n None) as [|x l IH]; [done|]. exact IH.
Qed.

Lemma uniqueNames_hole n :
  0 < n -> ReaderAnalyzer.uniqueNames (replicate n None) = None.
Proof.
  intros Hn. unfold ReaderAnalyzer.uniqueNames.
  destruct n as [|n]; [lia|]. cbn [replicate foldl].
  induction (replicate n None) as [|x l IH]; [done|]. exact IH.
Qed.

Lemma setAdd_names (l : list Mention.t) (names : list string) :
  foldl (fun names char => PipelineAnalyzer.setAdd names (Mention.name char))
    names l
  = foldl (fun acc x => if bool_decide (x ∈ acc) then acc else acc ++ [x])
      names (Mention.name <$> l).
Proof.
  revert names. induction l as [|c l IH]; intros names; [done|].
  cbn [fmap list_fmap foldl]. apply IH.
Qed.

Lemma uniqueNames_from (names : list string) (lists : list (list Mention.t)) :
  foldl (fun acc list =>
           match acc, list with
           | Some names, Some chars =>
               Some (foldl (fun names char =>
                              PipelineAnalyzer.setAdd names (Mention.name char))
                       names chars)
           | _, _ => None
           end) (Some names) (Some <$> lists)
  = Some (foldl (fun acc x => if bool_decide (x ∈ acc) then acc
                              else acc ++ [x])
            names (Mention.name <$> concat lists)).
Proof.
  revert names. induction lists as [|l lists IH]; intros names; [done|].
  cbn [fmap list_fmap foldl concat].
  by rewrite IH, fmap_app, foldl_app, setAdd_names.
Qed.

Lemma uniqueNames_all (lists : list (list Mention.t)) :
  ReaderAnalyzer.uniqueNames (Some <$> lists)
  = Some (Reader.arrayFromSet (Mention.name <$> concat lists)).
Proof. apply uniqueNames_from. Qed.

Lemma drive_no_workers {T} (tasks : list (Outcome T)) concurrency schedule :
  (concurrency <= 0)%Z ->
  drive tasks schedule (start tasks concurrency)
  = mkState 0 (replicate (length tasks) None) [] [].
Proof.
  intros Hc.
  assert (start tasks concurrency
          = mkState 0 (replicate (length tasks) None) [] []) as ->.
  { unfold start, poolSize. by replace (Z.to_nat _) with 0 by lia. }
  by destruct schedule.
Qed.

Lemma settlement_no_workers {T} (r : list (option T)) :
  settlement (mkState 0 r [] []) = Some (Resolved r).
Proof.
  unfold settlement. cbn [workers results forallb].
  by rewrite bool_decide_eq_false_2 by apply not_elem_of_nil.
Qed.

End StageFacts.

Module StageProps.
Import Scheduler SchedulerFacts SoloFacts StageFacts CharacterFacts.

(** X18. With a concurrency of at least 1 and every generation call
    succeeding, a complete [run] of the pipeline analyzer returns the same
    thing under every order of completion: one analysis per chunk within
    the limit, in chunk order, each extracted without a previous summary;
    and the characters resolved from the mentions of all chunks, taken in
    chunk order. *)
Theorem pipeline_run_result
    (extractLLM : option string -> utf16 -> ChunkAnalysis.t)
    (refineLLM : utf16 -> ChunkAnalysis.t -> ChunkAnalysis.t)
    (resolveLLM : list PipelineAnalyzer.Aggregated.t -> list Character.t)
    (allChunks : list TextChunk.t) (limit : option nat)
    (concurrency : Z) (schedule : list nat) :
  let chunksToAnalyze := take (default (length allChunks) limit) allChunks in
  let extracted :=
    (fun chunk =>
       PipelineAnalyzer.extractChunkParallel extractLLM refineLLM chunk None)
      <$> chunksToAnalyze in
  let resolution :=
    PipelineAnalyzer.resolveEntities resolveLLM
      (concat (mentionsOf <$> extracted)) in
  (1 <= concurrency)%Z ->
  2 * length chunksToAnalyze <= length schedule ->
  exists result,
    PipelineAnalyzer.run extractLLM refineLLM resolveLLM allChunks limit
      concurrency schedule = Some (Resolved result) /\
    PipelineAnalyzer.analyses result = Some <$> extracted /\
    PipelineAnalyzer.globalCharacters result = resolution.1 /\
    PipelineAnalyzer.resolutionRequests result = resolution.2.
Proof.
  intros chunksToAnalyze extracted resolution Hc Hlen.
  unfold PipelineAnalyzer.run. fold chunksToAnalyze.
  set (values := imap (fun i chunk =>
                         (i, PipelineAnalyzer.extractChunkParallel
                               extractLLM refineLLM chunk None))
                   chunksToAnalyze).
  assert (PipelineAnalyzer.mapTasks extractLLM refineLLM chunksToAnalyze
          = tasksOf values) as Htasks.
  { unfold PipelineAnalyzer.mapTasks, tasksOf, values. by rewrite fmap_imap. }
  assert (length values = length chunksToAnalyze) as Hn by apply length_imap.
  destruct (drive_end values concurrency schedule Hc) as (Hset & _ & _).
  { by rewrite Hn. }
  rewrite Htasks, Hset. unfold values. rewrite collect_all.
  assert (concat (mentionsOf
                    ∘ (fun chunk => PipelineAnalyzer.extractChunkParallel
                                      extractLLM refineLLM chunk None)
                    <$> chunksToAnalyze)
          = concat (mentionsOf <$> extracted)) as ->.
  { unfold extracted. by rewrite <- list_fmap_compose. }
  fold resolution. destruct resolution as [characters requests].
  eexists. split; [reflexivity|]. cbn.
  split; [|done]. unfold extracted. by rewrite <- list_fmap_compose.
Qed.

Definition twoPages : list TextChunk.t :=
  [TextChunk.mk 0 [97%N] 1 0 1; TextChunk.mk 1 [98%N; 98%N] 2 1 3].

(** A stand-in generation capability: every chunk mentions one character,
    named after the length of the chunk. *)
Definition mentionLength (previousSummary : option string) (content : utf16)
    : ChunkAnalysis.t :=
  ChunkAnalysis.mk "s" [] [] []
    [Mention.mk ("P" +:+ JS.String_ (length content)) "seen"] [].

Definition keepIt (content : utf16) (analysis : ChunkAnalysis.t)
    : ChunkAnalysis.t := analysis.

Definition profileEach (inputs : list PipelineAnalyzer.Aggregated.t)
    : list Character.t :=
  (fun a => Character.mk (PipelineAnalyzer.Aggregated.name a)
              (PipelineAnalyzer.Aggregated.name a) [] "" None minor None)
    <$> inputs.

Lemma pipeline_run_result_witness :
  (1 <= 2)%Z /\
  2 * length (take (default (length twoPages) None) twoPages)
    <= length [1; 1; 0; 0] /\
  exists result,
    PipelineAnalyzer.run mentionLength keepIt profileEach twoPages None 2
      [1; 1; 0; 0] = Some (Resolved result) /\
    PipelineAnalyzer.analyses result
    = [Some (mentionLength None [97%N]); Some (mentionLength None [98%N; 98%N])] /\
    PipelineAnalyzer.globalCharacters result
    = [Character.mk "P1" "P1" [] "" None minor None;
       Character.mk "P2" "P2" [] "" None minor None] /\
    PipelineAnalyzer.resolutionRequests result
    = [[PipelineAnalyzer.Aggregated.mk "P1" ["seen"];
        PipelineAnalyzer.Aggregated.mk "P2" ["seen"]]].
Proof.
  split; [lia|]. split; [cbn; lia|].
  exact (pipeline_run_result mentionLength keepIt profileEach twoPages None 2
           [1; 1; 0; 0] ltac:(lia) ltac:(cbn; lia)).
Defined.

(** X19. With a concurrency of at least 1 and every generation call
    succeeding, a complete discovery stage returns the names discovered in
    all chunks, each once, in the order of their first mention by chunk
    order, whatever the order in which the chunks complete. *)
Theorem discovery_names_in_chunk_order
    (discoverLLM : utf16 -> list Mention.t)
    (allChunks : list TextChunk.t) (concurrency : Z) (schedule : list nat) :
  let mentions :=
    concat ((fun chunk => discoverLLM (TextChunk.content chunk))
              <$> allChunks) in
  let names := Reader.arrayFromSet (Mention.name <$> mentions) in
  (1 <= concurrency)%Z ->
  2 * length allChunks <= length schedule ->
  (ReaderAnalyzer.discoveryStage discoverLLM allChunks concurrency schedule).1
  = Some (Resolved names) /\
  NoDup names /\
  (forall x, x ∈ names <-> exists mention, mention ∈ mentions /\
                                          Mention.name mention = x).
Proof.
  intros mentions names Hc Hlen.
  set (values := (fun chunk => discoverLLM (TextChunk.content chunk))
                   <$> allChunks).
  assert (ReaderAnalyzer.discoveryTasks discoverLLM allChunks
          = tasksOf values) as Htasks.
  { unfold ReaderAnalyzer.discoveryTasks, tasksOf, values.
    by rewrite <- list_fmap_compose. }
  destruct (drive_end values concurrency schedule Hc) as (Hset & _ & _).
  { unfold values. by rewrite length_fmap. }
  split.
  - unfold ReaderAnalyzer.discoveryStage.
    by rewrite Htasks, Hset, uniqueNames_all.
  - destruct (arrayFromSet_spec (Mention.name <$> mentions)) as [Hnd Hin].
    split; [exact Hnd|]. intros x. unfold names. rewrite Hin.
    rewrite list_elem_of_fmap. split; intros (m & ? & ?); by exists m.
Qed.

Definition discoverLength (content : utf16) : list Mention.t :=
  [Mention.mk ("P" +:+ JS.String_ (length content)) "seen";
   Mention.mk "Ann" "again"].

Lemma discovery_names_in_chunk_order_witness :
  (1 <= 2)%Z /\
  2 * length twoPages <= length [1; 1; 0; 0] /\
  (ReaderAnalyzer.discoveryStage discoverLength twoPages 2 [1; 1; 0; 0]).1
  = Some (Resolved ["P1"; "Ann"; "P2"]).
Proof.
  split; [lia|]. split; [cbn; lia|].
  exact (proj1 (discovery_names_in_chunk_order discoverLength twoPages 2
                  [1; 1; 0; 0] ltac:(lia) ltac:(cbn; lia))).
Defined.

(** X20. With a concurrency of 0 or less and at least one chunk to analyze,
    both stages that run through [runInParallel] reject: the scheduler
    returns holes without calling the generation capability, and reading
    the first hole throws. The only progress report made is the opening one. *)
Theorem stages_reject_without_workers
    (discoverLLM : utf16 -> list Mention.t)
    (extractLLM : option string -> utf16 -> ChunkAnalysis.t)
    (refineLLM : utf16 -> ChunkAnalysis.t -> ChunkAnalysis.t)
    (resolveLLM : list PipelineAnalyzer.Aggregated.t -> list Character.t)
    (allChunks : list TextChunk.t) (limit : option nat)
    (concurrency : Z) (schedule : list nat) :
  (concurrency <= 0)%Z ->
  take (default (length allChunks) limit) allChunks <> [] ->
  PipelineAnalyzer.run extractLLM refineLLM resolveLLM allChunks limit
    concurrency schedule = Some Rejected /\
  ReaderAnalyzer.discoveryStage discoverLLM allChunks concurrency schedule
  = (Some Rejected, [Progress.mk "Discovery" 0 (length allChunks)]).
Proof.
  intros Hc Hne. split.
  - unfold PipelineAnalyzer.run. rewrite drive_no_workers by done.
    rewrite settlement_no_workers.
    unfold PipelineAnalyzer.mapTasks. rewrite length_imap, collect_hole; [done|].
    destruct (take _ allChunks); [done | cbn; lia].
  - unfold ReaderAnalyzer.discoveryStage. rewrite drive_no_workers by done.
    rewrite settlement_no_workers. cbn [trace].
    unfold ReaderAnalyzer.discoveryTasks.
    rewrite length_fmap, uniqueNames_hole; [done|].
    destruct allChunks; [by destruct (default _ limit) | cbn; lia].
Qed.

Definition oneChunk : list TextChunk.t := [TextChunk.mk 0 [97%N] 1 0 1].

Lemma stages_reject_without_workers_witness :
  (0 <= 0)%Z /\
  take (default (length oneChunk) None) oneChunk <> [] /\
  PipelineAnalyzer.run
    (fun _ _ => ChunkAnalysis.mk "s" [] [] [] [] []) (fun _ a => a)
    (fun _ => []) oneChunk None 0 [0; 0] = Some Rejected.
Proof.
  split; [lia|]. split; [discriminate|].
  exact (proj1 (stages_reject_without_workers (fun _ => [])
                  (fun _ _ => ChunkAnalysis.mk "s" [] [] [] [] [])
                  (fun _ a => a) (fun _ => []) oneChunk None 0 [0; 0]
                  ltac:(lia) ltac:(discriminate))).
Defined.

End StageProps.

(* ===================================================================== *)
(** * Properties of the rewriter and of the logger *)
(* ===================================================================== *)

Module RewriterFacts.
Import Scheduler SchedulerFacts SoloFacts Rewriter.

Section Facts.
Variable Scene : Type.
Variable seriesLLM : NovelAnalysisData.t -> SeriesPlan.t.
Variable outlineLLM : EpisodePlan.t -> list Event.t -> ScreenplayOutline.t.
Variable sceneLLM : option SceneWritingPlan.t -> Continuity Scene -> Scene.

(** The continuity given to the scene at position [i]: the plan of the
    scene before it. *)
Definition continuityAt (plans : list SceneWritingPlan.t) (i : nat)
    : Continuity Scene :=
  match i with
  | 0 => NoContext Scene
  | S j =>
      match plans !! j with
      | Some prev => IntendedPlan Scene prev
      | None => NoContext Scene
      end
  end.

Definition scenesOf (plans : list SceneWritingPlan.t) : list Scene :=
  imap (fun i plan => sceneLLM (Some plan) (continuityAt plans i)) plans.

Definition episodeOf (data : NovelAnalysisData.t) (plan : EpisodePlan.t)
    : Episode Scene :=
  let outline := outlineLLM plan (relevantEvents plan data) in
  mkEpisode Scene (EpisodePlan.episodeNumber plan) (EpisodePlan.title plan)
    (EpisodePlan.synopsis plan)
    (Some <$> scenesOf (ScreenplayOutline.scenePlans outline)).

Lemma sceneTasks_values outline :
  sceneTasks Scene sceneLLM outline
  = tasksOf (scenesOf (ScreenplayOutline.scenePlans outline)).
Proof.
  unfold sceneTasks, tasksOf, scenesOf. rewrite fmap_imap.
  apply imap_ext. intros i plan Hi. cbn. f_equal.
  unfold generateScene. rewrite Hi. f_equal.
  destruct i as [|j]; [done|]. cbn. rewrite Nat.sub_0_r.
  by destruct (ScreenplayOutline.scenePlans outline !! j).
Qed.

Lemma runEpisodes_all data concurrency plans schedules :
  (1 <= concurrency)%Z ->
  (forall k plan, plans !! k = Some plan ->
     2 * length (ScreenplayOutline.scenePlans
                   (outlineLLM plan (relevantEvents plan data)))
     <= length (nth k schedules [])) ->
  runEpisodes Scene outlineLLM sceneLLM data concurrency plans schedules
  = Some (episodeOf data <$> plans).
Proof.
  intros Hc. revert schedules.
  induction plans as [|plan rest IH]; intros schedules Hlen; [done|].
  cbn [runEpisodes]. unfold generateEpisodeOutline.
  rewrite sceneTasks_values. unfold runInParallel.
  destruct (drive_end (scenesOf (ScreenplayOutline.scenePlans
                                   (outlineLLM plan (relevantEvents plan data))))
              concurrency (hd [] schedules) Hc) as (-> & _ & _).
  { unfold scenesOf. rewrite length_imap.
    specialize (Hlen 0 plan eq_refl). by destruct schedules. }
  rewrite IH; [done|]. intros k p Hk. specialize (Hlen (S k) p Hk).
  destruct schedules; [by destruct k | done].
Qed.

End Facts.
End RewriterFacts.

Module RewriterProps.
Import Scheduler Rewriter RewriterFacts.

(** X22. The rewriter replaces a missing or zero concurrency by 5. When the
    concurrency in force is at least 1 and every generation call succeeds, a
    complete [run] returns one episode per planned episode, in plan order,
    with one scene per scene plan of its outline, in plan order: the scene
    at position i is written from plan i and, for i > 0, the plan of scene
    i-1 as continuity (never a written scene), whatever the order in which
    the scenes of an episode complete. *)
Theorem rewriter_run_result
    (Scene : Type)
    (seriesLLM : NovelAnalysisData.t -> SeriesPlan.t)
    (outlineLLM : EpisodePlan.t -> list Event.t -> ScreenplayOutline.t)
    (sceneLLM : option SceneWritingPlan.t -> Continuity Scene -> Scene)
    (analysisData : NovelAnalysisData.t) (option_concurrency : option Z)
    (schedules : list (list nat)) :
  let plans := SeriesPlan.episodes (seriesLLM analysisData) in
  concurrencyOf None = 5%Z /\ concurrencyOf (Some 0%Z) = 5%Z /\
  ((1 <= concurrencyOf option_concurrency)%Z ->
   (forall k plan, plans !! k = Some plan ->
      2 * length (ScreenplayOutline.scenePlans
                    (outlineLLM plan (relevantEvents plan analysisData)))
      <= length (nth k schedules [])) ->
   run Scene seriesLLM outlineLLM sceneLLM analysisData option_concurrency
     schedules
   = Some (episodeOf Scene outlineLLM sceneLLM analysisData <$> plans)).
Proof.
  intros plans. split; [done|]. split; [done|]. intros Hc Hlen.
  unfold run, planSeries. by apply runEpisodes_all.
Qed.

Definition plainPlan (title : string) : SceneWritingPlan.t :=
  SceneWritingPlan.mk title [] (Setting.mk "" "" "") "" [] [].

Definition onePilot (data : NovelAnalysisData.t) : SeriesPlan.t :=
  SeriesPlan.mk 1 "arc" [EpisodePlan.mk 1 "Pilot" [] "syn" "5m" "why"].

Definition twoScenes (plan : EpisodePlan.t) (events : list Event.t)
    : ScreenplayOutline.t :=
  ScreenplayOutline.mk "core" "three acts" [plainPlan "A"; plainPlan "B"].

(** A stand-in scene writer: the title of the plan, and of the plan given
    as continuity. *)
Definition titles (plan : option SceneWritingPlan.t)
    (context : Continuity string) : string :=
  from_option SceneWritingPlan.title "?" plan
    +:+ match context with
        | IntendedPlan _ prev => " after " +:+ SceneWritingPlan.title prev
        | ActualScene _ scene => " after scene " +:+ scene
        | NoContext _ => ""
        end.

Lemma rewriter_run_result_witness :
  (1 <= concurrencyOf (Some 0%Z))%Z /\
  run string onePilot twoScenes titles (NovelAnalysisData.mk "" [] [] [])
    (Some 0%Z) [[1; 1; 0; 0]]
  = Some [mkEpisode string 1 "Pilot" "syn" [Some "A"; Some "B after A"]].
Proof.
  split; [cbn; lia|].
  apply (proj2 (proj2 (rewriter_run_result string onePilot twoScenes titles
                         (NovelAnalysisData.mk "" [] [] []) (Some 0%Z)
                         [[1; 1; 0; 0]]))); [cbn; lia|].
  intros [|k] plan Hk; [|by destruct k]. injection Hk as <-. cbn. lia.
Defined.

End RewriterProps.

Module LoggerProps.
Import Logger.

(** X23. Every call of the logger builds the line for the log file, at
    every level. On the console a debug message is never printed, whatever
    the level set, not even at level DEBUG; an error is always printed, with
    the prefix [ERROR]; an info message is printed as it is when the level
    is DEBUG or INFO, and a warning, prefixed with [WARN], unless the level
    is ERROR. *)
Theorem logger_console_filter
    (currentLevel : LogLevel) (ts message : string)
    (err : option ErrorLike.t) :
  printed (debug currentLevel ts message) = None /\
  (exists text,
      printed (error currentLevel ts message err).1
      = Some (console_error ("[ERROR] " +:+ text)) /\
      (err = None -> text = message)) /\
  printed (info currentLevel ts message)
  = (if rank currentLevel <=? rank INFO then Some (console_log message)
     else None) /\
  printed (warn currentLevel ts message)
  = (if rank currentLevel <=? rank WARN
     then Some (console_warn ("[WARN] " +:+ message)) else None) /\
  appended (debug currentLevel ts message)
  = formatMessage ts "DEBUG" message /\
  appended (info currentLevel ts message) = formatMessage ts "INFO" message.
Proof.
  split; [by destruct currentLevel|]. split.
  - eexists. split; [by destruct currentLevel|]. by intros ->.
  - by destruct currentLevel.
Qed.

Lemma logger_console_filter_witness :
  printed (debug DEBUG "t" "m") = None /\
  printed (info WARN "t" "m") = None /\
  printed (error ERROR "t" "m" None).1 = Some (console_error "[ERROR] m").
Proof.
  pose proof (logger_console_filter DEBUG "t" "m" None) as (Hd & _).
  pose proof (logger_console_filter WARN "t" "m" None) as (_ & _ & Hi & _).
  pose proof (logger_console_filter ERROR "t" "m" None)
    as (_ & (text & He & Ht) & _).
  split; [exact Hd|]. split; [exact Hi|].
  rewrite He, (Ht eq_refl). reflexivity.
Defined.

End LoggerProps.

(* ===================================================================== *)
(** * The offsets recorded by the chunker *)
(* ===================================================================== *)

Module ChunkerCover.
Import Chunker ChunkerFacts ChunkerSmall ChunkerBound.
Import TrimFacts ChunkerShape ChunkerText.

(** [text.slice(from, to)] for [from <= to]. *)
Definition slice (from to : nat) (text : utf16) : utf16 :=
  take (to - from) (drop from text).

Lemma slice_app from to text more :
  from <= to -> to <= length text ->
  slice from to (text ++ more) = slice from to text.
Proof.
  intros Hft Hto. unfold slice.
  rewrite drop_app_le by lia. rewrite take_app_le; [done|].
  rewrite length_drop. lia.
Qed.

Lemma slice_to_end from text :
  slice from (length text) text = drop from text.
Proof. unfold slice. rewrite take_ge; [done|]. rewrite length_drop. lia. Qed.

Section Tiles.
Variable encode : utf16 -> list nat.
Variable decode : list nat -> utf16.
Variable overlapTokens : Z.

Local Abbreviation getOverlapText :=
  (getOverlapText encode decode overlapTokens).

(** The chunks [l] tile the text [joined] from the offset [prevEnd] on,
    [carry] being the text carried over from the chunk before: the buffer of
    a chunk is the carried text followed by the text between the end of the
    chunk before and its own end; its content is that buffer trimmed; its
    [startChar] is the end of the chunk before less the length of the
    carried text; and the overlap text of its buffer is carried to the next
    chunk. *)
Fixpoint tiles (joined : utf16) (prevEnd : nat) (carry : utf16)
    (l : list TextChunk.t) : Prop :=
  match l with
  | [] => True
  | c :: rest =>
      let buffer := carry ++ slice prevEnd (TextChunk.endChar c) joined in
      (prevEnd <= TextChunk.endChar c <= length joined) /\
      TextChunk.content c = trim buffer /\
      TextChunk.startChar c
      = (Z.of_nat prevEnd - Z.of_nat (length carry))%Z /\
      tiles joined (TextChunk.endChar c) (getOverlapText buffer) rest
  end.

(** The end offset and the carried text after the chunks [l]. *)
Fixpoint carried (joined : utf16) (prevEnd : nat) (carry : utf16)
    (l : list TextChunk.t) : nat * utf16 :=
  match l with
  | [] => (prevEnd, carry)
  | c :: rest =>
      carried joined (TextChunk.endChar c)
        (getOverlapText
           (carry ++ slice prevEnd (TextChunk.endChar c) joined))
        rest
  end.

Lemma carried_snoc joined p carry l c :
  carried joined p carry (l ++ [c])
  = (TextChunk.endChar c,
     getOverlapText
       ((carried joined p carry l).2
          ++ slice (carried joined p carry l).1 (TextChunk.endChar c) joined)).
Proof.
  revert p carry. induction l as [|a l IH]; intros p carry; [done|].
  cbn [app carried]. apply IH.
Qed.

Lemma tiles_snoc joined p carry l c :
  tiles joined p carry l ->
  tiles joined (carried joined p carry l).1 (carried joined p carry l).2 [c] ->
  tiles joined p carry (l ++ [c]).
Proof.
  revert p carry. induction l as [|a l IH]; intros p carry Hl Hc; [done|].
  cbn [app tiles carried] in *. destruct Hl as (Hb & Hcont & Hstart & Hl).
  split; [done|]. split; [done|]. split; [done|]. by apply IH.
Qed.

Lemma tiles_more joined more p carry l :
  tiles joined p carry l ->
  tiles (joined ++ more) p carry l /\
  carried (joined ++ more) p carry l = carried joined p carry l.
Proof.
  revert p carry. induction l as [|a l IH]; intros p carry Hl; [done|].
  cbn [tiles carried] in *. destruct Hl as ([Hb1 Hb2] & Hcont & Hstart & Hl).
  rewrite slice_app by done. destruct (IH _ _ Hl) as [IH1 IH2].
  split; [|done]. split; [rewrite length_app; lia|]. done.
Qed.

Lemma tiles_first joined c rest :
  tiles joined 0 [] (c :: rest) ->
  TextChunk.startChar c = 0%Z /\
  TextChunk.content c = trim (take (TextChunk.endChar c) joined).
Proof.
  cbn [tiles]. intros (_ & Hcont & Hstart & _).
  split; [exact Hstart|]. rewrite Hcont. cbn [app]. unfold slice.
  by rewrite Nat.sub_0_r, drop_0.
Qed.

Lemma tiles_consecutive joined p carry l i c d :
  tiles joined p carry l -> l !! i = Some c -> l !! S i = Some d ->
  exists buffer,
    TextChunk.content c = trim buffer /\
    TextChunk.content d
    = trim (getOverlapText buffer
              ++ slice (TextChunk.endChar c) (TextChunk.endChar d) joined) /\
    TextChunk.startChar d
    = (Z.of_nat (TextChunk.endChar c)
       - Z.of_nat (length (getOverlapText buffer)))%Z /\
    TextChunk.endChar c <= TextChunk.endChar d <= length joined.
Proof.
  revert p carry i. induction l as [|a l IH];
    intros p carry i Htiles Hc Hd; [done|].
  cbn [tiles] in Htiles. destruct Htiles as (_ & Hcont & _ & Hrest).
  destruct i as [|i].
  - injection Hc as ->. destruct l as [|b l]; [done|].
    injection Hd as ->. cbn [tiles] in Hrest.
    destruct Hrest as (Hb & Hcont' & Hstart' & _).
    eexists. split; [exact Hcont|]. split; [exact Hcont'|].
    split; [exact Hstart'|exact Hb].
  - by apply (IH _ _ i Hrest).
Qed.

(** The state of a chunker after the text [seen] has been read: the chunks
    pushed so far tile [seen], and the buffer is the text carried over from
    the last of them followed by what was read since. *)
Record Trail (chunks : list TextChunk.t) (currentContent : utf16)
    (startChar : Z) (charOffset : nat) (seen : utf16) : Prop := mkTrail {
  trail_offset : charOffset = length seen;
  trail_tiles : tiles seen 0 [] chunks;
  trail_end : (carried seen 0 [] chunks).1 <= length seen;
  trail_buffer :
    currentContent
    = (carried seen 0 [] chunks).2 ++ drop (carried seen 0 [] chunks).1 seen;
  trail_start :
    startChar = (Z.of_nat (carried seen 0 [] chunks).1
                 - Z.of_nat (length (carried seen 0 [] chunks).2))%Z
}.

(** Pushing the buffer as a chunk, and starting the next buffer [next]
    from its overlap text. *)
Lemma trail_push chunks content tokens start offset seen index :
  Trail chunks content start offset seen ->
  tiles seen 0 []
    (chunks ++ [TextChunk.mk index (trim content) tokens start offset]) /\
  carried seen 0 []
    (chunks ++ [TextChunk.mk index (trim content) tokens start offset])
  = (length seen, getOverlapText content).
Proof.
  intros [Ho Ht He Hb Hs]. split.
  - apply tiles_snoc; [done|]. cbn [tiles TextChunk.endChar TextChunk.content
                                     TextChunk.startChar].
    rewrite Ho, slice_to_end, <- Hb. split; [lia|]. done.
  - rewrite carried_snoc. cbn [TextChunk.endChar].
    by rewrite Ho, slice_to_end, <- Hb.
Qed.

Lemma trail_flush chunks content tokens start offset seen index :
  Trail chunks content start offset seen ->
  Trail (chunks ++ [TextChunk.mk index (trim content) tokens start offset])
    (getOverlapText content)
    (Z.of_nat offset - Z.of_nat (length (getOverlapText content))) offset seen.
Proof.
  intros HT.
  destruct (trail_push chunks content tokens start offset seen index HT)
    as [Htiles Hcar].
  destruct HT as [Ho Ht He Hb Hs]. constructor; rewrite ?Hcar; cbn [fst snd].
  - done.
  - done.
  - lia.
  - by rewrite drop_all, app_nil_r.
  - by rewrite Ho.
Qed.

Lemma trail_append chunks content start offset seen s :
  Trail chunks content start offset seen ->
  Trail chunks (content ++ s) start (offset + length s) (seen ++ s).
Proof.
  intros [Ho Ht He Hb Hs]. destruct (tiles_more seen s 0 [] chunks Ht)
    as [Ht' Hcar].
  constructor; rewrite ?Hcar.
  - rewrite length_app. lia.
  - done.
  - rewrite length_app. lia.
  - rewrite drop_app_le by done. by rewrite app_assoc, <- Hb.
  - done.
Qed.

End Tiles.

Section Cover.
Variable encode : utf16 -> list nat.
Variable decode : list nat -> utf16.
Variable maxTokens overlapTokens : Z.

Local Abbreviation countTokens := (countTokens encode).
Local Abbreviation getOverlapText :=
  (getOverlapText encode decode overlapTokens).
Local Abbreviation flushChunk := (flushChunk encode decode overlapTokens).
Local Abbreviation sentenceStep :=
  (sentenceStep encode decode maxTokens overlapTokens).
Local Abbreviation paragraphStep :=
  (paragraphStep encode decode maxTokens overlapTokens).

Definition Cover (st : State) (seen : utf16) : Prop :=
  Trail encode decode overlapTokens (chunks st) (currentContent st)
    (startChar st) (charOffset st) seen.

Lemma flush_cover st seen : Cover st seen -> Cover (flushChunk st) seen.
Proof.
  intros HC.
  destruct (flushChunk_cases encode decode overlapTokens st)
    as [-> | [_ ->]]; [done|].
  unfold Cover, pushChunk. cbn [chunks currentContent startChar charOffset].
  by apply trail_flush.
Qed.

Lemma append_cover st seen s tokens :
  Cover st seen -> Cover (append st s tokens) (seen ++ s).
Proof. intros HC. by apply trail_append. Qed.

Lemma sentenceStep_cover st seen s :
  Cover st seen -> Cover (sentenceStep st s) (seen ++ s).
Proof.
  intros HC. unfold Chunker.sentenceStep. apply append_cover.
  destruct (_ <? _)%Z; [by apply flush_cover | done].
Qed.

Lemma foldl_sentenceStep_cover st seen units :
  Cover st seen ->
  Cover (foldl sentenceStep st units) (seen ++ concat units).
Proof.
  revert st seen. induction units as [|u units IH]; intros st seen HC.
  - cbn. by rewrite app_nil_r.
  - cbn [foldl concat]. rewrite app_assoc. by apply IH, sentenceStep_cover.
Qed.

Lemma paragraphStep_cover st seen para :
  Cover st seen -> Cover (paragraphStep st para) (seen ++ para ++ [LF; LF]).
Proof.
  intros HC. unfold Chunker.paragraphStep.
  set (st1 := if (_ && _) then _ else _).
  assert (Cover st1 seen) as HC1.
  { subst st1. destruct (_ && _); [by apply flush_cover | done]. }
  clearbody st1. destruct (_ <? _)%Z; [|by apply append_cover].
  rewrite app_assoc. apply append_cover. rewrite sentenceLoop_units.
  replace (seen ++ para)
    with (seen ++ concat (sentenceUnits (splitSentences para [])))
    by (by rewrite splitSentences_concat).
  apply foldl_sentenceStep_cover.
  destruct (_ <? _); [by apply flush_cover | done].
Qed.

Lemma foldl_paragraphStep_cover st seen paragraphs :
  Cover st seen ->
  Cover (foldl paragraphStep st paragraphs) (seen ++ buffered paragraphs).
Proof.
  revert st seen. induction paragraphs as [|para rest IH]; intros st seen HC.
  - cbn. by rewrite app_nil_r.
  - cbn [foldl]. unfold buffered. cbn [fmap list_fmap concat].
    rewrite app_assoc. by apply IH, paragraphStep_cover.
Qed.

Lemma cover_final text :
  Cover (finalState encode decode maxTokens overlapTokens text)
    (buffered (splitParagraphs (replaceCRLF text))).
Proof.
  apply (foldl_paragraphStep_cover (mkState [] [] 0 0 0) []).
  by constructor.
Qed.

End Cover.
End ChunkerCover.

Module ChunkerCoverProps.
Import Chunker ChunkerFacts ChunkerSmall ChunkerShape ChunkerCover.

(** X24. The chunks returned by [chunk] tile the normalised text re-joined
    from its paragraphs, each followed by two line feeds. The first chunk
    has [startChar] 0 and holds the trimmed text up to its [endChar]. The
    buffer of every later chunk is the overlap text computed from the buffer
    of the chunk before, followed by the text between the [endChar] of the
    chunk before and its own [endChar]; its content is that buffer trimmed
    and its [startChar] is the [endChar] of the chunk before less the length
    of the overlap text. The end offsets lie inside the text and never
    decrease. This holds for every encoder, also when the overlap text does
    not decode to an end piece of the buffer. *)
Theorem chunk_contents_tile_the_text
    (encode : utf16 -> list nat) (decode : list nat -> utf16)
    (maxTokens overlapTokens : Z) (text : utf16) :
  let joined := buffered (splitParagraphs (replaceCRLF text)) in
  let result := chunk encode decode maxTokens overlapTokens text in
  tiles encode decode overlapTokens joined 0 [] result /\
  (forall c, result !! 0 = Some c ->
     TextChunk.startChar c = 0%Z /\
     TextChunk.content c = trim (take (TextChunk.endChar c) joined)) /\
  (forall i c d, result !! i = Some c -> result !! S i = Some d ->
     exists buffer,
       TextChunk.content c = trim buffer /\
       TextChunk.content d
       = trim (getOverlapText encode decode overlapTokens buffer
                 ++ slice (TextChunk.endChar c) (TextChunk.endChar d) joined) /\
       TextChunk.startChar d
       = (Z.of_nat (TextChunk.endChar c)
          - Z.of_nat (length (getOverlapText encode decode overlapTokens
                                buffer)))%Z /\
       TextChunk.endChar c <= TextChunk.endChar d <= length joined).
Proof.
  intros joined result.
  assert (tiles encode decode overlapTokens joined 0 [] result) as Htiles.
  { pose proof (cover_final encode decode maxTokens overlapTokens text) as HC.
    subst result.
    destruct (chunk_cases encode decode maxTokens overlapTokens text)
      as [-> | [_ ->]].
    - by destruct HC.
    - by apply (trail_push encode decode overlapTokens _ _ _ _ _ _ _ HC). }
  split; [exact Htiles|]. split.
  - intros c Hc. destruct result as [|c' rest]; [done|].
    injection Hc as ->. by apply (tiles_first encode decode overlapTokens _ _ rest).
  - intros i c d. by apply (tiles_consecutive _ _ _ _ _ _ _ _ _ _ Htiles).
Qed.

Definition twoParagraphs : utf16 :=
  ascii "One day. Two days." ++ [LF; LF] ++ ascii "Three days. Four.".

(** Two paragraphs, [maxTokens = 24], [overlapTokens = 4]: the second chunk
    starts 4 code units before the end of the first. *)
Example chunk_tiles_two_paragraphs :
  (fun c => (TextChunk.startChar c, TextChunk.endChar c))
    <$> chunk unitEncode unitDecode 24 4 twoParagraphs
  = [(0%Z, 20); (16%Z, 39)].
Proof. vm_compute. reflexivity. Qed.

End ChunkerCoverProps.

Module LegacyCover.
Import Chunker ChunkerFacts ChunkerSmall TrimFacts ChunkerShape ChunkerCover.

Section Cover.
Variable encode : utf16 -> list nat.
Variable decode : list nat -> utf16.
Variable maxTokens overlapTokens : Z.

Local Abbreviation getOverlapText :=
  (getOverlapText encode decode overlapTokens).
Local Abbreviation paragraphStep :=
  (LegacyChunker.paragraphStep encode decode maxTokens overlapTokens).

(** The state of the first chunker after the text [seen] has been read. *)
Definition LegacyTrail (st : LegacyChunker.State) (seen : utf16) : Prop :=
  Trail encode decode overlapTokens (LegacyChunker.chunks st)
    (LegacyChunker.currentContent st) (LegacyChunker.startChar st)
    (LegacyChunker.charOffset st) seen.

Lemma legacy_paragraphStep_cover st seen para :
  LegacyTrail st seen ->
  LegacyTrail (paragraphStep st para) (seen ++ para ++ [LF; LF]).
Proof.
  intros HC. unfold LegacyChunker.paragraphStep. destruct (_ && _).
  - unfold LegacyTrail.
    cbn [LegacyChunker.chunks LegacyChunker.currentContent
           LegacyChunker.startChar LegacyChunker.charOffset].
    pose proof (trail_flush encode decode overlapTokens _ _
                  (LegacyChunker.currentTokens st) _ _ _
                  (length (LegacyChunker.chunks st)) HC) as HF.
    pose proof (trail_offset _ _ _ _ _ _ _ _ HF) as Ho.
    pose proof (trail_append encode decode overlapTokens _ _ _ _ _
                  (para ++ [LF; LF]) HF) as HA.
    exact HA.
  - unfold LegacyTrail.
    cbn [LegacyChunker.chunks LegacyChunker.currentContent
           LegacyChunker.startChar LegacyChunker.charOffset].
    by apply trail_append.
Qed.

Lemma legacy_foldl_paragraphStep_cover st seen paragraphs :
  LegacyTrail st seen ->
  LegacyTrail (foldl paragraphStep st paragraphs)
    (seen ++ buffered paragraphs).
Proof.
  revert st seen. induction paragraphs as [|para rest IH]; intros st seen HC.
  - cbn. by rewrite app_nil_r.
  - cbn [foldl]. unfold buffered. cbn [fmap list_fmap concat].
    rewrite app_assoc. by apply IH, legacy_paragraphStep_cover.
Qed.

End Cover.
End LegacyCover.

Module LegacyCoverProps.
Import Chunker ChunkerFacts ChunkerSmall ChunkerShape ChunkerCover.
Import LegacyCover.

(** X25. The chunks returned by the first chunker tile the re-joined
    normalised text in the same way: the first chunk starts at 0 and holds
    the trimmed text up to its [endChar]; the buffer of every later chunk is
    the overlap text computed from the buffer of the chunk before, followed
    by the text between the two end offsets; its content is that buffer
    trimmed and its [startChar] is the [endChar] of the chunk before less
    the length of the overlap text. This holds for every encoder. *)
Theorem legacy_chunk_contents_tile_the_text
    (encode : utf16 -> list nat) (decode : list nat -> utf16)
    (maxTokens overlapTokens : Z) (text : utf16) :
  let joined := buffered (splitParagraphs (replaceCRLF text)) in
  let result :=
    LegacyChunker.chunk encode decode maxTokens overlapTokens text in
  tiles encode decode overlapTokens joined 0 [] result /\
  (forall c, result !! 0 = Some c ->
     TextChunk.startChar c = 0%Z /\
     TextChunk.content c = trim (take (TextChunk.endChar c) joined)) /\
  (forall i c d, result !! i = Some c -> result !! S i = Some d ->
     exists buffer,
       TextChunk.content c = trim buffer /\
       TextChunk.content d
       = trim (getOverlapText encode decode overlapTokens buffer
                 ++ slice (TextChunk.endChar c) (TextChunk.endChar d) joined) /\
       TextChunk.startChar d
       = (Z.of_nat (TextChunk.endChar c)
          - Z.of_nat (length (getOverlapText encode decode overlapTokens
                                buffer)))%Z /\
       TextChunk.endChar c <= TextChunk.endChar d <= length joined).
Proof.
  intros joined result.
  assert (tiles encode decode overlapTokens joined 0 [] result) as Htiles.
  { subst result. unfold LegacyChunker.chunk. set (st := foldl _ _ _).
    assert (LegacyTrail encode decode overlapTokens st joined) as HC.
    { apply (legacy_foldl_paragraphStep_cover encode decode maxTokens
               overlapTokens (LegacyChunker.mkState [] [] 0 0 0) []).
      by constructor. }
    clearbody st.
    destruct (trim (LegacyChunker.currentContent st)) eqn:Ht.
    - by destruct HC.
    - rewrite <- Ht.
      by apply (trail_push encode decode overlapTokens _ _ _ _ _ _ _ HC). }
  split; [exact Htiles|]. split.
  - intros c Hc. destruct result as [|c' rest]; [done|].
    injection Hc as ->. by apply (tiles_first encode decode overlapTokens _ _ rest).
  - intros i c d. by apply (tiles_consecutive _ _ _ _ _ _ _ _ _ _ Htiles).
Qed.

(** The same two paragraphs under the first chunker. *)
Example legacy_chunk_tiles_two_paragraphs :
  (fun c => (TextChunk.startChar c, TextChunk.endChar c))
    <$> LegacyChunker.chunk unitEncode unitDecode 24 4
          ChunkerCoverProps.twoParagraphs
  = [(0%Z, 20); (16%Z, 39)].
Proof. vm_compute. reflexivity. Qed.

End LegacyCoverProps.
